(** * Campus Linker: relational schema, seed data and client script

    A shallow embedding of the three source files of the repository:

    - the schema script (nine [CREATE TABLE IF NOT EXISTS] statements),
    - [scripts/02_insert_sample_data.sql] (seven [INSERT] statements),
    - [static/js/script.js] (panel toggle, form validation, alert
      auto-dismiss, smooth scrolling, submit-button loading state).

    The SQL scripts are data: lists of statements.  Their meaning is given
    by a small executable model of the engine they are written for (tables
    as lists of rows, auto-increment keys, NOT NULL / UNIQUE / FOREIGN KEY
    checks, statement atomicity, a script stopping at its first error).
    The client script is embedded as state-passing functions over a DOM
    (a tree of node identifiers and a heap of element objects), timers and
    a log of the browser calls it makes. *)

From Stdlib Require Import ZArith Lia Ascii String.
From stdpp Require Import gmap strings list.

Local Open Scope Z_scope.

(** ** Results of fallible operations *)

Inductive result (E A : Type) : Type :=
  | Ok (a : A)
  | Err (e : E).
Arguments Ok {E A} a.
Arguments Err {E A} e.

#[global] Instance result_ret {E} : MRet (result E) := fun _ a => Ok a.

#[global] Instance result_bind {E} : MBind (result E) := fun _ _ k r =>
  match r with
  | Ok a => k a
  | Err e => Err e
  end.

Definition is_ok {E A} (r : result E A) : bool :=
  match r with Ok _ => true | Err _ => false end.

(** Left-to-right traversal that stops at the first error. *)
Fixpoint fold_result {E A B} (f : A -> B -> result E A) (a : A) (l : list B) : result E A :=
  match l with
  | [] => Ok a
  | b :: l' => a' ← f a b; fold_result f a' l'
  end.

Module Sql.

(** ** Data model *)

Inductive sqltype : Type :=
  | INT
  | VARCHAR (n : nat)
  | TEXT
  | DATE
  | YEAR
  | DECIMAL (precision scale : nat)
  | ENUM (labels : list string)
  | TIMESTAMP.

(** A decimal literal [m / 10^scale] is kept exact: [1500.00] is
    [VDec 150000 2], [8.5] is [VDec 85 1]. *)
Inductive value : Type :=
  | VNull
  | VInt (z : Z)
  | VStr (s : string)
  | VDec (mantissa : Z) (scale : nat)
  | VTime (t : Z).

#[global] Instance value_eq_dec : EqDecision value.
Proof. solve_decision. Defined.

(** Column attributes, as the schema writes them. *)
Inductive attribute : Type :=
  | PrimaryKey
  | AutoIncrement
  | Unique
  | NotNull
  | Nullable
  | Default (v : value)
  | DefaultCurrentTimestamp.

#[global] Instance attribute_eq_dec : EqDecision attribute.
Proof. solve_decision. Defined.

Record column : Type := Col {
  col_name : string;
  col_type : sqltype;
  col_attrs : list attribute
}.

(** [FOREIGN KEY (fk_column) REFERENCES fk_table(fk_ref)] *)
Record foreign_key : Type := ForeignKey {
  fk_column : string;
  fk_table : string;
  fk_ref : string
}.

Record table_def : Type := TableDef {
  td_columns : list column;
  td_fkeys : list foreign_key
}.

Definition row : Type := list value.

Record table : Type := Table {
  t_def : table_def;
  t_rows : list row;
  t_auto : Z
}.

Inductive stmt : Type :=
  | CreateTableIfNotExists (name : string) (def : table_def)
  | InsertInto (name : string) (cols : list string) (rows : list row).

Inductive error : Type :=
  | NoSuchTable (t : string)
  | UnknownColumn (t c : string)
  | ColumnCountMismatch (t : string)
  | ColumnSpecifiedTwice (t : string)
  | NoDefaultValue (t c : string)
  | NullViolation (t c : string)
  | DataError (t c : string)
  | DuplicateEntry (t c : string)
  | ForeignKeyViolation (t c : string)
  | BadForeignKey (t c : string).

#[global] Instance error_eq_dec : EqDecision error.
Proof. solve_decision. Defined.

(** ** The schema script (src/unnamed/part_000) *)

Definition created_at : column := Col "created_at" TIMESTAMP [DefaultCurrentTimestamp].

Definition registration_def : table_def :=
  TableDef
    [ Col "id" INT [PrimaryKey; AutoIncrement];
      Col "username" (VARCHAR 50) [Unique; NotNull];
      Col "password" (VARCHAR 255) [NotNull];
      Col "email_id" (VARCHAR 100) [Unique; NotNull];
      Col "mobile_no" (VARCHAR 15) [NotNull];
      created_at ]
    [].

Definition admission_def : table_def :=
  TableDef
    [ Col "admission_id" INT [PrimaryKey; AutoIncrement];
      Col "registration_id" INT [];
      Col "student_name" (VARCHAR 100) [NotNull];
      Col "course_name" (VARCHAR 100) [NotNull];
      Col "email_id" (VARCHAR 100) [NotNull];
      Col "date_of_birth" DATE [NotNull];
      Col "father_name" (VARCHAR 100) [NotNull];
      Col "mother_name" (VARCHAR 100) [NotNull];
      Col "mobile_no" (VARCHAR 15) [NotNull];
      Col "aadhar_no" (VARCHAR 12) [Unique; NotNull];
      Col "address" TEXT [NotNull];
      Col "state" (VARCHAR 50) [NotNull];
      Col "district" (VARCHAR 50) [NotNull];
      Col "pincode" (VARCHAR 6) [NotNull];
      Col "gender" (ENUM ["Male"; "Female"; "Other"]) [NotNull];
      Col "previous_year_cgpa" (DECIMAL 3 2) [];
      Col "obtain_marks" INT [];
      Col "total_marks" INT [];
      Col "percentage" (DECIMAL 5 2) [];
      Col "passing_year" YEAR [];
      Col "photo_path" (VARCHAR 255) [];
      Col "id_proof_path" (VARCHAR 255) [];
      Col "sign_path" (VARCHAR 255) [];
      Col "previous_year_marklist_path" (VARCHAR 255) [];
      Col "status" (ENUM ["Pending"; "Approved"; "Rejected"]) [Default (VStr "Pending")];
      created_at ]
    [ ForeignKey "registration_id" "registration" "id" ].

Definition student_def : table_def :=
  TableDef
    [ Col "student_id" INT [PrimaryKey; AutoIncrement];
      Col "admission_id" INT [];
      Col "student_name" (VARCHAR 100) [NotNull];
      Col "course_name" (VARCHAR 100) [NotNull];
      Col "activity_id" INT [];
      created_at ]
    [ ForeignKey "admission_id" "admission" "admission_id" ].

Definition course_def : table_def :=
  TableDef
    [ Col "course_id" INT [PrimaryKey; AutoIncrement];
      Col "course_name" (VARCHAR 100) [NotNull];
      Col "course_code" (VARCHAR 20) [Unique; NotNull];
      Col "duration_years" INT [NotNull];
      created_at ]
    [].

Definition activity_def : table_def :=
  TableDef
    [ Col "activity_id" INT [PrimaryKey; AutoIncrement];
      Col "student_id" INT [];
      Col "course_name" (VARCHAR 100) [NotNull];
      Col "activity_category" (VARCHAR 100) [NotNull];
      Col "activity_date" DATE [NotNull];
      created_at ]
    [ ForeignKey "student_id" "student" "student_id" ].

Definition exam_def : table_def :=
  TableDef
    [ Col "exam_id" INT [PrimaryKey; AutoIncrement];
      Col "exam_type" (VARCHAR 50) [NotNull];
      Col "exam_fee" (DECIMAL 10 2) [NotNull];
      created_at ]
    [].

Definition result_def : table_def :=
  TableDef
    [ Col "result_id" INT [PrimaryKey; AutoIncrement];
      Col "student_id" INT [];
      Col "exam_id" INT [];
      Col "course_name" (VARCHAR 100) [NotNull];
      Col "subject" (VARCHAR 100) [NotNull];
      Col "obtain_marks" INT [NotNull];
      Col "total_marks" INT [NotNull];
      Col "grade" (VARCHAR 2) [];
      Col "exam_type" (VARCHAR 50) [];
      Col "cgpa" (DECIMAL 3 2) [];
      Col "result_status" (ENUM ["Pass"; "Fail"; "ATKT"]) [NotNull];
      created_at ]
    [ ForeignKey "student_id" "student" "student_id";
      ForeignKey "exam_id" "exam" "exam_id" ].

Definition fee_def : table_def :=
  TableDef
    [ Col "fee_id" INT [PrimaryKey; AutoIncrement];
      Col "admission_id" INT [];
      Col "student_name" (VARCHAR 100) [NotNull];
      Col "course_name" (VARCHAR 100) [NotNull];
      Col "exam_category" (VARCHAR 100) [];
      Col "amount" (DECIMAL 10 2) [NotNull];
      Col "payment_method" (VARCHAR 50) [NotNull];
      Col "payment_status" (ENUM ["Pending"; "Paid"; "Failed"]) [Default (VStr "Pending")];
      Col "payment_date" TIMESTAMP [Nullable];
      created_at ]
    [ ForeignKey "admission_id" "admission" "admission_id" ].

Definition social_activity_def : table_def :=
  TableDef
    [ Col "activity_id" INT [PrimaryKey; AutoIncrement];
      Col "student_id" INT [];
      Col "course_name" (VARCHAR 100) [NotNull];
      Col "activity_category" (VARCHAR 100) [NotNull];
      Col "activity_date" DATE [NotNull];
      Col "description" TEXT [];
      created_at ]
    [ ForeignKey "student_id" "student" "student_id" ].

Definition schema_script : list stmt :=
  [ CreateTableIfNotExists "registration" registration_def;
    CreateTableIfNotExists "admission" admission_def;
    CreateTableIfNotExists "student" student_def;
    CreateTableIfNotExists "course" course_def;
    CreateTableIfNotExists "activity" activity_def;
    CreateTableIfNotExists "exam" exam_def;
    CreateTableIfNotExists "result" result_def;
    CreateTableIfNotExists "fee" fee_def;
    CreateTableIfNotExists "social_activity" social_activity_def ].

(** ** The seed script (src/scripts/02_insert_sample_data.sql) *)

Definition insert_courses : stmt :=
  InsertInto "course" ["course_name"; "course_code"; "duration_years"]
    [ [VStr "Bachelor of Business Administration"; VStr "BBA"; VInt 3];
      [VStr "Bachelor of Commerce"; VStr "BCOM"; VInt 3];
      [VStr "Bachelor of Science"; VStr "BSC"; VInt 3];
      [VStr "Master of Business Administration"; VStr "MBA"; VInt 2];
      [VStr "Master of Commerce"; VStr "MCOM"; VInt 2];
      [VStr "Master of Science"; VStr "MSC"; VInt 2];
      [VStr "Data Science"; VStr "DS"; VInt 2] ].

Definition insert_exams : stmt :=
  InsertInto "exam" ["exam_type"; "exam_fee"]
    [ [VStr "Semester 1"; VDec 150000 2];
      [VStr "Semester 2"; VDec 150000 2];
      [VStr "Semester 3"; VDec 150000 2];
      [VStr "Semester 4"; VDec 150000 2];
      [VStr "Semester 5"; VDec 150000 2];
      [VStr "Semester 6"; VDec 150000 2];
      [VStr "Final Exam"; VDec 200000 2] ].

Definition insert_registrations : stmt :=
  InsertInto "registration" ["username"; "password"; "email_id"; "mobile_no"]
    [ [VStr "admin"; VStr "admin123"; VStr "admin@skylink.edu"; VStr "9876543210"];
      [VStr "student1"; VStr "pass123"; VStr "student1@skylink.edu"; VStr "9876543211"] ].

Definition insert_admission : stmt :=
  InsertInto "admission"
    [ "registration_id"; "student_name"; "course_name"; "email_id"; "date_of_birth";
      "father_name"; "mother_name"; "mobile_no"; "aadhar_no"; "address"; "state"; "district";
      "pincode"; "gender"; "previous_year_cgpa"; "obtain_marks"; "total_marks"; "percentage";
      "passing_year"; "status" ]
    [ [ VInt 2; VStr "John Doe"; VStr "Bachelor of Business Administration";
        VStr "john.doe@skylink.edu";
        VStr "2000-05-15"; VStr "Robert Doe"; VStr "Mary Doe"; VStr "9876543211";
        VStr "123456789012";
        VStr "123 Main Street, City Center"; VStr "Maharashtra"; VStr "Mumbai"; VStr "400001";
        VStr "Male"; VDec 85 1; VInt 450; VInt 500; VDec 900 1; VInt 2022; VStr "Approved" ] ].

Definition insert_student : stmt :=
  InsertInto "student" ["admission_id"; "student_name"; "course_name"]
    [ [VInt 1; VStr "John Doe"; VStr "Bachelor of Business Administration"] ].

Definition insert_result : stmt :=
  InsertInto "result"
    [ "student_id"; "exam_id"; "course_name"; "subject"; "obtain_marks"; "total_marks";
      "grade"; "exam_type"; "cgpa"; "result_status" ]
    [ [ VInt 1; VInt 1; VStr "Bachelor of Business Administration";
        VStr "Business Mathematics";
        VInt 85; VInt 100; VStr "A"; VStr "Semester 1"; VDec 85 1; VStr "Pass" ] ].

Definition insert_fee : stmt :=
  InsertInto "fee"
    [ "admission_id"; "student_name"; "course_name"; "exam_category"; "amount";
      "payment_method"; "payment_status" ]
    [ [ VInt 1; VStr "John Doe"; VStr "Bachelor of Business Administration";
        VStr "Semester 1";
        VDec 150000 2; VStr "Online"; VStr "Paid" ] ].

Definition seed_script : list stmt :=
  [ insert_courses; insert_exams; insert_registrations; insert_admission;
    insert_student; insert_result; insert_fee ].

(** ** The engine

    What the scripts rely on, as the engine they are written for does it
    with its defaults (transactional tables, strict mode):
    - [AUTO_INCREMENT] keys count from 1; a key left out, [NULL] or [0] is
      generated, an explicit larger key moves the counter past it;
    - a column left out takes its [DEFAULT], else [NULL], else (declared
      [NOT NULL]) the row is refused;
    - a value must fit its column's type; a value of another kind is
      refused.  The engine converts some of them first (a numeric string
      or a decimal given to an [INT] column); no conversion is modelled,
      so the model accepts no more than the engine does, and what is
      said of refused inserts is said for values of the column's own
      kind;
    - [UNIQUE] and [PRIMARY KEY] columns refuse a value already present,
      [NULL] apart; values are compared exactly;
    - a [FOREIGN KEY] column refuses a value, [NULL] apart, that the
      referenced column does not hold;
    - a statement is atomic: a multi-row [INSERT] that fails on one row
      inserts none (the key counter is put back with the rows; an engine
      that leaves a gap in the keys instead holds the same rows);
    - a script stops at its first failing statement ([run_script]); a
      client told to go on past errors is [run_all]. *)

Definition has_attr (a : attribute) (c : column) : bool := bool_decide (a ∈ col_attrs c).
Definition is_key (c : column) : bool := has_attr PrimaryKey c || has_attr Unique c.
Definition is_not_null (c : column) : bool := has_attr NotNull c || has_attr PrimaryKey c.
Definition is_auto (c : column) : bool := has_attr AutoIncrement c.

Fixpoint default_of (now : Z) (attrs : list attribute) : option value :=
  match attrs with
  | [] => None
  | Default v :: _ => Some v
  | DefaultCurrentTimestamp :: _ => Some (VTime now)
  | _ :: rest => default_of now rest
  end.

Definition pow10 (n : nat) : Z := 10 ^ Z.of_nat n.

(** The mantissa at scale [s] of [m / 10^k], rounded half away from zero. *)
Definition rescale (m : Z) (k s : nat) : Z :=
  if (k <=? s)%nat then m * pow10 (s - k)
  else let d := pow10 (k - s) in Z.sgn m * ((Z.abs m + d / 2) / d).

Definition digit (a : ascii) : option Z :=
  let n := Z.of_nat (nat_of_ascii a) in
  if (48 <=? n) && (n <=? 57) then Some (n - 48) else None.

Definition number (l : list ascii) : option Z :=
  foldl (fun acc a => n ← acc; d ← digit a; Some (10 * n + d)) (Some 0) l.

Definition leap_year (y : Z) : bool :=
  (y mod 4 =? 0) && (negb (y mod 100 =? 0) || (y mod 400 =? 0)).

Definition days_in_month (y m : Z) : Z :=
  if m =? 2 then (if leap_year y then 29 else 28)
  else if bool_decide (m ∈ [4; 6; 9; 11]) then 30 else 31.

(** A date literal in the form the seed script writes: ['YYYY-MM-DD']. *)
Definition valid_date (s : string) : bool :=
  match String.list_ascii_of_string s with
  | [y1; y2; y3; y4; s1; m1; m2; s2; d1; d2] =>
      match number [y1; y2; y3; y4], number [m1; m2], number [d1; d2] with
      | Some y, Some m, Some d =>
          bool_decide (s1 = "-"%char) && bool_decide (s2 = "-"%char)
          && (1000 <=? y) && (1 <=? m) && (m <=? 12) && (1 <=? d) && (d <=? days_in_month y m)
      | _, _, _ => false
      end
  | _ => false
  end.

(** The value a column of type [ty] stores for [v], [None] when it does not fit. *)
Definition store (ty : sqltype) (v : value) : option value :=
  match v, ty with
  | VNull, _ => Some VNull
  | VInt z, INT => if (-2147483648 <=? z) && (z <=? 2147483647) then Some v else None
  | VInt z, YEAR => if (1901 <=? z) && (z <=? 2155) then Some v else None
  | VInt z, DECIMAL p s =>
      let r := z * pow10 s in if Z.abs r <? pow10 p then Some (VDec r s) else None
  | VDec m k, DECIMAL p s =>
      let r := rescale m k s in if Z.abs r <? pow10 p then Some (VDec r s) else None
  | VStr str, VARCHAR n => if (String.length str <=? n)%nat then Some v else None
  | VStr str, TEXT => if (Z.of_nat (String.length str) <=? 65535) then Some v else None
  | VStr str, DATE => if valid_date str then Some v else None
  | VStr str, ENUM labels => if bool_decide (str ∈ labels) then Some v else None
  | VTime _, TIMESTAMP => Some v
  | _, _ => None
  end.

(** The value an [INSERT] gives for column [c], by position in its column list. *)
Fixpoint given (c : string) (cols : list string) (vals : row) : option value :=
  match cols, vals with
  | c' :: cols', v :: vals' => if decide (c' = c) then Some v else given c cols' vals'
  | _, _ => None
  end.

Definition wants_auto (v : value) : bool :=
  match v with
  | VNull => true
  | VInt 0 => true
  | _ => false
  end.

Definition build_cell (now : Z) (tname : string) (auto : Z) (g : option value) (c : column)
    : result error value :=
  v ← match g with
      | Some v => if is_auto c && wants_auto v then Ok (VInt auto) else Ok v
      | None =>
          if is_auto c then Ok (VInt auto)
          else match default_of now (col_attrs c) with
               | Some d => Ok d
               | None => if is_not_null c then Err (NoDefaultValue tname (col_name c))
                         else Ok VNull
               end
      end;
  if is_not_null c && bool_decide (v = VNull) then Err (NullViolation tname (col_name c))
  else match store (col_type c) v with
       | Some w => Ok w
       | None => Err (DataError tname (col_name c))
       end.

Fixpoint build_row (now : Z) (tname : string) (auto : Z) (cols : list string) (vals : row)
    (columns : list column) : result error row :=
  match columns with
  | [] => Ok []
  | c :: cs =>
      v ← build_cell now tname auto (given (col_name c) cols vals) c;
      r ← build_row now tname auto cols vals cs;
      Ok (v :: r)
  end.

Definition cell (i : nat) (r : row) : value := default VNull (r !! i).
Definition column_at (i : nat) (rows : list row) : list value := map (cell i) rows.

Fixpoint col_index_from (i : nat) (c : string) (columns : list column) : option nat :=
  match columns with
  | [] => None
  | c' :: cs => if decide (col_name c' = c) then Some i else col_index_from (S i) c cs
  end.
Definition col_index (c : string) (columns : list column) : option nat :=
  col_index_from 0 c columns.

(** The values of column [c] of a table, one per row, in insertion order. *)
Definition column_values (t : table) (c : string) : list value :=
  match col_index c (td_columns (t_def t)) with
  | Some i => column_at i (t_rows t)
  | None => []
  end.

Fixpoint check_unique (tname : string) (rows : list row) (i : nat) (columns : list column)
    (r : row) : result error () :=
  match columns with
  | [] => Ok ()
  | c :: cs =>
      if is_key c && negb (bool_decide (cell i r = VNull))
         && bool_decide (cell i r ∈ column_at i rows)
      then Err (DuplicateEntry tname (col_name c))
      else check_unique tname rows (S i) cs r
  end.

Definition check_fk (db : gmap string table) (tname : string) (columns : list column)
    (r : row) (fk : foreign_key) : result error () :=
  match col_index (fk_column fk) columns with
  | None => Err (BadForeignKey tname (fk_column fk))
  | Some i =>
      if bool_decide (cell i r = VNull) then Ok ()
      else match db !! fk_table fk with
           | Some target =>
               if bool_decide (cell i r ∈ column_values target (fk_ref fk)) then Ok ()
               else Err (ForeignKeyViolation tname (fk_column fk))
           | None => Err (ForeignKeyViolation tname (fk_column fk))
           end
  end.

Fixpoint check_fks (db : gmap string table) (tname : string) (columns : list column)
    (r : row) (fks : list foreign_key) : result error () :=
  match fks with
  | [] => Ok ()
  | fk :: rest => _ ← check_fk db tname columns r fk; check_fks db tname columns r rest
  end.

Definition next_auto (auto : Z) (columns : list column) (r : row) : Z :=
  match list_find (fun c => is_auto c = true) columns with
  | Some (i, _) =>
      match cell i r with
      | VInt z => Z.max auto (z + 1)
      | _ => auto
      end
  | None => auto
  end.

Definition insert_row (now : Z) (db : gmap string table) (tname : string)
    (cols : list string) (t : table) (vals : row) : result error table :=
  let columns := td_columns (t_def t) in
  if negb (length cols =? length vals)%nat then Err (ColumnCountMismatch tname)
  else if negb (bool_decide (NoDup cols)) then Err (ColumnSpecifiedTwice tname)
  else match list_find (fun c => c ∉ map col_name columns) cols with
       | Some (_, c) => Err (UnknownColumn tname c)
       | None =>
           r ← build_row now tname (t_auto t) cols vals columns;
           _ ← check_unique tname (t_rows t) 0 columns r;
           _ ← check_fks db tname columns r (td_fkeys (t_def t));
           Ok {| t_def := t_def t;
                 t_rows := t_rows t ++ [r];
                 t_auto := next_auto (t_auto t) columns r |}
       end.

(** A foreign key of a new table must name one of its columns and a key
    column of a table that exists (or of the new table itself). *)
Definition check_fk_def (db : gmap string table) (name : string) (def : table_def)
    (fk : foreign_key) : bool :=
  bool_decide (fk_column fk ∈ map col_name (td_columns def))
  && match (if decide (fk_table fk = name) then Some def else t_def <$> db !! fk_table fk) with
     | Some target =>
         bool_decide (fk_ref fk ∈ map col_name (filter (fun c => is_key c = true) (td_columns target)))
     | None => false
     end.

Definition create_table (db : gmap string table) (name : string) (def : table_def)
    : result error (gmap string table) :=
  if negb (bool_decide (NoDup (map col_name (td_columns def)))) then Err (ColumnSpecifiedTwice name)
  else match list_find (fun fk => check_fk_def db name def fk = false) (td_fkeys def) with
       | Some (_, fk) => Err (BadForeignKey name (fk_column fk))
       | None => Ok (<[name := {| t_def := def; t_rows := []; t_auto := 1 |}]> db)
       end.

(** One statement.  [IF NOT EXISTS]: an existing table of that name is
    left as it is, whatever its definition. *)
Definition exec (now : Z) (s : stmt) (db : gmap string table) : result error (gmap string table) :=
  match s with
  | CreateTableIfNotExists name def =>
      match db !! name with
      | Some _ => Ok db
      | None => create_table db name def
      end
  | InsertInto name cols rows =>
      match db !! name with
      | None => Err (NoSuchTable name)
      | Some t =>
          t' ← fold_result (insert_row now db name cols) t rows;
          Ok (<[name := t']> db)
      end
  end.

(** A script: the database it leaves, and the index and error of the
    statement it stopped at, if any. *)
Fixpoint run_from (now : Z) (i : nat) (script : list stmt) (db : gmap string table)
    : gmap string table * option (nat * error) :=
  match script with
  | [] => (db, None)
  | s :: rest =>
      match exec now s db with
      | Ok db' => run_from now (S i) rest db'
      | Err e => (db, Some (i, e))
      end
  end.

Definition run_script (now : Z) (script : list stmt) (db : gmap string table)
    : gmap string table * option (nat * error) :=
  run_from now 0 script db.

(** The same script in a client that goes on past a failing statement:
    the database it leaves and every failure. *)
Fixpoint run_all_from (now : Z) (i : nat) (script : list stmt) (db : gmap string table)
    : gmap string table * list (nat * error) :=
  match script with
  | [] => (db, [])
  | s :: rest =>
      match exec now s db with
      | Ok db' => run_all_from now (S i) rest db'
      | Err e => let '(db', errors) := run_all_from now (S i) rest db in (db', (i, e) :: errors)
      end
  end.

Definition run_all (now : Z) (script : list stmt) (db : gmap string table)
    : gmap string table * list (nat * error) :=
  run_all_from now 0 script db.

Definition rows_of (db : gmap string table) (name : string) : list row :=
  match db !! name with
  | Some t => t_rows t
  | None => []
  end.

Definition row_count (db : gmap string table) (name : string) : nat := length (rows_of db name).

(** The database after the schema script, and after schema then seed, on
    an empty database. *)
Definition fresh (now : Z) : gmap string table := (run_script now schema_script ∅).1.
Definition seeded (now : Z) : gmap string table := (run_script now seed_script (fresh now)).1.

(** ** Vocabulary of the statements about the schema *)

Definition table_names (script : list stmt) : list string :=
  omap (fun s => match s with
                 | CreateTableIfNotExists name _ => Some name
                 | InsertInto _ _ _ => None
                 end) script.

(** The values of column [c] of table [tname], [[]] when there is no such table. *)
Definition col (db : gmap string table) (tname c : string) : list value :=
  match db !! tname with
  | Some t => column_values t c
  | None => []
  end.

(** What a session that issues one statement leaves behind. *)
Definition apply (now : Z) (s : stmt) (db : gmap string table) : gmap string table :=
  (run_script now [s] db).1.

(** One successful statement, issued at any time. *)
Definition step (db db' : gmap string table) : Prop :=
  ∃ now s, exec now s db = Ok db'.

(** The states of a database that started empty, had the schema script
    run on it, and then any statements (the sources have no statement
    that deletes or updates). *)
Definition reachable (db : gmap string table) : Prop :=
  ∃ now, rtc step (fresh now) db.

(** Key columns hold no value twice ([NULL] apart) and [NOT NULL] columns
    hold no [NULL]. *)
Definition table_ok (t : table) : Prop :=
  ∀ i c, td_columns (t_def t) !! i = Some c →
    (is_key c = true → NoDup (filter (fun v => v ≠ VNull) (column_at i (t_rows t))))
    ∧ (is_not_null c = true → VNull ∉ column_at i (t_rows t)).

(** Every foreign-key value, [NULL] apart, is held by the referenced column. *)
Definition fks_ok (db : gmap string table) (t : table) : Prop :=
  ∀ fk i r, fk ∈ td_fkeys (t_def t) →
    col_index (fk_column fk) (td_columns (t_def t)) = Some i →
    r ∈ t_rows t →
    cell i r = VNull ∨ cell i r ∈ col db (fk_table fk) (fk_ref fk).

(** Column [c] of table [tname] holds no value twice. *)
Definition distinct_column (db : gmap string table) (tname c : string) : Prop :=
  NoDup (col db tname c).

(** The rows of an [INSERT] into [tname] would put a value into column [c]
    twice: one of them gives a value the column already holds, or two of
    them give the same value. *)
Definition duplicating (db : gmap string table) (tname c : string) (cols : list string)
    (rows : list row) : Prop :=
  (∃ r v, r ∈ rows ∧ given c cols r = Some v ∧ v ∈ col db tname c)
  ∨ (∃ l1 r1 l2 r2 l3 v, rows = l1 ++ r1 :: l2 ++ r2 :: l3
                         ∧ given c cols r1 = Some v ∧ given c cols r2 = Some v).

(** Such an [INSERT] is refused and changes nothing. *)
Definition rejects_duplicates (db : gmap string table) (tname c : string) : Prop :=
  ∀ now cols rows, duplicating db tname c cols rows →
    is_ok (exec now (InsertInto tname cols rows) db) = false
    ∧ apply now (InsertInto tname cols rows) db = db.

(** An [INSERT] into [tname], one of whose rows gives column [c] an
    integer that column [ref] of table [target] does not hold, is refused
    and changes nothing.  (Keys are integers; a key written as a quoted or
    decimal literal, which the engine would convert to an integer first,
    is outside the model, see [store], and no statement is made of it.) *)
Definition rejects_dangling (db : gmap string table) (tname c target ref : string) : Prop :=
  ∀ now cols rows r z,
    r ∈ rows → given c cols r = Some (VInt z) → VInt z ∉ col db target ref →
    is_ok (exec now (InsertInto tname cols rows) db) = false
    ∧ apply now (InsertInto tname cols rows) db = db.

Definition db_ok (db : gmap string table) : Prop :=
  ∀ name t, db !! name = Some t → table_ok t ∧ fks_ok db t.

End Sql.

Module Script.

(** ** Strings, as far as [trim] looks into them *)

(** A form control's value is a sequence of UTF-16 code units. *)
Definition jsstring : Type := list N.

Definition js (s : string) : jsstring :=
  (fun a => N.of_nat (nat_of_ascii a)) <$> String.list_ascii_of_string s.

(** The code units [String.prototype.trim] strips: white space (TAB, VT,
    FF, SP, NBSP, ZWNBSP and the space separators) and line terminators
    (LF, CR, LS, PS). *)
Definition is_white_space (c : N) : bool :=
  (bool_decide (c ∈ [9; 10; 11; 12; 13; 32; 160; 5760; 8232; 8233; 8239; 8287; 12288; 65279])
   || ((8192 <=? c) && (c <=? 8202)))%N.

Fixpoint trimStart (s : jsstring) : jsstring :=
  match s with
  | [] => []
  | c :: s' => if is_white_space c then trimStart s' else s
  end.

Definition trimEnd (s : jsstring) : jsstring := reverse (trimStart (reverse s)).
Definition trim (s : jsstring) : jsstring := trimEnd (trimStart s).

(** [!s]: the empty string is the only falsy string. *)
Definition falsy (s : jsstring) : bool :=
  match s with
  | [] => true
  | _ :: _ => false
  end.

(** ** The document *)

Record style : Type := Style {
  display : string;
  borderColor : string;
  opacity : string
}.

(** An element object, with the properties and attributes the script
    reads or writes.  [textContent] is the text of the element: element
    children of a button, which an assignment to it would replace, are not
    modelled.  [attributes] holds the content attributes other than
    [style] and [disabled]: these two follow the properties [el_style] and
    [disabled], which stand for them here (the script's selectors name
    the attributes [required], [href] and [type] only). *)
Record element : Type := Element {
  localName : string;
  el_id : option string;
  classList : list string;
  attributes : list (string * string);
  value : jsstring;
  textContent : string;
  disabled : bool;
  el_style : style
}.

Definition set_display (v : string) (e : element) : element :=
  Element (localName e) (el_id e) (classList e) (attributes e) (value e) (textContent e)
    (disabled e) (Style v (borderColor (el_style e)) (opacity (el_style e))).

Definition set_borderColor (v : string) (e : element) : element :=
  Element (localName e) (el_id e) (classList e) (attributes e) (value e) (textContent e)
    (disabled e) (Style (display (el_style e)) v (opacity (el_style e))).

Definition set_opacity (v : string) (e : element) : element :=
  Element (localName e) (el_id e) (classList e) (attributes e) (value e) (textContent e)
    (disabled e) (Style (display (el_style e)) (borderColor (el_style e)) v).

Definition set_textContent (v : string) (e : element) : element :=
  Element (localName e) (el_id e) (classList e) (attributes e) (value e) v
    (disabled e) (el_style e).

Definition set_disabled (v : bool) (e : element) : element :=
  Element (localName e) (el_id e) (classList e) (attributes e) (value e) (textContent e)
    v (el_style e).

(** The element tree: nodes are references into the heap of element
    objects, so that a closure holding a node sees every later change. *)
#[local] Unset Elimination Schemes.
Inductive tree : Type :=
  | Node (n : nat) (children : list tree).
#[local] Set Elimination Schemes.

Definition node_id (t : tree) : nat := match t with Node n _ => n end.
Definition children (t : tree) : list tree := match t with Node _ ks => ks end.

(** Document order, each node with whether it is the first child of its parent. *)
Fixpoint walk (first : bool) (t : tree) : list (nat * bool) :=
  match t with
  | Node n ks =>
      (n, first) ::
      (fix walk_children (first : bool) (ks : list tree) : list (nat * bool) :=
         match ks with
         | [] => []
         | k :: rest => walk first k ++ walk_children false rest
         end) true ks
  end.

Fixpoint walk_forest (first : bool) (ks : list tree) : list (nat * bool) :=
  match ks with
  | [] => []
  | k :: rest => walk first k ++ walk_forest false rest
  end.

(** The first node, in document order, that is [n]. *)
Fixpoint find_node (n : nat) (t : tree) : option tree :=
  match t with
  | Node m ks =>
      if decide (m = n) then Some t
      else (fix find_children (ks : list tree) : option tree :=
              match ks with
              | [] => None
              | k :: rest =>
                  match find_node n k with
                  | Some s => Some s
                  | None => find_children rest
                  end
              end) ks
  end.

Fixpoint find_forest (n : nat) (ks : list tree) : option tree :=
  match ks with
  | [] => None
  | k :: rest =>
      match find_node n k with
      | Some s => Some s
      | None => find_forest n rest
      end
  end.

(** The tree without node [n] and what is below it. *)
Fixpoint prune (n : nat) (t : tree) : tree :=
  match t with
  | Node m ks =>
      Node m ((fix prune_children (ks : list tree) : list tree :=
                 match ks with
                 | [] => []
                 | k :: rest =>
                     if decide (node_id k = n) then prune_children rest
                     else prune n k :: prune_children rest
                 end) ks)
  end.

Fixpoint prune_forest (n : nat) (ks : list tree) : list tree :=
  match ks with
  | [] => []
  | k :: rest =>
      if decide (node_id k = n) then prune_forest n rest
      else prune n k :: prune_forest n rest
  end.

(** ** Selectors

    The script's literal selectors are compound selectors over these
    simple ones. *)
Inductive simple_selector : Type :=
  | TypeSel (name : string)
  | ClassSel (name : string)
  | HasAttr (name : string)
  | AttrEquals (name v : string)
  | AttrPrefix (name v : string)
  | FirstChild.

Definition selector : Type := list simple_selector.

(** [.auth-card:first-child] *)
Definition auth_card_first_child : selector := [ClassSel "auth-card"; FirstChild].
(** [input[required]] *)
Definition input_required : selector := [TypeSel "input"; HasAttr "required"].
(** [.alert] *)
Definition alert_class : selector := [ClassSel "alert"].
(** [a[href^=#]] *)
Definition anchor_hash : selector := [TypeSel "a"; AttrPrefix "href" "#"].
(** [form] *)
Definition form_type : selector := [TypeSel "form"].
(** [button[type=submit]] *)
Definition submit_button : selector := [TypeSel "button"; AttrEquals "type" "submit"].

Fixpoint getAttribute (name : string) (attrs : list (string * string)) : option string :=
  match attrs with
  | [] => None
  | (k, v) :: rest => if decide (k = name) then Some v else getAttribute name rest
  end.

Definition matches_simple (e : element) (first : bool) (s : simple_selector) : bool :=
  match s with
  | TypeSel name => bool_decide (localName e = name)
  | ClassSel name => bool_decide (name ∈ classList e)
  | HasAttr name => bool_decide (is_Some (getAttribute name (attributes e)))
  | AttrEquals name v => bool_decide (getAttribute name (attributes e) = Some v)
  | AttrPrefix name v =>
      match getAttribute name (attributes e) with
      | Some x => String.prefix v x
      | None => false
      end
  | FirstChild => first
  end.

Definition matches (e : element) (first : bool) (sel : selector) : bool :=
  forallb (matches_simple e first) sel.

(** The nodes of a walk whose element matches, in document order. *)
Definition select (heap : gmap nat element) (p : element → bool → bool)
    (nodes : list (nat * bool)) : list nat :=
  omap (fun '(n, first) =>
          match heap !! n with
          | Some e => if p e first then Some n else None
          | None => None
          end) nodes.

(** ** The page: document, timers, listeners and a log *)

(** The closures the script passes to [setTimeout], with what they capture. *)
Inductive callback : Type :=
  | AlertFade (alert : nat)
  | AlertRemove (alert : nat)
  | RestoreButton (button : nat) (originalText : string).

#[global] Instance callback_eq_dec : EqDecision callback.
Proof. solve_decision. Defined.

Record timer : Type := Timer {
  tm_id : nat;
  tm_due : Z;
  tm_callback : callback
}.

(** The listeners the script registers. *)
Inductive listener : Type :=
  | OnDOMContentLoaded
  | OnClick (anchor : nat)
  | OnSubmit (form : nat).

#[global] Instance listener_eq_dec : EqDecision listener.
Proof. solve_decision. Defined.

(** What the log records: browser calls that leave the document alone,
    and each timer callback with the time it was due and the time it ran. *)
Inductive entry : Type :=
  | PreventDefault
  | ScrollIntoView (target : nat) (behavior block : string)
  | Fired (cb : callback) (due ran : Z).

#[global] Instance entry_eq_dec : EqDecision entry.
Proof. solve_decision. Defined.

Record world : Type := World {
  doc : list tree;
  heap : gmap nat element;
  timers : list timer;
  next_timer : nat;
  now : Z;
  listeners : list listener;
  log : list entry
}.

Inductive exn : Type :=
  | TypeError
  | SyntaxError.

(** A computation of the script: a result or a thrown exception, and the
    page as it leaves it (what was done before a throw stays done). *)
Definition js_m (A : Type) : Type := world → result exn A * world.

#[global] Instance js_ret : MRet js_m := fun _ a w => (Ok a, w).

#[global] Instance js_bind : MBind js_m := fun _ _ k m w =>
  match m w with
  | (Ok a, w') => k a w'
  | (Err e, w') => (Err e, w')
  end.

Definition throw {A} (e : exn) : js_m A := fun w => (Err e, w).

Definition read {A} (f : world → A) : js_m A := fun w => (Ok (f w), w).

Definition write (f : world → world) : js_m () := fun w => (Ok (), f w).

Fixpoint forEach {A} (f : A → js_m ()) (l : list A) : js_m () :=
  match l with
  | [] => mret ()
  | a :: rest => _ ← f a; forEach f rest
  end.

(** Member access on the result of a lookup: [null.x] throws. *)
Definition deref (o : option nat) : js_m nat :=
  match o with
  | Some n => mret n
  | None => throw TypeError
  end.

Definition empty_element : element :=
  Element "" None [] [] [] "" false (Style "" "" "").

(** The element object behind a node. *)
Definition element_of (w : world) (n : nat) : element :=
  default empty_element (heap w !! n).

(** The same page but for the element objects. *)
Definition with_heap (h : gmap nat element) (w : world) : world :=
  World (doc w) h (timers w) (next_timer w) (now w) (listeners w) (log w).

(** The same page with more in its log. *)
Definition logged (es : list entry) (w : world) : world :=
  World (doc w) (heap w) (timers w) (next_timer w) (now w) (listeners w) (log w ++ es).

(** The same page with more listeners. *)
Definition with_listeners (ls : list listener) (w : world) : world :=
  World (doc w) (heap w) (timers w) (next_timer w) (now w) (listeners w ++ ls) (log w).

(** The same page with one more timer pending, due [delay] from now. *)
Definition with_timer (cb : callback) (delay : Z) (w : world) : world :=
  World (doc w) (heap w) (timers w ++ [Timer (next_timer w) (now w + delay) cb])
    (S (next_timer w)) (now w) (listeners w) (log w).

(** The same page with another tree. *)
Definition with_doc (d : list tree) (w : world) : world :=
  World d (heap w) (timers w) (next_timer w) (now w) (listeners w) (log w).

(** Property assignment on an element object. *)
Definition modify (n : nat) (f : element → element) : js_m () :=
  write (fun w => with_heap (alter f n (heap w)) w).

Definition record (e : entry) : js_m () := write (logged [e]).

Definition addEventListener (l : listener) : js_m () := write (with_listeners [l]).

Definition setTimeout (cb : callback) (delay : Z) : js_m () := write (with_timer cb delay).

(** [element.remove()] *)
Definition remove (n : nat) : js_m () :=
  write (fun w => with_doc (prune_forest n (doc w)) w).

Definition nodes (w : world) : list (nat * bool) := walk_forest true (doc w).

Definition in_document (w : world) (n : nat) : Prop := n ∈ (nodes w).*1.

Definition querySelectorAll (sel : selector) : js_m (list nat) :=
  read (fun w => select (heap w) (fun e first => matches e first sel) (nodes w)).

Definition querySelector (sel : selector) : js_m (option nat) :=
  l ← querySelectorAll sel; mret (head l).

(** [element.querySelectorAll]: the matches below [scope]. *)
Definition querySelectorAll_in (scope : nat) (sel : selector) : js_m (list nat) :=
  read (fun w =>
    match find_forest scope (doc w) with
    | Some t => select (heap w) (fun e first => matches e first sel) (walk_forest true (children t))
    | None => []
    end).

Definition querySelector_in (scope : nat) (sel : selector) : js_m (option nat) :=
  l ← querySelectorAll_in scope sel; mret (head l).

Definition getElementById (i : string) : js_m (option nat) :=
  read (fun w =>
    if decide (i = "") then None
    else head (select (heap w) (fun e _ => bool_decide (el_id e = Some i)) (nodes w))).

(** [document.querySelector] on a selector only known at run time: the
    browser's selector engine, which throws [SyntaxError] on a string that
    is no selector.  It reads the document and changes nothing. *)
Definition engine : Type := string → list tree → gmap nat element → result exn (option nat).

Definition querySelector_dynamic (css : engine) (s : string) : js_m (option nat) :=
  fun w => (css s (doc w) (heap w), w).

(** ** script.js *)

(** [showRegister], script.js:4-7 *)
Definition showRegister : js_m () :=
  card ← querySelector auth_card_first_child;
  card ← deref card;
  _ ← modify card (set_display "none");
  form ← getElementById "register-form";
  form ← deref form;
  modify form (set_display "block").

(** [showLogin], script.js:9-12 *)
Definition showLogin : js_m () :=
  card ← querySelector auth_card_first_child;
  card ← deref card;
  _ ← modify card (set_display "block");
  form ← getElementById "register-form";
  form ← deref form;
  modify form (set_display "none").

(** The body of the [forEach] of [validateForm], script.js:20-27, with the
    local [isValid] it assigns passed through. *)
Definition validate_input (isValid : bool) (input : nat) : js_m bool :=
  v ← read (fun w => value (element_of w input));
  if falsy (trim v) then
    _ ← modify input (set_borderColor "#dc3545");
    mret false
  else
    _ ← modify input (set_borderColor "#28a745");
    mret isValid.

Fixpoint validate_inputs (isValid : bool) (inputs : list nat) : js_m bool :=
  match inputs with
  | [] => mret isValid
  | input :: rest => isValid ← validate_input isValid input; validate_inputs isValid rest
  end.

(** [validateForm], script.js:15-30 *)
Definition validateForm (formId : string) : js_m bool :=
  form ← getElementById formId;
  form ← deref form;
  inputs ← querySelectorAll_in form input_required;
  validate_inputs true inputs.

(** The [DOMContentLoaded] listener, script.js:33-43 *)
Definition on_DOMContentLoaded : js_m () :=
  alerts ← querySelectorAll alert_class;
  forEach (fun alert => setTimeout (AlertFade alert) 5000) alerts.

(** The click listener of an anchor, script.js:47-56; [this] is the anchor. *)
Definition on_click (css : engine) (this : nat) : js_m () :=
  _ ← record PreventDefault;
  href ← read (fun w => getAttribute "href" (attributes (element_of w this)));
  target ← querySelector_dynamic css (default "null" href);
  match target with
  | Some target => record (ScrollIntoView target "smooth" "start")
  | None => mret ()
  end.

(** [showLoading], script.js:60-69 *)
Definition showLoading (button : nat) : js_m () :=
  originalText ← read (fun w => textContent (element_of w button));
  _ ← modify button (set_textContent "Loading...");
  _ ← modify button (set_disabled true);
  setTimeout (RestoreButton button originalText) 2000.

(** The submit listener of a form, script.js:73-78 *)
Definition on_submit (form : nat) : js_m () :=
  submitButton ← querySelector_in form submit_button;
  match submitButton with
  | Some submitButton => showLoading submitButton
  | None => mret ()
  end.

(** The closures passed to [setTimeout]: script.js:36-41, 38-40, 65-68. *)
Definition run_callback (cb : callback) : js_m () :=
  match cb with
  | AlertFade alert =>
      _ ← modify alert (set_opacity "0");
      setTimeout (AlertRemove alert) 300
  | AlertRemove alert => remove alert
  | RestoreButton button originalText =>
      _ ← modify button (set_textContent originalText);
      modify button (set_disabled false)
  end.

(** The script's top level, in source order: script.js:33, 46-57, 72-79. *)
Definition main : js_m () :=
  _ ← addEventListener OnDOMContentLoaded;
  anchors ← querySelectorAll anchor_hash;
  _ ← forEach (fun anchor => addEventListener (OnClick anchor)) anchors;
  forms ← querySelectorAll form_type;
  forEach (fun form => addEventListener (OnSubmit form)) forms.

(** ** The event loop

    After the page has loaded, things happen one at a time, each at a time
    not before the last: a pending timer runs its callback, never before it
    is due and possibly later; the user clicks a node of the document or
    submits a form of it; the page calls one of the script's global
    functions.  A click or submit event bubbles: it runs the listeners of
    its kind registered on its target, then those on the target's parent,
    and so on up to the root (the script registers no capturing listener
    and never stops propagation).  An exception thrown by a listener or a
    callback is reported by the browser and ends that listener or callback
    only. *)
Inductive event : Type :=
  | TimerFires (id : nat)
  | Click (target : nat)
  | Submit (form : nat)
  | CallShowRegister
  | CallShowLogin
  | CallValidateForm (formId : string)
  | CallShowLoading (button : nat).

Definition at_time (t : Z) (w : world) : world :=
  World (doc w) (heap w) (timers w) (next_timer w) t (listeners w) (log w).

Definition take_timer (id : nat) (w : world) : option (timer * world) :=
  match list_find (fun tm => tm_id tm = id) (timers w) with
  | Some (i, tm) =>
      Some (tm, World (doc w) (heap w) (delete i (timers w)) (next_timer w) (now w)
                  (listeners w) (log w))
  | None => None
  end.

(** The nodes from [n] up to the root of its tree, [n] first. *)
Fixpoint path_to (n : nat) (t : tree) : option (list nat) :=
  match t with
  | Node m ks =>
      if decide (m = n) then Some [m]
      else match (fix path_children (ks : list tree) : option (list nat) :=
                    match ks with
                    | [] => None
                    | k :: rest =>
                        match path_to n k with
                        | Some p => Some p
                        | None => path_children rest
                        end
                    end) ks with
           | Some p => Some (p ++ [m])
           | None => None
           end
  end.

Fixpoint path_forest (n : nat) (ks : list tree) : option (list nat) :=
  match ks with
  | [] => None
  | k :: rest =>
      match path_to n k with
      | Some p => Some p
      | None => path_forest n rest
      end
  end.

(** The path of an event on node [n]; there is none when [n] is not in
    the document. *)
Definition event_path (w : world) (n : nat) : option (list nat) := path_forest n (doc w).

(** The nodes whose listener [l] an event with this path runs, in the
    order it runs them: a node as many times as the listener is
    registered on it. *)
Definition bound (l : nat → listener) (ls : list listener) (path : list nat) : list nat :=
  n ← path; replicate (length (filter (fun l' => l' = l n) ls)) n.

(** The listeners run one after the other, each on the page the last one
    left, whether it returned or threw. *)
Definition dispatch (f : nat → js_m ()) (ns : list nat) (w : world) : world :=
  foldl (fun w n => (f n w).2) w ns.

Definition handle (css : engine) (ev : event) (t : Z) (w : world) : option world :=
  if t <? now w then None
  else
    match ev with
    | TimerFires id =>
        match take_timer id w with
        | Some (tm, w') =>
            if t <? tm_due tm then None
            else Some ((_ ← record (Fired (tm_callback tm) (tm_due tm) t);
                        run_callback (tm_callback tm)) (at_time t w')).2
        | None => None
        end
    | Click target =>
        match event_path w target with
        | Some path =>
            Some (dispatch (on_click css) (bound OnClick (listeners w) path) (at_time t w))
        | None => None
        end
    | Submit form =>
        match event_path w form with
        | Some path => Some (dispatch on_submit (bound OnSubmit (listeners w) path) (at_time t w))
        | None => None
        end
    | CallShowRegister => Some (showRegister (at_time t w)).2
    | CallShowLogin => Some (showLogin (at_time t w)).2
    | CallValidateForm formId => Some (validateForm formId (at_time t w)).2
    | CallShowLoading button => Some (showLoading button (at_time t w)).2
    end.

Fixpoint run (css : engine) (schedule : list (Z * event)) (w : world) : option world :=
  match schedule with
  | [] => Some w
  | (t, ev) :: rest =>
      match handle css ev t w with
      | Some w' => run css rest w'
      | None => None
      end
  end.

(** ** Vocabulary of the statements about the script *)

(** The nodes below [scope]. *)
Definition descendants (w : world) (scope : nat) : list nat :=
  match find_forest scope (doc w) with
  | Some t => (walk_forest true (children t)).*1
  | None => []
  end.

(** [i] is an [input] element below [form] that has the [required] attribute. *)
Definition required_input (w : world) (form i : nat) : Prop :=
  i ∈ descendants w form
  ∧ ∃ e, heap w !! i = Some e ∧ localName e = "input"
         ∧ is_Some (getAttribute "required" (attributes e)).

(** The value of input [i] is not empty after trimming. *)
Definition filled (w : world) (i : nat) : bool := negb (falsy (trim (value (element_of w i)))).

Definition is_alert_callback (cb : callback) : bool :=
  match cb with
  | AlertFade _ | AlertRemove _ => true
  | RestoreButton _ _ => false
  end.

(** The [DOMContentLoaded] listener has not run yet: no timer of its is
    pending or has run. *)
Definition before_load (w : world) : Prop :=
  (∀ tm, tm ∈ timers w → is_alert_callback (tm_callback tm) = false)
  ∧ (∀ cb due ran, Fired cb due ran ∈ log w → is_alert_callback cb = false).

(** How many pending timers hold callback [cb], and how many times it has run. *)
Definition pending (cb : callback) (w : world) : nat :=
  length (filter (fun tm => tm_callback tm = cb) (timers w)).

Definition fired_entry (cb : callback) (e : entry) : Prop :=
  match e with
  | Fired cb' _ _ => cb' = cb
  | _ => False
  end.

#[global] Instance fired_entry_dec cb e : Decision (fired_entry cb e).
Proof. destruct e; simpl; apply _. Defined.

Definition fired (cb : callback) (w : world) : nat :=
  length (filter (fired_entry cb) (log w)).

(** The anchors whose href starts with [#], and the forms, in document order. *)
Definition anchors (w : world) : list nat :=
  select (heap w) (fun e first => matches e first anchor_hash) (nodes w).

Definition forms (w : world) : list nat :=
  select (heap w) (fun e first => matches e first form_type) (nodes w).

(** The elements of class alert, in document order. *)
Definition alerts (w : world) : list nat :=
  select (heap w) (fun e first => matches e first alert_class) (nodes w).

(** [style.opacity] of the element object behind node [n], if there is one. *)
Definition opacity_of (w : world) (n : nat) : option string :=
  (fun e => opacity (el_style e)) <$> heap w !! n.

(** No element of the document has id [i], or class [c]. *)
Definition no_id (w : world) (i : string) : Prop :=
  Forall (fun n => el_id (element_of w n) ≠ Some i) (nodes w).*1.

Definition no_class (w : world) (c : string) : Prop :=
  Forall (fun n => c ∉ classList (element_of w n)) (nodes w).*1.

(** A page to try the script on:
    [body > (form#login > (input[required], input[required], button[type=submit]),
             a[href=#top], div.alert)],
    the first input holding blanks only and the second one a name. *)
Definition plain (name : string) : element := Element name None [] [] [] "" false (Style "" "" "").

Definition login_page : world :=
  World
    [ Node 0 [ Node 1 [ Node 2 []; Node 3 []; Node 4 [] ]; Node 5 []; Node 6 [] ] ]
    (list_to_map
       [ (0%nat, plain "body");
         (1%nat, Element "form" (Some "login") [] [] [] "" false (Style "" "" ""));
         (2%nat, Element "input" None [] [("required", "")] (js "  ") "" false (Style "" "" ""));
         (3%nat, Element "input" None [] [("required", "")] (js "bob") "" false (Style "" "" ""));
         (4%nat, Element "button" None [] [("type", "submit")] [] "Sign in" false
                   (Style "" "" ""));
         (5%nat, Element "a" None [] [("href", "#top")] [] "Top" false (Style "" "" ""));
         (6%nat, Element "div" None ["alert"] [] [] "Welcome" false (Style "" "" "")) ])
    [] 0 0 [] [].

(** The example page once the script has run on it and DOMContentLoaded
    has fired, and once both timers of its alert have run when due. *)
Definition loaded_page : world := (on_DOMContentLoaded (main login_page).2).2.

(** A selector engine for the example page: it knows [#] followed by a
    name, and takes anything else for no selector. *)
Definition hash_engine : engine := fun s d h =>
  match s with
  | String "#" name =>
      if decide (name = "") then Err SyntaxError
      else Ok (head (select h (fun e _ => bool_decide (el_id e = Some name)) (walk_forest true d)))
  | _ => Err SyntaxError
  end.

Definition dismissed_page : world :=
  default loaded_page (run hash_engine [(5000, TimerFires 0); (5300, TimerFires 1)] loaded_page).

(** No node occurs twice in the tree. *)
Definition well_formed (w : world) : Prop := NoDup (nodes w).*1.

(** showLoading has never been called on the page: no restore callback
    is pending or has run.  (In the browser an assignment to textContent
    replaces the children of the button, which the model leaves out: on a
    page where showLoading has been called, nothing is claimed of the
    document as a whole.) *)
Definition text_untouched (w : world) : Prop :=
  (∀ tm, tm ∈ timers w → is_alert_callback (tm_callback tm) = true)
  ∧ (∀ cb due ran, Fired cb due ran ∈ log w → is_alert_callback cb = true).

(** A page whose only anchor has the href [#]: [a[href^=#]] binds it,
    the document has no element that the href could name, and [#] alone
    is no selector. *)
Definition bare_hash_page : world :=
  World
    [ Node 0 [ Node 1 [] ] ]
    (list_to_map
       [ (0%nat, plain "body");
         (1%nat, Element "a" None [] [("href", "#")] [] "Top" false (Style "" "" "")) ])
    [] 0 0 [] [].

End Script.

Module SqlTheory.
Import Sql.

(** ** Traversals *)

Lemma fold_result_inv {E A B} (P : A → Prop) (f : A → B → result E A) l :
  (∀ a b a', P a → b ∈ l → f a b = Ok a' → P a') →
  ∀ a a', P a → fold_result f a l = Ok a' → P a'.
Proof.
  induction l as [|b l IH]; intros Hf a a' Ha; simpl.
  - by intros [= <-].
  - destruct (f a b) as [a1|e] eqn:Hab; simpl; [|done].
    apply IH; [|eapply Hf; eauto; left].
    intros a2 b2 a3 ? ?. apply Hf; [done|by right].
Qed.

Lemma fold_result_reject {E A B} (P : A → Prop) (f : A → B → result E A) l b :
  (∀ a b' a', P a → f a b' = Ok a' → P a') →
  (∀ a, P a → is_ok (f a b) = false) →
  b ∈ l →
  ∀ a, P a → is_ok (fold_result f a l) = false.
Proof.
  intros Hf Hb. induction l as [|b' l IH]; intros Hin a Ha.
  - by apply elem_of_nil in Hin.
  - simpl. destruct (f a b') as [a1|e] eqn:Hab; simpl; [|done].
    apply elem_of_cons in Hin as [->|Hin].
    + specialize (Hb a Ha). by rewrite Hab in Hb.
    + apply IH; [done|]. eapply Hf; eauto.
Qed.

(** ** Rows *)

Lemma build_row_cells now tname auto cols vals columns r :
  build_row now tname auto cols vals columns = Ok r →
  ∀ i c, columns !! i = Some c →
    build_cell now tname auto (given (col_name c) cols vals) c = Ok (cell i r).
Proof.
  revert r. induction columns as [|c0 cs IH]; intros r; simpl.
  - intros _ i c. by rewrite lookup_nil.
  - destruct (build_cell _ _ _ _ c0) as [v|e] eqn:Hc; simpl; [|done].
    destruct (build_row _ _ _ _ _ cs) as [r'|e] eqn:Hr; simpl; [|done].
    intros [= <-] [|i] c; simpl.
    + by intros [= <-].
    + intros Hi. exact (IH r' eq_refl i c Hi).
Qed.

Lemma store_not_null ty v w : store ty v = Some w → v ≠ VNull → w ≠ VNull.
Proof.
  intros Hs Hv. destruct v; [done|..]; destruct ty; cbn zeta beta iota delta [store] in Hs;
    repeat case_match; by simplify_eq.
Qed.

Lemma build_cell_not_null now tname auto g c w :
  build_cell now tname auto g c = Ok w → is_not_null c = true → w ≠ VNull.
Proof.
  unfold build_cell. intros H Hnn. rewrite Hnn in H.
  destruct (match g with Some _ => _ | None => _ end) as [v|e]; simpl in H; [|done].
  case_bool_decide; simpl in H; [done|].
  destruct (store _ v) eqn:Hs; [|done]. injection H as <-.
  by eapply store_not_null.
Qed.

Lemma check_unique_ok tname rows columns r :
  ∀ i0, check_unique tname rows i0 columns r = Ok () →
  ∀ j c, columns !! j = Some c → is_key c = true →
    cell (i0 + j) r = VNull ∨ cell (i0 + j) r ∉ column_at (i0 + j) rows.
Proof.
  induction columns as [|c0 cs IH]; intros i0 H j c; simpl in *.
  - by rewrite lookup_nil.
  - destruct (is_key c0 && _ && _) eqn:Hk; [done|].
    destruct j as [|j]; simpl.
    + intros [= <-] Hkey. rewrite Hkey, Nat.add_0_r in *. simpl in Hk.
      apply andb_false_iff in Hk as [Hk|Hk].
      * apply negb_false_iff, bool_decide_eq_true in Hk. by left.
      * apply bool_decide_eq_false in Hk. by right.
    + intros Hj Hkey. replace (i0 + S j)%nat with (S i0 + j)%nat by lia. by eapply IH.
Qed.

Lemma check_fks_ok db tname columns r fks :
  check_fks db tname columns r fks = Ok () →
  ∀ fk, fk ∈ fks → check_fk db tname columns r fk = Ok ().
Proof.
  induction fks as [|fk0 fks IH]; simpl; intros H fk Hin.
  - by apply elem_of_nil in Hin.
  - destruct (check_fk db tname columns r fk0) as [[]|e] eqn:H0; simpl in H; [|done].
    apply elem_of_cons in Hin as [->|Hin]; [done|by apply IH].
Qed.

Lemma insert_row_ok now db tname cols t vals t' :
  insert_row now db tname cols t vals = Ok t' →
  ∃ r, build_row now tname (t_auto t) cols vals (td_columns (t_def t)) = Ok r
       ∧ check_unique tname (t_rows t) 0 (td_columns (t_def t)) r = Ok ()
       ∧ check_fks db tname (td_columns (t_def t)) r (td_fkeys (t_def t)) = Ok ()
       ∧ t_def t' = t_def t ∧ t_rows t' = t_rows t ++ [r].
Proof.
  unfold insert_row. repeat case_match; try done.
  destruct (build_row _ _ _ _ _ _) as [r|] eqn:Hr; simpl; [|done].
  destruct (check_unique _ _ _ _ _) as [[]|] eqn:Hu; simpl; [|done].
  destruct (check_fks _ _ _ _ _) as [[]|] eqn:Hf; simpl; [|done].
  intros [= <-]. by exists r.
Qed.

Lemma column_at_snoc i rows r : column_at i (rows ++ [r]) = column_at i rows ++ [cell i r].
Proof. unfold column_at. by rewrite map_app. Qed.

Lemma NoDup_filter_snoc (l : list value) x :
  NoDup (filter (fun v => v ≠ VNull) l) →
  (x = VNull ∨ x ∉ l) →
  NoDup (filter (fun v => v ≠ VNull) (l ++ [x])).
Proof.
  intros Hl Hx. rewrite filter_app. apply NoDup_app. split; [done|]. split.
  - intros y Hy Hy'. apply list_elem_of_filter in Hy as [_ Hy], Hy' as [Hne Hy'].
    apply list_elem_of_singleton in Hy' as ->. by destruct Hx.
  - rewrite filter_cons. case_decide; [apply NoDup_singleton|apply NoDup_nil_2].
Qed.

(** ** Tables only grow *)

Definition extends (db db' : gmap string table) : Prop :=
  ∀ name t, db !! name = Some t →
    ∃ t', db' !! name = Some t' ∧ t_def t' = t_def t ∧ ∃ new, t_rows t' = t_rows t ++ new.

Lemma extends_refl db : extends db db.
Proof. intros name t Ht. exists t. repeat split; [done|]. exists []. by rewrite app_nil_r. Qed.

Lemma extends_trans db1 db2 db3 : extends db1 db2 → extends db2 db3 → extends db1 db3.
Proof.
  intros H12 H23 name t Ht.
  destruct (H12 _ _ Ht) as (t2 & Ht2 & Hd2 & new2 & Hr2).
  destruct (H23 _ _ Ht2) as (t3 & Ht3 & Hd3 & new3 & Hr3).
  exists t3. split; [done|]. split; [congruence|].
  exists (new2 ++ new3). by rewrite Hr3, Hr2, app_assoc.
Qed.

Lemma extends_col db db' tname c v : extends db db' → v ∈ col db tname c → v ∈ col db' tname c.
Proof.
  unfold col. intros Hext. destruct (db !! tname) as [t|] eqn:Ht; [|by intros ?%elem_of_nil].
  destruct (Hext _ _ Ht) as (t' & -> & Hd & new & Hr).
  unfold column_values. rewrite Hd. destruct (col_index _ _); [|done].
  unfold column_at. rewrite Hr, map_app. intros ?. apply elem_of_app. by left.
Qed.

Lemma fks_ok_extends db db' t : fks_ok db t → extends db db' → fks_ok db' t.
Proof.
  intros Hok Hext fk i r Hfk Hi Hr.
  destruct (Hok fk i r Hfk Hi Hr) as [?|?]; [by left|right]. by eapply extends_col.
Qed.

Lemma insert_rows_grow now db tname cols rows t t' :
  fold_result (insert_row now db tname cols) t rows = Ok t' →
  t_def t' = t_def t ∧ ∃ new, t_rows t' = t_rows t ++ new.
Proof.
  apply (fold_result_inv (fun t1 => t_def t1 = t_def t ∧ ∃ new, t_rows t1 = t_rows t ++ new)).
  - intros a b a' [Hd [new Hr]] _ (r & _ & _ & _ & Hd' & Hr')%insert_row_ok.
    split; [congruence|]. exists (new ++ [r]). by rewrite Hr', Hr, app_assoc.
  - split; [done|]. exists []. by rewrite app_nil_r.
Qed.

Lemma exec_extends now s db db' : exec now s db = Ok db' → extends db db'.
Proof.
  destruct s as [name def|name cols rows]; simpl.
  - destruct (db !! name) eqn:Hn; [intros [= <-]; apply extends_refl|].
    unfold create_table. repeat case_match; try done. intros [= <-] name' t Ht.
    exists t. rewrite lookup_insert_ne by congruence.
    repeat split; [done|]. exists []. by rewrite app_nil_r.
  - destruct (db !! name) as [t|] eqn:Hn; [|done].
    destruct (fold_result _ t rows) as [t'|] eqn:Hf; simpl; [|done].
    intros [= <-] name' t0 Ht0. destruct (decide (name = name')) as [<-|Hne].
    + rewrite lookup_insert_eq. exists t'. split; [done|].
      assert (t0 = t) as -> by congruence. by eapply insert_rows_grow.
    + rewrite lookup_insert_ne by done. exists t0.
      repeat split; [done|]. exists []. by rewrite app_nil_r.
Qed.

Lemma rtc_step_extends db db' : rtc step db db' → extends db db'.
Proof.
  induction 1 as [|db1 db2 db3 (now & s & Hs) _ IH]; [apply extends_refl|].
  eapply extends_trans; [by eapply exec_extends|done].
Qed.

(** ** The constraints hold in every state *)

Lemma insert_row_table_ok now db tname cols t vals t' :
  table_ok t → insert_row now db tname cols t vals = Ok t' → table_ok t'.
Proof.
  intros Hok (r & Hb & Hu & _ & Hd & Hr)%insert_row_ok i c Hc.
  rewrite Hd in Hc. rewrite Hr, column_at_snoc. destruct (Hok i c Hc) as [Hkey Hnn]. split.
  - intros Hk. apply NoDup_filter_snoc; [by apply Hkey|].
    by apply (check_unique_ok _ _ _ _ 0%nat Hu i c Hc Hk).
  - intros Hn. rewrite elem_of_app, list_elem_of_singleton. intros [?|Heq]; [by apply Hnn|].
    pose proof (build_row_cells _ _ _ _ _ _ _ Hb i c Hc) as Hcell.
    by apply (build_cell_not_null _ _ _ _ _ _ Hcell Hn).
Qed.

Lemma check_fk_ok db tname columns r fk i :
  check_fk db tname columns r fk = Ok () →
  col_index (fk_column fk) columns = Some i →
  cell i r = VNull ∨ cell i r ∈ col db (fk_table fk) (fk_ref fk).
Proof.
  unfold check_fk, col. intros H Hi. rewrite Hi in H.
  case_bool_decide; [by left|right].
  destruct (db !! fk_table fk); [|done]. by case_bool_decide.
Qed.

Lemma insert_row_fks_ok now db tname cols t vals t' :
  fks_ok db t → insert_row now db tname cols t vals = Ok t' → fks_ok db t'.
Proof.
  intros Hok (r & _ & _ & Hf & Hd & Hr)%insert_row_ok fk i r' Hfk Hi Hin.
  rewrite Hd in Hfk, Hi. rewrite Hr in Hin. apply elem_of_app in Hin as [Hin|Hin].
  - by eapply Hok.
  - apply list_elem_of_singleton in Hin as ->.
    eapply check_fk_ok; [|done]. by eapply check_fks_ok.
Qed.

Lemma exec_db_ok now s db db' : db_ok db → exec now s db = Ok db' → db_ok db'.
Proof.
  intros Hok Hex. pose proof (exec_extends _ _ _ _ Hex) as Hext.
  destruct s as [name def|name cols rows]; simpl in Hex.
  - destruct (db !! name) eqn:Hn; [by injection Hex as <-|].
    unfold create_table in Hex. repeat case_match; try done. injection Hex as <-.
    intros name' t. destruct (decide (name = name')) as [<-|Hne].
    + rewrite lookup_insert_eq. intros [= <-]. split.
      * intros i c _. simpl. split; intros _; [apply NoDup_nil_2|by intros ?%elem_of_nil].
      * intros fk i r _ _ Hr. by apply elem_of_nil in Hr.
    + rewrite lookup_insert_ne by done. intros Ht. destruct (Hok _ _ Ht) as [? ?].
      split; [done|]. by eapply fks_ok_extends.
  - destruct (db !! name) as [t|] eqn:Hn; [|done].
    destruct (fold_result _ t rows) as [t'|] eqn:Hf; simpl in Hex; [|done].
    injection Hex as <-. intros name' t0. destruct (decide (name = name')) as [<-|Hne].
    + rewrite lookup_insert_eq. intros [= <-]. destruct (Hok _ _ Hn) as [Ht Hfk].
      assert (table_ok t' ∧ fks_ok db t') as [? ?].
      { revert Hf. apply (fold_result_inv (fun t1 => table_ok t1 ∧ fks_ok db t1)); [|done].
        intros a b a' [? ?] _ Hi. split;
          [by eapply insert_row_table_ok|by eapply insert_row_fks_ok]. }
      split; [done|]. by eapply fks_ok_extends.
    + rewrite lookup_insert_ne by done. intros Ht. destruct (Hok _ _ Ht) as [? ?].
      split; [done|]. by eapply fks_ok_extends.
Qed.

Lemma db_ok_empty : db_ok ∅.
Proof. intros name t. by rewrite lookup_empty. Qed.

Lemma run_from_db_ok now script : ∀ i db, db_ok db → db_ok (run_from now i script db).1.
Proof.
  induction script as [|s rest IH]; intros i db Hok; simpl; [done|].
  destruct (exec now s db) eqn:He; [|done]. apply IH. by eapply exec_db_ok.
Qed.

Lemma reachable_db_ok db : reachable db → db_ok db.
Proof.
  intros [now Hr].
  assert (db_ok (fresh now)) as H0 by apply run_from_db_ok, db_ok_empty.
  induction Hr as [|db1 db2 db3 (now' & s & Hs) _ IH]; [done|].
  apply IH. by eapply exec_db_ok.
Qed.

(** ** The schema script *)

Definition only_creates (script : list stmt) : Prop :=
  Forall (fun s => match s with CreateTableIfNotExists _ _ => True | InsertInto _ _ _ => False end)
    script.

Lemma run_from_extends now script :
  ∀ i db db', run_from now i script db = (db', None) →
    extends db db' ∧ ∀ name, name ∈ table_names script → is_Some (db' !! name).
Proof.
  induction script as [|s rest IH]; intros i db db'; simpl.
  - intros [= <-]. split; [apply extends_refl|]. by intros name ?%elem_of_nil.
  - destruct (exec now s db) as [db1|] eqn:He; [|done]. intros Hrun.
    destruct (IH _ _ _ Hrun) as [Hext Hnames].
    pose proof (exec_extends _ _ _ _ He) as Hext1.
    split; [by eapply extends_trans|]. intros name.
    destruct s as [n def|n cols rows]; simpl; [|by apply Hnames].
    intros [->|Hin]%elem_of_cons; [|by apply Hnames].
    assert (is_Some (db1 !! n)) as [t1 Ht1].
    { simpl in He. destruct (db !! n) eqn:Hn; [injection He as <-; by rewrite Hn|].
      unfold create_table in He. repeat case_match; try done. injection He as <-.
      by rewrite lookup_insert_eq. }
    destruct (Hext _ _ Ht1) as (t' & -> & _). done.
Qed.

Lemma run_from_existing now script :
  only_creates script →
  ∀ i db, (∀ name, name ∈ table_names script → is_Some (db !! name)) →
    run_from now i script db = (db, None).
Proof.
  induction 1 as [|s rest Hs _ IH]; intros i db Hdb; simpl; [done|].
  destruct s as [n def|]; [|done]. simpl in *.
  destruct (Hdb n) as [t ->]; [by left|]. apply IH. intros name ?. apply Hdb. by right.
Qed.

Lemma schema_only_creates : only_creates schema_script.
Proof. repeat constructor. Qed.

(** C2 as stated counts eight tables; the script creates nine, all named
    differently, and the database it leaves holds nine. *)
Lemma schema_script_creates_nine_tables :
  length (table_names schema_script) = 9%nat
  ∧ NoDup (table_names schema_script)
  ∧ size (fresh 0) = 9%nat.
Proof.
  split; [done|]. split; [|by vm_compute].
  apply (bool_decide_unpack _). by vm_compute.
Qed.

(** C2 (amended): the schema script creates nine tables, each guarded by
    IF NOT EXISTS.  Once it has run without error, running it again, at
    once or after any further successful statements, raises no error and
    leaves the whole database (every table, its rows and its key counter)
    as it was. *)
Theorem schema_script_idempotent now now' db db' :
  run_script now schema_script db = (db', None) →
  length (table_names schema_script) = 9%nat
  ∧ ∀ db'', rtc step db' db'' → run_script now' schema_script db'' = (db'', None).
Proof.
  intros Hrun. split; [done|]. intros db'' Hsteps.
  apply run_from_existing; [apply schema_only_creates|]. intros name Hname.
  destruct (run_from_extends _ _ _ _ _ Hrun) as [_ Hnames].
  destruct (Hnames name Hname) as [t Ht].
  destruct (rtc_step_extends _ _ Hsteps _ _ Ht) as (t' & -> & _). done.
Qed.

Lemma run_script_no_error now script db :
  (run_script now script db).2 = None →
  run_script now script db = ((run_script now script db).1, None).
Proof. destruct (run_script now script db) as [db' o]. simpl. by intros ->. Qed.

Lemma schema_script_idempotent_witness :
  run_script 0 schema_script ∅ = (fresh 0, None)
  ∧ run_script 1 schema_script (fresh 0) = (fresh 0, None).
Proof.
  assert (run_script 0 schema_script ∅ = (fresh 0, None)) as H.
  { apply run_script_no_error. vm_compute. reflexivity. }
  split; [exact H|].
  exact (proj2 (schema_script_idempotent 0 1 ∅ (fresh 0) H) (fresh 0) (rtc_refl _ _)).
Defined.

(** ** The seed script *)

(** C3: schema then seed, once, on an empty database: no statement fails,
    registration holds 2 rows and course 7, and every foreign-key value of
    the seed rows is the key of a row inserted before it. *)
Theorem seed_script_once now :
  (run_script now schema_script ∅).2 = None
  ∧ (run_script now seed_script (fresh now)).2 = None
  ∧ (run_script now (schema_script ++ seed_script) ∅).2 = None
  ∧ row_count (seeded now) "registration" = 2%nat
  ∧ row_count (seeded now) "course" = 7%nat
  ∧ col (seeded now) "registration" "id" = [VInt 1; VInt 2]
  ∧ col (seeded now) "admission" "registration_id" = [VInt 2]
  ∧ col (seeded now) "admission" "admission_id" = [VInt 1]
  ∧ col (seeded now) "student" "admission_id" = [VInt 1]
  ∧ col (seeded now) "fee" "admission_id" = [VInt 1]
  ∧ col (seeded now) "student" "student_id" = [VInt 1]
  ∧ col (seeded now) "result" "student_id" = [VInt 1]
  ∧ col (seeded now) "result" "exam_id" = [VInt 1]
  ∧ col (seeded now) "exam" "exam_id" = VInt <$> [1; 2; 3; 4; 5; 6; 7]
  ∧ db_ok (seeded now).
Proof.
  do 14 (split; [vm_compute; reflexivity|]).
  apply run_from_db_ok, run_from_db_ok, db_ok_empty.
Qed.

(** C4 as stated names registration.username; the rerun stops at its
    first statement, on course.course_code. *)
Lemma seed_script_rerun_fails_on_course_code :
  (run_script 1 seed_script (seeded 0)).2 = Some (0%nat, DuplicateEntry "course" "course_code").
Proof. by vm_compute. Qed.

(** In a client that goes on past errors the rerun fails on three
    statements (course.course_code, registration.username,
    admission.aadhar_no) and the other four insert their rows again. *)
Lemma seed_script_rerun_continuing :
  (run_all 1 seed_script (seeded 0)).2
  = [ (0%nat, DuplicateEntry "course" "course_code");
      (2%nat, DuplicateEntry "registration" "username");
      (3%nat, DuplicateEntry "admission" "aadhar_no") ]
  ∧ (row_count (run_all 1 seed_script (seeded 0)).1)
      <$> ["course"; "exam"; "registration"; "admission"; "student"; "result"; "fee"]
    = [7; 14; 2; 1; 2; 2; 2]%nat.
Proof. split; vm_compute; reflexivity. Qed.

(** C4 (amended): rerunning the seed script on the database it has seeded
    is rejected at its first statement, the insert into course, with a
    unique-constraint violation on course.course_code; the script stops
    there and the database is left as it was, no row duplicated.  The
    insert into registration is not reached; issued on its own it is
    rejected on registration.username. *)
Theorem seed_script_rerun now now' :
  run_script now' seed_script (seeded now)
    = (seeded now, Some (0%nat, DuplicateEntry "course" "course_code"))
  ∧ exec now' insert_registrations (seeded now) = Err (DuplicateEntry "registration" "username").
Proof.
  assert (exec now' insert_courses (seeded now) = Err (DuplicateEntry "course" "course_code"))
    as H by (by vm_compute).
  split; [|by vm_compute].
  unfold run_script, seed_script, run_from. by rewrite H.
Qed.

(** ** Reachable states *)

Lemma run_from_rtc now script : ∀ i db, rtc step db (run_from now i script db).1.
Proof.
  induction script as [|s rest IH]; intros i db; simpl; [done|].
  destruct (exec now s db) as [db'|] eqn:He; [|done].
  eapply rtc_l; [by exists now, s|apply IH].
Qed.

Lemma seeded_reachable now : reachable (seeded now).
Proof. exists now. apply run_from_rtc. Qed.

Lemma fresh_reachable now : reachable (fresh now).
Proof. by exists now. Qed.

Lemma reachable_table db tname def :
  reachable db → (∀ now, t_def <$> fresh now !! tname = Some def) →
  ∃ t, db !! tname = Some t ∧ t_def t = def.
Proof.
  intros [now Hr] Hdef. specialize (Hdef now).
  destruct (fresh now !! tname) as [t0|] eqn:H0; [|done]. injection Hdef as Hdef.
  destruct (rtc_step_extends _ _ Hr _ _ H0) as (t & Ht & Hd & _).
  exists t. split; [done|congruence].
Qed.

Lemma apply_rejected now s db : is_ok (exec now s db) = false → apply now s db = db.
Proof. unfold apply, run_script. simpl. by destruct (exec now s db). Qed.

Lemma fold_result_app {E A B} (f : A → B → result E A) l1 l2 :
  ∀ a, fold_result f a (l1 ++ l2) = (a' ← fold_result f a l1; fold_result f a' l2).
Proof.
  induction l1 as [|b l1 IH]; intros a; simpl; [done|].
  destruct (f a b) as [a1|e]; simpl; [apply IH|done].
Qed.

Lemma exec_insert_rejected now db tname cols rows t :
  db !! tname = Some t →
  is_ok (fold_result (insert_row now db tname cols) t rows) = false →
  is_ok (exec now (InsertInto tname cols rows) db) = false
  ∧ apply now (InsertInto tname cols rows) db = db.
Proof.
  intros Ht Hf.
  assert (is_ok (exec now (InsertInto tname cols rows) db) = false) as H.
  { simpl. rewrite Ht. by destruct (fold_result _ t rows). }
  split; [done|by apply apply_rejected].
Qed.

Lemma insert_rejected now db tname cols rows t r (P : table → Prop) :
  db !! tname = Some t → r ∈ rows → P t →
  (∀ t1 vals t2, P t1 → insert_row now db tname cols t1 vals = Ok t2 → P t2) →
  (∀ t1 t2, P t1 → insert_row now db tname cols t1 r = Ok t2 → False) →
  is_ok (exec now (InsertInto tname cols rows) db) = false
  ∧ apply now (InsertInto tname cols rows) db = db.
Proof.
  intros Ht Hr HP Hpres Hrej. apply (exec_insert_rejected _ _ _ _ _ t Ht).
  apply (fold_result_reject P _ _ r); [eauto| |done|done].
  intros t1 H1. destruct (insert_row _ _ _ _ t1 r) eqn:Hi; [|done].
  exfalso. eauto.
Qed.

(** ** Unique columns *)

Lemma filter_not_null (l : list value) : VNull ∉ l → filter (fun v => v ≠ VNull) l = l.
Proof.
  induction l as [|x l IH]; [done|]. rewrite not_elem_of_cons. intros [? ?].
  rewrite filter_cons. case_decide; [|congruence]. by rewrite IH.
Qed.

Lemma build_cell_varchar now tname auto c n v w :
  is_auto c = false → is_not_null c = true → col_type c = VARCHAR n →
  build_cell now tname auto (Some v) c = Ok w → w = v ∧ v ≠ VNull.
Proof.
  unfold build_cell. intros -> -> ->. simpl. case_bool_decide; [intros [=]|].
  destruct v; simpl; repeat case_match; intros ?; by simplify_eq.
Qed.

Lemma unique_column db tname def i c n :
  reachable db → (∀ now, t_def <$> fresh now !! tname = Some def) →
  td_columns def !! i = Some c → col_index (col_name c) (td_columns def) = Some i →
  is_key c = true → is_auto c = false → is_not_null c = true → col_type c = VARCHAR n →
  distinct_column db tname (col_name c) ∧ rejects_duplicates db tname (col_name c).
Proof.
  intros Hr Hdef Hc Hi Hkey Hauto Hnn Hty.
  destruct (reachable_table _ _ _ Hr Hdef) as (t & Ht & Hd).
  assert (col db tname (col_name c) = column_at i (t_rows t)) as Hcol.
  { unfold col, column_values. by rewrite Ht, Hd, Hi. }
  unfold distinct_column, rejects_duplicates. rewrite Hcol. split.
  - destruct (reachable_db_ok _ Hr _ _ Ht) as [Hok _].
    rewrite <- Hd in Hc. destruct (Hok i c Hc) as [H1 H2].
    rewrite <- (filter_not_null (column_at i (t_rows t))); auto.
  - assert (∀ now cols v t1 vals t2,
              t_def t1 = def ∧ v ∈ column_at i (t_rows t1) →
              insert_row now db tname cols t1 vals = Ok t2 →
              t_def t2 = def ∧ v ∈ column_at i (t_rows t2)) as Hkeep.
    { intros now cols v t1 vals t2 [Hd1 Hv1] (r' & _ & _ & _ & Hd2 & Hr2)%insert_row_ok.
      split; [congruence|]. rewrite Hr2, column_at_snoc. apply elem_of_app. by left. }
    assert (∀ now cols v t1 r t2,
              t_def t1 = def → given (col_name c) cols r = Some v →
              insert_row now db tname cols t1 r = Ok t2 →
              (v ∉ column_at i (t_rows t1)) ∧ v ∈ column_at i (t_rows t2)) as Hins.
    { intros now cols v t1 r t2 Hd1 Hgiven (r' & Hb & Hu & _ & _ & Hr2)%insert_row_ok.
      rewrite Hd1 in Hb, Hu.
      pose proof (build_row_cells _ _ _ _ _ _ _ Hb i c Hc) as Hcell. rewrite Hgiven in Hcell.
      destruct (build_cell_varchar _ _ _ _ _ _ _ Hauto Hnn Hty Hcell) as [Hw Hvn].
      split.
      - destruct (check_unique_ok _ _ _ _ 0%nat Hu i c Hc Hkey) as [Hu'|Hu']; simpl in Hu';
          rewrite Hw in Hu'; done.
      - rewrite Hr2, column_at_snoc, Hw. apply elem_of_app. right. by left. }
    intros now cols rows [(r & v & Hin & Hgiven & Hv)|
                          (l1 & r1 & l2 & r2 & l3 & v & -> & Hg1 & Hg2)].
    + rewrite Hcol in Hv.
      apply (insert_rejected _ _ _ _ _ t r
               (fun t1 => t_def t1 = def ∧ v ∈ column_at i (t_rows t1))); [done..| |].
      * intros t1 vals t2. apply Hkeep.
      * intros t1 t2 [Hd1 Hv1] Hi1. by destruct (Hins _ _ _ _ _ _ Hd1 Hgiven Hi1).
    + apply (exec_insert_rejected _ _ _ _ _ t Ht).
      rewrite (fold_result_app _ l1 (r1 :: l2 ++ r2 :: l3)).
      destruct (fold_result _ t l1) as [t0|] eqn:H0; simpl; [|done].
      destruct (insert_row now db tname cols t0 r1) as [t1|] eqn:H1; simpl; [|done].
      assert (t_def t0 = def) as Hd0.
      { destruct (insert_rows_grow _ _ _ _ _ _ _ H0) as [? _]. congruence. }
      destruct (Hins _ _ _ _ _ _ Hd0 Hg1 H1) as [_ Hv1].
      assert (t_def t1 = def) as Hd1.
      { apply insert_row_ok in H1 as (? & _ & _ & _ & ? & _). congruence. }
      apply (fold_result_reject (fun t2 => t_def t2 = def ∧ v ∈ column_at i (t_rows t2)) _ _ r2).
      * intros a b a'. apply Hkeep.
      * intros t2 [Hd2 Hv2]. destruct (insert_row _ _ _ _ t2 r2) eqn:H2; [|done].
        by destruct (Hins _ _ _ _ _ _ Hd2 Hg2 H2).
      * apply elem_of_app. right. by left.
      * done.
Qed.

Lemma fresh_registration now : t_def <$> fresh now !! "registration" = Some registration_def.
Proof. vm_compute. reflexivity. Qed.

Lemma fresh_admission now : t_def <$> fresh now !! "admission" = Some admission_def.
Proof. vm_compute. reflexivity. Qed.

Lemma fresh_student now : t_def <$> fresh now !! "student" = Some student_def.
Proof. vm_compute. reflexivity. Qed.

(** C5: in every reachable state the values of admission.aadhar_no, of
    registration.username and of registration.email_id are pairwise
    distinct, and an insert that would duplicate a value of such a column
    (one of its rows repeats a value the column holds, or two of its rows
    give the same value) is rejected and leaves the database as it was. *)
Theorem unique_columns_enforced db :
  reachable db →
  (distinct_column db "admission" "aadhar_no" ∧ rejects_duplicates db "admission" "aadhar_no")
  ∧ (distinct_column db "registration" "username"
     ∧ rejects_duplicates db "registration" "username")
  ∧ (distinct_column db "registration" "email_id"
     ∧ rejects_duplicates db "registration" "email_id").
Proof.
  intros Hr. split; [|split].
  - by apply (unique_column db "admission" admission_def 9
                (Col "aadhar_no" (VARCHAR 12) [Unique; NotNull]) 12 Hr fresh_admission).
  - by apply (unique_column db "registration" registration_def 1
                (Col "username" (VARCHAR 50) [Unique; NotNull]) 50 Hr fresh_registration).
  - by apply (unique_column db "registration" registration_def 3
                (Col "email_id" (VARCHAR 100) [Unique; NotNull]) 100 Hr fresh_registration).
Qed.

Lemma unique_columns_enforced_witness :
  distinct_column (seeded 0) "registration" "username"
  ∧ is_ok (exec 1 (InsertInto "registration" ["username"; "password"; "email_id"; "mobile_no"]
                     [[VStr "student1"; VStr "x"; VStr "other@skylink.edu"; VStr "1"]])
             (seeded 0)) = false.
Proof.
  destruct (unique_columns_enforced (seeded 0) (seeded_reachable 0))
    as (_ & [Hd Hrej] & _).
  split; [exact Hd|].
  assert (duplicating (seeded 0) "registration" "username"
            ["username"; "password"; "email_id"; "mobile_no"]
            [[VStr "student1"; VStr "x"; VStr "other@skylink.edu"; VStr "1"]]) as Hdup.
  { left. eexists _, (VStr "student1"). split; [by apply list_elem_of_singleton|].
    split; [reflexivity|]. apply (bool_decide_unpack _). vm_compute. reflexivity. }
  exact (proj1 (Hrej 1 _ _ Hdup)).
Defined.

(** ** Students and admissions *)

Definition insert_orphan_student : stmt :=
  InsertInto "student" ["student_name"; "course_name"]
    [ [VStr "Jane Roe"; VStr "Data Science"] ].

(** C9 as stated fails: on the fresh schema, with no admission at all, a
    student row that leaves admission_id out is accepted. *)
Lemma student_without_admission :
  is_ok (exec 0 insert_orphan_student (fresh 0)) = true
  ∧ col (apply 0 insert_orphan_student (fresh 0)) "student" "admission_id" = [VNull]
  ∧ col (apply 0 insert_orphan_student (fresh 0)) "student" "student_name" = [VStr "Jane Roe"]
  ∧ col (apply 0 insert_orphan_student (fresh 0)) "admission" "admission_id" = [].
Proof. repeat split; vm_compute; reflexivity. Qed.

Lemma build_cell_admission_id now tname auto v w :
  build_cell now tname auto (Some v) (Col "admission_id" INT []) = Ok w → v ≠ VNull → w = v.
Proof.
  unfold build_cell. simpl. destruct v; simpl; repeat case_match; intros ? ?; by simplify_eq.
Qed.

(** C9 (amended): student.admission_id may be NULL.  In every reachable
    state each student row whose admission_id is not NULL has the key of an
    existing admission row there, and an insert of a student row that gives
    as admission_id an integer which no admission row has for key is
    rejected and leaves the database as it was. *)
Theorem student_admission_reference db :
  reachable db →
  (∀ v, v ∈ col db "student" "admission_id" →
        v = VNull ∨ v ∈ col db "admission" "admission_id")
  ∧ rejects_dangling db "student" "admission_id" "admission" "admission_id".
Proof.
  intros Hr. destruct (reachable_table _ _ _ Hr fresh_student) as (t & Ht & Hd).
  pose (fk := ForeignKey "admission_id" "admission" "admission_id").
  split.
  - unfold col at 1. rewrite Ht. unfold column_values. rewrite Hd. simpl.
    unfold column_at. intros v (r & -> & Hin)%list_elem_of_fmap.
    destruct (reachable_db_ok _ Hr _ _ Ht) as [_ Hfk].
    apply (Hfk fk 1%nat r); [rewrite Hd; by left|by rewrite Hd|done].
  - intros now cols rows r z Hin Hgiven Hv.
    apply (insert_rejected _ _ _ _ _ t r (fun t1 => t_def t1 = student_def)); [done..| |].
    + intros t1 vals t2 Hd1 (r' & _ & _ & _ & Hd2 & _)%insert_row_ok. congruence.
    + intros t1 t2 Hd1 (r' & Hb & _ & Hf & _)%insert_row_ok. rewrite Hd1 in Hb, Hf.
      pose proof (build_row_cells _ _ _ _ _ _ _ Hb 1%nat _ eq_refl) as Hcell.
      simpl in Hcell. rewrite Hgiven in Hcell.
      apply build_cell_admission_id in Hcell; [|done].
      pose proof (check_fks_ok _ _ _ _ _ Hf fk) as Hfk.
      destruct (check_fk_ok _ _ _ _ fk 1%nat (Hfk ltac:(by left)) eq_refl) as [H1|H1];
        simpl in H1; rewrite Hcell in H1; done.
Qed.

Lemma student_admission_reference_witness :
  (VInt 1 = VNull ∨ VInt 1 ∈ col (seeded 0) "admission" "admission_id")
  ∧ is_ok (exec 1 (InsertInto "student" ["admission_id"; "student_name"; "course_name"]
                     [[VInt 7; VStr "Jane Roe"; VStr "Data Science"]])
             (seeded 0)) = false.
Proof.
  destruct (student_admission_reference (seeded 0) (seeded_reachable 0)) as [Hin Hrej].
  split.
  - apply Hin. apply (bool_decide_unpack _). vm_compute. reflexivity.
  - refine (proj1 (Hrej 1 _ _ [VInt 7; VStr "Jane Roe"; VStr "Data Science"] 7 _ _ _)).
    + apply list_elem_of_singleton. reflexivity.
    + reflexivity.
    + apply (bool_decide_unpack _). vm_compute. reflexivity.
Defined.

End SqlTheory.

Module ScriptTheory.
Import Script.

(** ** Trees *)

Lemma tree_ind (P : tree → Prop) :
  (∀ n ks, Forall P ks → P (Node n ks)) → ∀ t, P t.
Proof.
  intros H. fix IH 1. intros [n ks]. apply H.
  induction ks as [|k ks IHks]; constructor; [apply IH|exact IHks].
Qed.

Lemma walk_node first n ks : walk first (Node n ks) = (n, first) :: walk_forest true ks.
Proof. reflexivity. Qed.

Lemma prune_node n m ks : prune n (Node m ks) = Node m (prune_forest n ks).
Proof.
  simpl. f_equal. induction ks as [|k ks IH]; simpl; [done|]. by rewrite IH.
Qed.

Lemma walk_forest_ids first first' ks : (walk_forest first ks).*1 = (walk_forest first' ks).*1.
Proof.
  destruct ks as [|[n ks'] ks]; [done|].
  cbn [walk_forest]. rewrite !fmap_app. f_equal.
Qed.

Definition prune_ok (n : nat) (t : tree) : Prop :=
  node_id t ≠ n → ∀ first m, m ∈ (walk first (prune n t)).*1 → m ≠ n ∧ m ∈ (walk first t).*1.

Lemma prune_forest_ids_aux n ks :
  Forall (prune_ok n) ks →
  ∀ first m, m ∈ (walk_forest first (prune_forest n ks)).*1 →
    m ≠ n ∧ m ∈ (walk_forest first ks).*1.
Proof.
  induction 1 as [|k ks Hk _ IH]; intros first m; simpl.
  - by intros ?%elem_of_nil.
  - case_decide as Hn.
    + intros [? ?]%IH. split; [done|]. rewrite fmap_app, elem_of_app. right.
      by rewrite (walk_forest_ids false first).
    + simpl. rewrite !fmap_app, !elem_of_app. intros [Hm|Hm].
      * apply (Hk Hn) in Hm as [? ?]. split; [done|by left].
      * apply IH in Hm as [? ?]. split; [done|by right].
Qed.

Lemma prune_tree_ids n t : prune_ok n t.
Proof.
  induction t as [n' ks IH] using tree_ind. intros Hn first m. simpl in Hn.
  rewrite prune_node, !walk_node. simpl. rewrite !elem_of_cons.
  intros [->|Hm]; [split; [done|by left]|].
  apply prune_forest_ids_aux in Hm as [? ?]; [|done]. split; [done|by right].
Qed.

(** After [remove], the node is in the document no more, and no node has
    come into it. *)
Lemma prune_forest_ids n ks first m :
  m ∈ (walk_forest first (prune_forest n ks)).*1 → m ≠ n ∧ m ∈ (walk_forest first ks).*1.
Proof. apply prune_forest_ids_aux, Forall_forall. intros t _. apply prune_tree_ids. Qed.

(** ** Sequencing *)

Lemma bind_ok {A B} (m : js_m A) (k : A → js_m B) w a w' :
  m w = (Ok a, w') → (m ≫= k) w = k a w'.
Proof. unfold mbind, js_bind. by intros ->. Qed.

Lemma bind_err {A B} (m : js_m A) (k : A → js_m B) w e w' :
  m w = (Err e, w') → (m ≫= k) w = (Err e, w').
Proof. unfold mbind, js_bind. by intros ->. Qed.

Lemma bind_write {B} (f : world → world) (k : () → js_m B) w :
  (write f ≫= k) w = k () (f w).
Proof. reflexivity. Qed.

Lemma bind_read {A B} (f : world → A) (k : A → js_m B) w : (read f ≫= k) w = k (f w) w.
Proof. reflexivity. Qed.

Lemma bind_addEventListener {B} l (k : () → js_m B) w :
  (addEventListener l ≫= k) w = k () (with_listeners [l] w).
Proof. reflexivity. Qed.

Lemma bind_querySelectorAll {B} sel (k : list nat → js_m B) w :
  (querySelectorAll sel ≫= k) w
  = k (select (heap w) (fun e first => matches e first sel) (nodes w)) w.
Proof. reflexivity. Qed.

(** ** Queries *)

Lemma elem_of_select h p ns i :
  i ∈ select h p ns ↔ ∃ first e, (i, first) ∈ ns ∧ h !! i = Some e ∧ p e first = true.
Proof.
  unfold select. rewrite list_elem_of_omap. split.
  - intros ([n first] & Hin & H). destruct (h !! n) as [e|] eqn:He; [|done].
    destruct (p e first) eqn:Hp; [|done]. injection H as ->. by exists first, e.
  - intros (first & e & Hin & He & Hp). exists (i, first). split; [done|]. by rewrite He, Hp.
Qed.

Lemma select_nil h p ns :
  (∀ i first e, (i, first) ∈ ns → h !! i = Some e → p e first = false) →
  select h p ns = [].
Proof.
  intros H. destruct (select h p ns) as [|i l] eqn:Hs; [done|].
  assert (i ∈ select h p ns) as (first & e & Hin & He & Hp)%elem_of_select
    by (rewrite Hs; left).
  by rewrite (H _ _ _ Hin He) in Hp.
Qed.

Lemma querySelectorAll_in_required w form :
  ∃ inputs, querySelectorAll_in form input_required w = (Ok inputs, w)
            ∧ ∀ i, i ∈ inputs ↔ required_input w form i.
Proof.
  eexists. split; [reflexivity|]. intros i. unfold required_input, descendants.
  destruct (find_forest form (doc w)) as [t|].
  - rewrite elem_of_select. split.
    + intros (first & e & Hin & He & Hm). split.
      * apply list_elem_of_fmap. by exists (i, first).
      * exists e. split; [done|]. simpl in Hm.
        apply andb_prop in Hm as [H1 H2]. apply andb_prop in H2 as [H2 _].
        by apply bool_decide_eq_true in H1, H2.
    + intros [([i' first] & -> & Hin)%list_elem_of_fmap (e & He & Hn & Hr)].
      exists first, e. repeat split; [done..|]. simpl.
      by rewrite !bool_decide_eq_true_2.
  - split; [by intros ?%elem_of_nil|by intros [?%elem_of_nil _]].
Qed.

(** ** validateForm *)

Lemma trimStart_empty s : trimStart s = [] ↔ forallb is_white_space s = true.
Proof.
  induction s as [|c s IH]; simpl; [done|].
  destruct (is_white_space c); simpl; [done|]. split; intros; done.
Qed.

Lemma trimStart_snoc s c : is_white_space c = false → trimStart (s ++ [c]) ≠ [].
Proof.
  intros Hc. induction s as [|c' s IH]; simpl.
  - by rewrite Hc.
  - by destruct (is_white_space c').
Qed.

Lemma trimStart_head s c s' : trimStart s = c :: s' → is_white_space c = false.
Proof.
  induction s as [|c' s IH]; simpl; [done|].
  destruct (is_white_space c') eqn:Hc; [done|]. by intros [= <- _].
Qed.

(** A string is empty after trimming exactly when it holds white space only. *)
Lemma trim_empty s : trim s = [] ↔ forallb is_white_space s = true.
Proof.
  rewrite <- trimStart_empty. unfold trim, trimEnd.
  destruct (trimStart s) as [|c s'] eqn:Hs; [done|]. split; [|done].
  intros H. exfalso. apply (f_equal reverse) in H. rewrite reverse_involutive in H.
  rewrite reverse_cons in H. simpl in H.
  by apply (trimStart_snoc (reverse s') c (trimStart_head _ _ _ Hs)).
Qed.

Definition paint (w : world) (i : nat) : element → element :=
  set_borderColor (if filled w i then "#28a745" else "#dc3545").

Lemma with_heap_same w : with_heap (heap w) w = w.
Proof. by destruct w. Qed.

Lemma validate_input_spec isValid i w :
  validate_input isValid i w
  = (Ok (filled w i && isValid), with_heap (alter (paint w i) i (heap w)) w).
Proof.
  unfold validate_input, paint, filled, mbind, js_bind, read, modify, write. simpl.
  by destruct (falsy _).
Qed.

Lemma filled_paint w i k :
  filled (with_heap (alter (paint w i) i (heap w)) w) k = filled w k.
Proof.
  unfold filled, element_of. simpl. destruct (decide (i = k)) as [->|Hne].
  - rewrite lookup_alter_eq. by destruct (heap w !! k).
  - by rewrite lookup_alter_ne.
Qed.

Lemma forallb_ext_all {A} (f g : A → bool) l : (∀ x, f x = g x) → forallb f l = forallb g l.
Proof. intros H. induction l as [|x l IH]; simpl; [done|]. by rewrite H, IH. Qed.

Lemma validate_inputs_spec inputs :
  ∀ isValid w, ∃ h,
    validate_inputs isValid inputs w = (Ok (isValid && forallb (filled w) inputs), with_heap h w)
    ∧ ∀ j, h !! j = (if bool_decide (j ∈ inputs) then paint w j else id) <$> heap w !! j.
Proof.
  induction inputs as [|i rest IH]; intros isValid w.
  - exists (heap w). simpl. rewrite andb_true_r, with_heap_same. split; [done|].
    intros j. by rewrite option_fmap_id.
  - set (w1 := with_heap (alter (paint w i) i (heap w)) w).
    destruct (IH (filled w i && isValid) w1) as (h & Hrun & Hh). exists h. split.
    + cbn [validate_inputs]. unfold mbind, js_bind. rewrite validate_input_spec.
      fold w1. unfold mbind, js_bind in Hrun. rewrite Hrun.
      rewrite (forallb_ext_all (filled w1) (filled w)) by apply filled_paint.
      simpl. f_equal. f_equal. by destruct (filled w i), isValid.
    + intros j. rewrite Hh. simpl.
      assert (paint w1 j = paint w j) as -> by (unfold paint, w1; by rewrite filled_paint).
      destruct (decide (i = j)) as [->|Hne].
      * rewrite lookup_alter_eq, (bool_decide_eq_true_2 (j ∈ j :: rest)) by left.
        destruct (heap w !! j); simpl; [|done]. by case_bool_decide.
      * rewrite lookup_alter_ne by done. f_equal.
        destruct (bool_decide_reflect (j ∈ rest)) as [Hin|Hin].
        -- rewrite bool_decide_eq_true_2; [done|by right].
        -- rewrite bool_decide_eq_false_2; [done|].
           intros [?|?]%elem_of_cons; [congruence|done].
Qed.

Lemma forallb_filled w inputs :
  forallb (filled w) inputs = true ↔ ∀ i, i ∈ inputs → trim (value (element_of w i)) ≠ [].
Proof.
  rewrite forallb_forall. unfold filled. split; intros H i Hi.
  - apply list_elem_of_In, H in Hi. by destruct (trim _).
  - apply list_elem_of_In, H in Hi. by destruct (trim _).
Qed.

(** C1: when [formId] names an element, validateForm returns without
    throwing; it returns true exactly when every required input below that
    element has a value that is not empty after trimming; it sets the
    border colour of each required input to #dc3545 when its trimmed value
    is empty and to #28a745 otherwise, and changes nothing else on the
    page.  With exactly two required inputs, one empty and one filled, it
    returns false and only the empty one is red. *)
Theorem validateForm_marks_required_inputs formId form w :
  getElementById formId w = (Ok (Some form), w) →
  ∃ isValid h,
    validateForm formId w = (Ok isValid, with_heap h w)
    ∧ (isValid = true ↔ ∀ i, required_input w form i → trim (value (element_of w i)) ≠ [])
    ∧ (∀ i, required_input w form i →
         h !! i = set_borderColor (if falsy (trim (value (element_of w i)))
                                   then "#dc3545" else "#28a745") <$> heap w !! i)
    ∧ (∀ i, ¬ required_input w form i → h !! i = heap w !! i)
    ∧ (∀ i j, (∀ k, required_input w form k ↔ k = i ∨ k = j) →
         trim (value (element_of w i)) = [] → trim (value (element_of w j)) ≠ [] →
         isValid = false
         ∧ ∀ k, required_input w form k →
             (borderColor (el_style (element_of (with_heap h w) k)) = "#dc3545" ↔ k = i)).
Proof.
  intros Hform.
  destruct (querySelectorAll_in_required w form) as (inputs & Hq & Hin).
  destruct (validate_inputs_spec inputs true w) as (h & Hrun & Hh).
  assert (∀ i, required_input w form i →
            h !! i = set_borderColor (if falsy (trim (value (element_of w i)))
                                      then "#dc3545" else "#28a745") <$> heap w !! i) as Hpaint.
  { intros i Hi. rewrite Hh, bool_decide_eq_true_2 by by apply Hin.
    unfold paint, filled. by destruct (falsy _). }
  exists (forallb (filled w) inputs), h. split; [|split; [|split; [|split]]].
  - unfold validateForm. rewrite (bind_ok _ _ _ _ _ Hform).
    rewrite (bind_ok _ _ _ form w eq_refl). by rewrite (bind_ok _ _ _ _ _ Hq).
  - rewrite forallb_filled. by setoid_rewrite Hin.
  - done.
  - intros i Hi. rewrite Hh, bool_decide_eq_false_2 by by rewrite Hin.
    by rewrite option_fmap_id.
  - intros i j Hij Hi Hj. split.
    + apply not_true_is_false. rewrite forallb_filled. intros H.
      apply (H i); [|done]. apply Hin, Hij. by left.
    + intros k Hk. pose proof Hk as (_ & e & He & _).
      unfold element_of in *. simpl. rewrite (Hpaint k Hk), He. simpl.
      apply Hij in Hk as [-> | ->].
      * rewrite He in Hi. simpl in Hi. by rewrite Hi.
      * rewrite He in Hj. simpl in Hj. destruct (trim (value e)) eqn:Ht; [done|]. simpl.
        split; [done|]. intros ->. rewrite He in Hi. simpl in Hi. congruence.
Qed.

Lemma validateForm_marks_required_inputs_witness :
  ∃ h, validateForm "login" login_page = (Ok false, with_heap h login_page)
       ∧ borderColor (el_style (element_of (with_heap h login_page) 2)) = "#dc3545"
       ∧ borderColor (el_style (element_of (with_heap h login_page) 3)) = "#28a745".
Proof.
  destruct (validateForm_marks_required_inputs "login" 1 login_page eq_refl)
    as (isValid & h & Hrun & _ & Hpaint & _).
  assert ((validateForm "login" login_page).1 = Ok false) as H1 by reflexivity.
  rewrite Hrun in H1. injection H1 as ->. exists h. split; [exact Hrun|].
  assert (∀ i, i = 2%nat ∨ i = 3%nat → required_input login_page 1 i) as Hreq.
  { intros i Hi. split.
    - apply (bool_decide_unpack _). by destruct Hi as [->| ->].
    - destruct Hi as [->| ->]; eexists; (split; [reflexivity|split; [reflexivity|by eexists]]). }
  unfold element_of. simpl.
  rewrite (Hpaint 2%nat (Hreq _ (or_introl eq_refl))).
  rewrite (Hpaint 3%nat (Hreq _ (or_intror eq_refl))). by split.
Defined.

(** ** showRegister, showLogin and the guarded lookups *)

Lemma getElementById_none w i : no_id w i → getElementById i w = (Ok None, w).
Proof.
  intros Hno. unfold getElementById, read. f_equal. f_equal. case_decide; [done|].
  rewrite select_nil; [done|]. intros n first e Hin He.
  apply bool_decide_eq_false. unfold no_id in Hno. rewrite Forall_forall in Hno.
  assert (n ∈ (nodes w).*1) as Hn by (apply list_elem_of_fmap; by exists (n, first)).
  apply Hno in Hn. unfold element_of in Hn. by rewrite He in Hn.
Qed.

Lemma querySelector_auth_card_none w :
  no_class w "auth-card" → querySelector auth_card_first_child w = (Ok None, w).
Proof.
  intros Hno. unfold querySelector, querySelectorAll, read, mbind, js_bind, mret, js_ret.
  rewrite select_nil; [done|]. intros n first e Hin He. simpl.
  apply andb_false_iff. left. apply bool_decide_eq_false.
  unfold no_class in Hno. rewrite Forall_forall in Hno.
  assert (n ∈ (nodes w).*1) as Hn by (apply list_elem_of_fmap; by exists (n, first)).
  apply Hno in Hn. unfold element_of in Hn. by rewrite He in Hn.
Qed.

Lemma querySelector_same {sel} w : ∃ o, querySelector sel w = (Ok o, w).
Proof. eexists. reflexivity. Qed.

Lemma no_id_set_display w i v card :
  no_id w i → no_id (with_heap (alter (set_display v) card (heap w)) w) i.
Proof.
  unfold no_id, nodes. simpl. intros H. eapply Forall_impl; [exact H|].
  intros n. unfold element_of. simpl.
  destruct (decide (card = n)) as [->|Hne].
  - rewrite lookup_alter_eq. by destruct (heap w !! n).
  - by rewrite lookup_alter_ne.
Qed.

Lemma toggle_throws w (shown hidden : string) :
  no_id w "register-form" ∨ no_class w "auth-card" →
  ((card ← querySelector auth_card_first_child;
    card ← deref card;
    _ ← modify card (set_display shown);
    form ← getElementById "register-form";
    form ← deref form;
    modify form (set_display hidden)) w).1 = Err TypeError.
Proof.
  intros [Hid|Hclass].
  - destruct (@querySelector_same auth_card_first_child w) as [[card|] Hq];
      rewrite (bind_ok _ _ _ _ _ Hq); [|done].
    rewrite (bind_ok _ _ _ card w eq_refl).
    erewrite bind_ok by reflexivity.
    by rewrite (bind_ok _ _ _ None _
                  (getElementById_none (with_heap _ w) _ (no_id_set_display _ _ _ _ Hid))).
  - by rewrite (bind_ok _ _ _ _ _ (querySelector_auth_card_none _ Hclass)).
Qed.

Lemma on_click_spec css this w :
  on_click css this w
  = match css (default "null" (getAttribute "href" (attributes (element_of w this))))
            (doc w) (heap w) with
    | Ok (Some target) =>
        (Ok (), logged [PreventDefault; ScrollIntoView target "smooth" "start"] w)
    | Ok None => (Ok (), logged [PreventDefault] w)
    | Err e => (Err e, logged [PreventDefault] w)
    end.
Proof.
  unfold on_click, mbind, js_bind, record, write, read, querySelector_dynamic. simpl.
  destruct (css _ _ _) as [[target|]|e]; try done.
  unfold logged. simpl. by rewrite <- app_assoc.
Qed.




(** ** The listeners and the click listener *)

Lemma with_listeners_nil w : with_listeners [] w = w.
Proof. destruct w. unfold with_listeners. simpl. by rewrite app_nil_r. Qed.

Lemma with_listeners_app l1 l2 w :
  with_listeners l2 (with_listeners l1 w) = with_listeners (l1 ++ l2) w.
Proof. unfold with_listeners. simpl. by rewrite app_assoc. Qed.

Lemma forEach_addEventListener {A} (f : A → listener) l :
  ∀ w, forEach (fun a => addEventListener (f a)) l w = (Ok (), with_listeners (f <$> l) w).
Proof.
  induction l as [|a l IH]; intros w; simpl.
  - by rewrite with_listeners_nil.
  - unfold mbind, js_bind, addEventListener, write at 1. rewrite IH.
    by rewrite with_listeners_app.
Qed.

Lemma main_spec w :
  main w = (Ok (), with_listeners
                     (OnDOMContentLoaded :: (OnClick <$> anchors w) ++ (OnSubmit <$> forms w)) w).
Proof.
  unfold main. rewrite bind_addEventListener, bind_querySelectorAll.
  rewrite (bind_ok _ _ _ _ _ (forEach_addEventListener _ _ _)), bind_querySelectorAll.
  by rewrite forEach_addEventListener, !with_listeners_app.
Qed.

Lemma elem_of_anchors w a :
  a ∈ anchors w ↔
  ∃ e href, in_document w a ∧ heap w !! a = Some e ∧ localName e = "a"
            ∧ getAttribute "href" (attributes e) = Some href ∧ String.prefix "#" href = true.
Proof.
  unfold anchors, in_document. rewrite elem_of_select. split.
  - intros (first & e & Hin & He & Hm). simpl in Hm.
    apply andb_prop in Hm as [H1 H2]. apply andb_prop in H2 as [H2 _].
    apply bool_decide_eq_true in H1.
    destruct (getAttribute "href" (attributes e)) as [href|] eqn:Hh; [|done].
    exists e, href. repeat split; try done. apply list_elem_of_fmap. by exists (a, first).
  - intros (e & href & ([a' first] & -> & Hin)%list_elem_of_fmap & He & Hn & Hh & Hp).
    exists first, e. repeat split; try done. simpl.
    by rewrite Hh, Hp, bool_decide_eq_true_2.
Qed.

(** C10: the script gives a click listener to every anchor of the
    document whose href starts with #.  That listener calls
    preventDefault first, whatever the lookup of the href then gives; it
    calls scrollIntoView (smooth, start) only on an element the lookup
    found; when the lookup finds none, or throws, the call of
    preventDefault is all the click has done: document, timers and
    listeners are as they were. *)
Theorem anchor_click_prevents_default (css : engine) (w : world) (this : nat) :
  ((∀ a, a ∈ anchors w ↔
      ∃ e href, in_document w a ∧ heap w !! a = Some e ∧ localName e = "a"
                ∧ getAttribute "href" (attributes e) = Some href
                ∧ String.prefix "#" href = true)
   ∧ ∀ a, a ∈ anchors w → OnClick a ∈ listeners (main w).2)
  ∧ on_click css this w
    = match css (default "null" (getAttribute "href" (attributes (element_of w this))))
              (doc w) (heap w) with
      | Ok (Some target) =>
          (Ok (), logged [PreventDefault; ScrollIntoView target "smooth" "start"] w)
      | Ok None => (Ok (), logged [PreventDefault] w)
      | Err e => (Err e, logged [PreventDefault] w)
      end.
Proof.
  split; [split|apply on_click_spec].
  - apply elem_of_anchors.
  - intros a Ha. rewrite main_spec. simpl.
    rewrite elem_of_app, elem_of_cons, elem_of_app. right. right. left.
    by apply list_elem_of_fmap_2.
Qed.

(** ** showLoading *)

Lemma take_timer_last w tm :
  (∀ tm', tm' ∈ timers w → tm_id tm' ≠ tm_id tm) →
  take_timer (tm_id tm)
    (World (doc w) (heap w) (timers w ++ [tm]) (S (next_timer w)) (now w) (listeners w) (log w))
  = Some (tm, World (doc w) (heap w) (timers w) (S (next_timer w)) (now w)
                (listeners w) (log w)).
Proof.
  intros Hfresh. unfold take_timer. simpl.
  assert (list_find (fun tm' => tm_id tm' = tm_id tm) (timers w ++ [tm])
          = Some (length (timers w), tm)) as ->.
  { apply list_find_Some. split; [by apply list_lookup_middle|]. split; [done|].
    intros j y Hj Hlt. rewrite lookup_app_l in Hj by done.
    apply Hfresh. by eapply list_elem_of_lookup_2. }
  by rewrite delete_middle, app_nil_r.
Qed.

(** C7: showLoading at once sets the button's text to Loading... and
    disables it, and sets one timer, due 2000ms later, whose callback holds
    the button and the text read at the start.  Whenever that callback
    runs, whatever has happened to the page and to any form submission
    meanwhile, it sets the button's text to exactly that text and enables
    the button.  The timer does not run before it is due; when it runs
    next, the button is as it was before the call, enabled.  The submit
    listener of a form calls showLoading on the form's first submit
    button. *)
Theorem showLoading_restores_button button e w :
  heap w !! button = Some e →
  let restore := RestoreButton button (textContent e) in
  let loading :=
    with_timer restore 2000
      (with_heap (<[button := set_disabled true (set_textContent "Loading..." e)]> (heap w)) w) in
  showLoading button w = (Ok (), loading)
  ∧ (∀ w' e', heap w' !! button = Some e' →
       run_callback restore w'
       = (Ok (), with_heap (<[button := set_disabled false (set_textContent (textContent e) e')]>
                              (heap w')) w'))
  ∧ ((∀ tm, tm ∈ timers w → tm_id tm ≠ next_timer w) →
     ∀ css t, now w ≤ t →
       handle css (TimerFires (next_timer w)) t loading
       = if t <? now w + 2000 then None
         else Some (World (doc w) (<[button := set_disabled false e]> (heap w)) (timers w)
                      (S (next_timer w)) t (listeners w)
                      (log w ++ [Fired restore (now w + 2000) t])))
  ∧ (∀ form, querySelector_in form submit_button w = (Ok (Some button), w) →
       on_submit form w = showLoading button w).
Proof.
  intros He restore loading.
  assert (∀ (f g : element → element) (h : gmap nat element) e1, h !! button = Some e1 →
            alter f button (alter g button h) = <[button := f (g e1)]> h) as Halter.
  { intros f g h e1 H1. apply map_eq. intros i. destruct (decide (button = i)) as [->|Hne].
    - by rewrite lookup_insert_eq, !lookup_alter_eq, H1.
    - by rewrite lookup_insert_ne, !lookup_alter_ne. }
  split; [|split; [|split]].
  - unfold showLoading, mbind, js_bind, read, modify, write, setTimeout, element_of. simpl.
    rewrite He. simpl. unfold loading, with_timer, with_heap. simpl.
    by rewrite (Halter _ _ _ e He).
  - intros w' e' He'. unfold run_callback, restore, mbind, js_bind, modify, write. simpl.
    unfold with_heap. simpl. by rewrite (Halter _ _ _ e' He').
  - intros Hfresh css t Ht. unfold handle, loading, with_timer, with_heap.
    cbn [doc heap timers next_timer now listeners log].
    destruct (t <? now w) eqn:Hlt; [lia|].
    pose proof (take_timer_last
                  (with_heap (<[button := set_disabled true (set_textContent "Loading..." e)]>
                                (heap w)) w)
                  (Timer (next_timer w) (now w + 2000) restore)) as Htake.
    unfold with_heap in Htake. cbn [doc heap timers next_timer now listeners log tm_id] in Htake.
    rewrite Htake by done. cbn [tm_due tm_callback].
    destruct (t <? now w + 2000); [done|].
    unfold mbind, js_bind, modify, write, record, logged, with_heap. simpl.
    rewrite (Halter _ _ _ (set_disabled true (set_textContent "Loading..." e)))
      by apply lookup_insert_eq.
    simpl. rewrite insert_insert_eq. by destruct e.
  - intros form Hq. unfold on_submit. by rewrite (bind_ok _ _ _ _ _ Hq).
Qed.

Lemma showLoading_restores_button_witness :
  (showLoading 4 login_page).1 = Ok ()
  ∧ textContent (element_of (showLoading 4 login_page).2 4) = "Loading..."
  ∧ disabled (element_of (showLoading 4 login_page).2 4) = true
  ∧ (tm_due <$> timers (showLoading 4 login_page).2) = [2000]
  ∧ handle hash_engine (TimerFires (next_timer login_page)) 1999 (showLoading 4 login_page).2
    = None
  ∧ (λ w, (textContent (element_of w 4), disabled (element_of w 4)))
      <$> handle hash_engine (TimerFires (next_timer login_page)) 2000
            (showLoading 4 login_page).2
    = Some ("Sign in", false).
Proof.
  destruct (showLoading_restores_button 4
              (Element "button" None [] [("type", "submit")] [] "Sign in" false (Style "" "" ""))
              login_page eq_refl) as (Hrun & _ & Hfire & _).
  assert (∀ tm, tm ∈ timers login_page → tm_id tm ≠ next_timer login_page) as Hfresh
    by (by intros tm ?%elem_of_nil).
  rewrite Hrun. cbn [fst snd].
  rewrite (Hfire Hfresh hash_engine 1999 ltac:(done)).
  rewrite (Hfire Hfresh hash_engine 2000 ltac:(done)).
  repeat split.
Defined.

(** ** Tasks that leave the alerts alone

    Every listener and global function of the script but the
    DOMContentLoaded listener: it may change element objects, set
    RestoreButton timers and log browser calls; it removes no node, sets
    no alert timer and lets no time pass. *)

Definition browser_call (e : entry) : Prop :=
  match e with
  | Fired _ _ _ => False
  | _ => True
  end.

Definition benign (w w' : world) : Prop :=
  doc w' = doc w ∧ now w' = now w
  ∧ (∀ n, opacity_of w' n = opacity_of w n)
  ∧ (∃ ts, timers w' = timers w ++ ts
           ∧ Forall (fun tm => is_alert_callback (tm_callback tm) = false) ts)
  ∧ (∃ es, log w' = log w ++ es ∧ Forall browser_call es).

Definition benign_m {A} (m : js_m A) : Prop := ∀ w, benign w (m w).2.

Lemma benign_refl w : benign w w.
Proof. repeat split; [done..| |]; exists []; by rewrite app_nil_r. Qed.

Lemma benign_trans w1 w2 w3 : benign w1 w2 → benign w2 w3 → benign w1 w3.
Proof.
  intros (Hd & Hn & Ho & (ts & Ht & Hts) & (es & He & Hes))
         (Hd' & Hn' & Ho' & (ts' & Ht' & Hts') & (es' & He' & Hes')).
  split; [congruence|]. split; [congruence|]. split; [|split].
  - intros n. by rewrite Ho', Ho.
  - exists (ts ++ ts'). rewrite Ht', Ht, app_assoc. split; [done|by apply Forall_app].
  - exists (es ++ es'). rewrite He', He, app_assoc. split; [done|by apply Forall_app].
Qed.

Lemma benign_bind {A B} (m : js_m A) (k : A → js_m B) :
  benign_m m → (∀ a, benign_m (k a)) → benign_m (m ≫= k).
Proof.
  intros Hm Hk w. specialize (Hm w). unfold mbind, js_bind.
  destruct (m w) as [[a|e] w1]; simpl in *; [|done].
  eapply benign_trans; [done|apply Hk].
Qed.

Lemma benign_ret {A} (a : A) : benign_m (mret a).
Proof. intros w. apply benign_refl. Qed.

Lemma benign_throw {A} e : benign_m (@throw A e).
Proof. intros w. apply benign_refl. Qed.

Lemma benign_read {A} (f : world → A) : benign_m (read f).
Proof. intros w. apply benign_refl. Qed.

Lemma benign_deref o : benign_m (deref o).
Proof. destruct o; [apply benign_ret|apply benign_throw]. Qed.

Lemma opacity_of_alter w n f m :
  (∀ e, opacity (el_style (f e)) = opacity (el_style e)) →
  opacity_of (with_heap (alter f n (heap w)) w) m = opacity_of w m.
Proof.
  intros Hf. unfold opacity_of. simpl. destruct (decide (n = m)) as [->|Hne].
  - rewrite lookup_alter_eq. destruct (heap w !! m); simpl; [|done]. by rewrite Hf.
  - by rewrite lookup_alter_ne.
Qed.

Lemma benign_modify n f :
  (∀ e, opacity (el_style (f e)) = opacity (el_style e)) → benign_m (modify n f).
Proof.
  intros Hf w. do 2 (split; [done|]). split; [intros m; by apply opacity_of_alter|].
  split; exists []; by rewrite app_nil_r.
Qed.

Lemma benign_record e : browser_call e → benign_m (record e).
Proof.
  intros He w. do 3 (split; [done|]). split.
  - exists []. by rewrite app_nil_r.
  - exists [e]. split; [done|]. by apply Forall_singleton.
Qed.

Lemma benign_setTimeout cb delay :
  is_alert_callback cb = false → benign_m (setTimeout cb delay).
Proof.
  intros Hcb w. do 3 (split; [done|]). split.
  - eexists. split; [reflexivity|]. by apply Forall_singleton.
  - exists []. by rewrite app_nil_r.
Qed.

Lemma benign_querySelector_dynamic css s : benign_m (querySelector_dynamic css s).
Proof. intros w. apply benign_refl. Qed.

Ltac benign_step :=
  first
    [ apply benign_bind; [|intros ?]
    | apply benign_read | apply benign_deref | apply benign_modify; intros ?; reflexivity
    | apply benign_ret | apply benign_throw | apply benign_querySelector_dynamic
    | apply benign_record; exact I
    | apply benign_setTimeout; reflexivity ].

Lemma benign_showRegister : benign_m showRegister.
Proof. unfold showRegister, querySelector, querySelectorAll, getElementById. repeat benign_step. Qed.

Lemma benign_showLogin : benign_m showLogin.
Proof. unfold showLogin, querySelector, querySelectorAll, getElementById. repeat benign_step. Qed.

Lemma benign_showLoading button : benign_m (showLoading button).
Proof. unfold showLoading. repeat benign_step. Qed.

Lemma benign_on_submit form : benign_m (on_submit form).
Proof.
  unfold on_submit, querySelector_in, querySelectorAll_in. repeat benign_step.
  case_match; [apply benign_showLoading|apply benign_ret].
Qed.

Lemma benign_on_click css this : benign_m (on_click css this).
Proof. unfold on_click. repeat benign_step. case_match; repeat benign_step. Qed.

Lemma benign_validate_inputs inputs : ∀ isValid, benign_m (validate_inputs isValid inputs).
Proof.
  induction inputs as [|i rest IH]; intros isValid; simpl; [apply benign_ret|].
  apply benign_bind; [|done]. unfold validate_input. repeat benign_step.
  case_match; repeat benign_step.
Qed.

Lemma benign_validateForm formId : benign_m (validateForm formId).
Proof.
  unfold validateForm, getElementById, querySelectorAll_in. repeat benign_step.
  apply benign_validate_inputs.
Qed.

Lemma benign_dispatch (f : nat → js_m ()) ns :
  (∀ n, benign_m (f n)) → ∀ w, benign w (dispatch f ns w).
Proof.
  intros Hf. induction ns as [|n ns IH]; intros w; [apply benign_refl|].
  eapply benign_trans; [apply (Hf n w)|apply IH].
Qed.


(** ** Counting *)

Lemma count_fmap {A B} `{EqDecision B} (f : A → B) (c : B) (l : list A) :
  length (filter (fun x => f x = c) l) = length (filter (fun y => y = c) (f <$> l)).
Proof.
  induction l as [|x l IH]; [done|]. rewrite fmap_cons, !filter_cons.
  case_decide; simpl; by rewrite IH.
Qed.

Lemma count_inj {A B} `{EqDecision A} `{EqDecision B} (f : A → B) `{!Inj (=) (=) f}
    (a : A) (l : list A) :
  length (filter (fun y => y = f a) (f <$> l)) = length (filter (fun x => x = a) l).
Proof.
  induction l as [|x l IH]; [done|]. rewrite fmap_cons, !filter_cons.
  destruct (decide (x = a)) as [->|Hne].
  - rewrite decide_True by done. simpl. by rewrite IH.
  - rewrite decide_False by (by intros ?%(inj f)). done.
Qed.

Lemma count_none {A} (P : A → Prop) `{∀ x, Decision (P x)} (l : list A) :
  Forall (fun x => ¬ P x) l → length (filter P l) = 0%nat.
Proof.
  induction 1 as [|x l Hx _ IH]; [done|]. by rewrite filter_cons_False.
Qed.

Lemma count_delete {A} (P : A → Prop) `{∀ x, Decision (P x)} (l : list A) i x :
  l !! i = Some x →
  length (filter P l) = (length (filter P (delete i l)) + if decide (P x) then 1 else 0)%nat.
Proof.
  revert i. induction l as [|y l IH]; intros [|i]; simpl; try done.
  - intros [= ->]. rewrite filter_cons. case_decide; simpl; lia.
  - intros Hi. rewrite !filter_cons. specialize (IH i Hi).
    destruct (decide (P y)); simpl; lia.
Qed.

Lemma count_NoDup {A} `{EqDecision A} (a : A) (l : list A) :
  NoDup l → a ∈ l → length (filter (fun b => b = a) l) = 1%nat.
Proof.
  induction 1 as [|x l Hx Hl IH]; [by intros ?%elem_of_nil|].
  rewrite filter_cons. intros [->|Ha]%elem_of_cons.
  - rewrite decide_True by done. simpl. f_equal. apply count_none.
    apply Forall_forall. by intros y Hy ->.
  - rewrite decide_False by (by intros ->). by apply IH.
Qed.

Lemma select_sublist h p ns : select h p ns `sublist_of` ns.*1.
Proof.
  induction ns as [|[n first] ns IH]; simpl; [done|].
  unfold select in *. simpl. destruct (h !! n) as [e|]; [destruct (p e first)|];
    simpl; by constructor.
Qed.

Lemma alerts_NoDup w : well_formed w → NoDup (alerts w).
Proof. intros H. exact (sublist_NoDup _ _ H (select_sublist _ _ _)). Qed.

Lemma elem_of_alerts w a :
  a ∈ alerts w ↔ in_document w a ∧ ∃ e, heap w !! a = Some e ∧ "alert" ∈ classList e.
Proof.
  unfold alerts, in_document. rewrite elem_of_select. split.
  - intros (first & e & Hin & He & Hm). simpl in Hm. apply andb_prop in Hm as [Hm _].
    apply bool_decide_eq_true in Hm. split; [|by exists e].
    apply list_elem_of_fmap. by exists (a, first).
  - intros [([a' first] & -> & Hin)%list_elem_of_fmap (e & He & Hc)].
    exists first, e. repeat split; [done..|]. simpl. by rewrite bool_decide_eq_true_2.
Qed.

(** ** The alert timers *)

Section AlertDismiss.
Variable css : engine.
Variable w0 : world.

(** What the log tells about the time a timer with callback [cb] is due. *)
Definition scheduled (lg : list entry) (cb : callback) (due : Z) : Prop :=
  match cb with
  | AlertFade _ => due = now w0 + 5000
  | AlertRemove a =>
      ∃ faded, Fired (AlertFade a) (now w0 + 5000) faded ∈ lg
               ∧ now w0 + 5000 ≤ faded ∧ due = faded + 300
  | RestoreButton _ _ => True
  end.

(** What holds of a page from the moment the DOMContentLoaded listener
    has run on [w0]. *)
Record dismissing (w : world) : Prop := Dismissing {
  dis_now : now w0 ≤ now w;
  dis_timers : ∀ tm, tm ∈ timers w → scheduled (log w) (tm_callback tm) (tm_due tm);
  dis_log : ∀ cb due ran, Fired cb due ran ∈ log w → is_alert_callback cb = true →
              due ≤ ran ∧ ran ≤ now w ∧ scheduled (log w) cb due;
  dis_count : ∀ a, (pending (AlertFade a) w + pending (AlertRemove a) w
                    + fired (AlertRemove a) w)%nat
                   = length (filter (fun b => b = a) (alerts w0));
  dis_removed : ∀ a due ran, Fired (AlertRemove a) due ran ∈ log w → ¬ in_document w a;
  dis_kept : (∀ a due ran, Fired (AlertRemove a) due ran ∉ log w) → doc w = doc w0;
  dis_opacity : ∀ a due ran, Fired (AlertFade a) due ran ∈ log w →
                  opacity_of w a = (fun _ => "0") <$> opacity_of w0 a;
  dis_unfaded : ∀ a, (∀ due ran, Fired (AlertFade a) due ran ∉ log w) →
                  opacity_of w a = opacity_of w0 a;
  dis_dom : ∀ n, is_Some (heap w !! n) ↔ is_Some (heap w0 !! n)
}.

Lemma opacity_of_is_Some w n : is_Some (opacity_of w n) ↔ is_Some (heap w !! n).
Proof. apply fmap_is_Some. Qed.

Lemma scheduled_mono lg es cb due : scheduled lg cb due → scheduled (lg ++ es) cb due.
Proof.
  destruct cb; simpl; try done. intros (faded & Hin & ?). exists faded.
  split; [|done]. apply elem_of_app. by left.
Qed.

Lemma scheduled_not_alert lg cb due : is_alert_callback cb = false → scheduled lg cb due.
Proof. by destruct cb. Qed.

#[local] Instance AlertFade_inj : Inj (=) (=) AlertFade.
Proof. by intros a b [= ->]. Qed.

Lemma bind_setTimeout {B} cb delay (k : () → js_m B) w :
  (setTimeout cb delay ≫= k) w = k () (with_timer cb delay w).
Proof. reflexivity. Qed.

Lemma forEach_setTimeout_fade l :
  ∀ w, ∃ ts,
    forEach (fun alert => setTimeout (AlertFade alert) 5000) l w
    = (Ok (), World (doc w) (heap w) (timers w ++ ts) (next_timer w + length l) (now w)
                (listeners w) (log w))
    ∧ tm_callback <$> ts = AlertFade <$> l
    ∧ Forall (fun tm => tm_due tm = now w + 5000) ts.
Proof.
  induction l as [|a l IH]; intros w.
  - exists []. simpl. rewrite app_nil_r, Nat.add_0_r. by destruct w.
  - destruct (IH (with_timer (AlertFade a) 5000 w)) as (ts & Hrun & Hcb & Hdue).
    exists (Timer (next_timer w) (now w + 5000) (AlertFade a) :: ts). split; [|split].
    + cbn [forEach]. rewrite bind_setTimeout, Hrun. simpl.
      by rewrite <- app_assoc, Nat.add_succ_r.
    + rewrite !fmap_cons. by rewrite Hcb.
    + constructor; [done|]. exact Hdue.
Qed.

Lemma pending_app cb w ts :
  length (filter (fun tm => tm_callback tm = cb) (timers w ++ ts))
  = (pending cb w + length (filter (fun y => y = cb) (tm_callback <$> ts)))%nat.
Proof. by rewrite filter_app, length_app, <- count_fmap. Qed.

Lemma pending_before_load cb w :
  before_load w → is_alert_callback cb = true → pending cb w = 0%nat.
Proof.
  intros [Ht _] Hcb. apply count_none, Forall_forall. intros tm Htm Heq.
  apply Ht in Htm. congruence.
Qed.

Lemma fired_before_load cb w :
  before_load w → is_alert_callback cb = true → fired cb w = 0%nat.
Proof.
  intros [_ Hl] Hcb. apply count_none, Forall_forall.
  intros [| |cb' due ran] He Heq; simpl in Heq; try done.
  subst. apply Hl in He. congruence.
Qed.

Lemma dismissing_loaded : before_load w0 → dismissing (on_DOMContentLoaded w0).2.
Proof.
  intros Hb. unfold on_DOMContentLoaded. rewrite bind_querySelectorAll. fold (alerts w0).
  destruct (forEach_setTimeout_fade (alerts w0) w0) as (ts & -> & Hcb & Hdue). simpl.
  split; simpl.
  - lia.
  - intros tm [Htm|Htm]%elem_of_app.
    + apply scheduled_not_alert. by apply Hb.
    + assert (tm_callback tm ∈ AlertFade <$> alerts w0) as (a & -> & _)%list_elem_of_fmap.
      { rewrite <- Hcb. by apply list_elem_of_fmap_2. }
      rewrite Forall_forall in Hdue. by apply Hdue.
  - intros cb due ran Hin Hcbt. destruct Hb as [_ Hl]. apply Hl in Hin. congruence.
  - intros a. unfold pending at 1 2. simpl. rewrite !pending_app, Hcb.
    change (fired (AlertRemove a) _) with (fired (AlertRemove a) w0).
    rewrite !pending_before_load, fired_before_load by done. simpl.
    rewrite (count_inj AlertFade a).
    rewrite (count_none (fun y => y = AlertRemove a)); [lia|].
    apply Forall_forall. by intros y (b & -> & _)%list_elem_of_fmap.
  - intros a due ran Hin. destruct Hb as [_ Hl]. by apply Hl in Hin.
  - done.
  - intros a due ran Hin. destruct Hb as [_ Hl]. by apply Hl in Hin.
  - done.
  - done.
Qed.

Lemma count_snoc {A} (P : A → Prop) `{∀ x, Decision (P x)} (l : list A) x :
  length (filter P (l ++ [x])) = (length (filter P l) + if decide (P x) then 1 else 0)%nat.
Proof. rewrite filter_app, length_app. f_equal. rewrite filter_cons. by case_decide. Qed.

Lemma dismissing_benign w t w' :
  dismissing w → now w ≤ t → benign (at_time t w) w' → dismissing w'.
Proof.
  intros Hw Ht (Hd & Hn & Ho & (ts & Hts & Hnot) & (es & Hes & Hcalls)). simpl in *.
  assert (∀ cb due ran, Fired cb due ran ∈ log w' → Fired cb due ran ∈ log w) as Hold.
  { intros cb due ran. rewrite Hes. intros [?|Hin]%elem_of_app; [done|].
    rewrite Forall_forall in Hcalls. by apply Hcalls in Hin. }
  split.
  - pose proof (dis_now _ Hw). lia.
  - intros tm. rewrite Hts, Hes. intros [Htm|Htm]%elem_of_app.
    + by apply scheduled_mono, Hw.
    + apply scheduled_not_alert. rewrite Forall_forall in Hnot. by apply Hnot.
  - intros cb due ran Hin Hcb. destruct (dis_log _ Hw cb due ran (Hold _ _ _ Hin) Hcb)
      as (? & ? & ?). rewrite Hes. split; [done|]. split; [lia|by apply scheduled_mono].
  - intros a. rewrite <- (dis_count _ Hw a). unfold pending, fired. rewrite Hts, Hes.
    rewrite !filter_app, !length_app.
    rewrite (count_none (fun tm => tm_callback tm = AlertFade a) ts),
            (count_none (fun tm => tm_callback tm = AlertRemove a) ts),
            (count_none (fired_entry (AlertRemove a)) es); [lia|..].
    all: rewrite Forall_forall in Hnot; rewrite Forall_forall in Hcalls;
      apply Forall_forall; intros x Hx Hp.
    all: first [ apply Hnot in Hx; by rewrite Hp in Hx | apply Hcalls in Hx; by destruct x ].
  - intros a due ran Hin. unfold in_document, nodes. rewrite Hd.
    by apply (dis_removed _ Hw a due ran), Hold.
  - intros Hnone. rewrite Hd. apply (dis_kept _ Hw). intros a due ran Hin.
    apply (Hnone a due ran). rewrite Hes. apply elem_of_app. by left.
  - intros a due ran Hin. rewrite Ho. by apply (dis_opacity _ Hw a due ran), Hold.
  - intros a Hnone. rewrite Ho. apply (dis_unfaded _ Hw). intros due ran Hin.
    apply (Hnone due ran). rewrite Hes. apply elem_of_app. by left.
  - intros n. rewrite <- (dis_dom _ Hw n), <- !opacity_of_is_Some. by rewrite Ho.
Qed.

Lemma take_timer_spec id w tm w1 :
  take_timer id w = Some (tm, w1) →
  ∃ i, timers w !! i = Some tm
       ∧ w1 = World (doc w) (heap w) (delete i (timers w)) (next_timer w) (now w)
                (listeners w) (log w).
Proof.
  unfold take_timer. destruct (list_find _ _) as [[i tm']|] eqn:Hf; [|done].
  intros [= -> <-]. apply list_find_Some in Hf as (Hi & _). by exists i.
Qed.

Lemma dismissing_fire w i tm t :
  dismissing w → timers w !! i = Some tm → now w ≤ t → tm_due tm ≤ t →
  dismissing
    ((_ ← record (Fired (tm_callback tm) (tm_due tm) t); run_callback (tm_callback tm))
       (at_time t (World (doc w) (heap w) (delete i (timers w)) (next_timer w) (now w)
                     (listeners w) (log w)))).2.
Proof.
  intros Hw Hi Ht Hdue.
  assert (tm ∈ timers w) as Htm by (by eapply list_elem_of_lookup_2).
  pose proof (dis_timers _ Hw tm Htm) as Hsched.
  pose proof (dis_now _ Hw) as Hnow.
  assert (∀ cb, pending cb w
                = (length (filter (fun tm' => tm_callback tm' = cb) (delete i (timers w)))
                   + if decide (tm_callback tm = cb) then 1 else 0)%nat) as Hpend.
  { intros cb. exact (count_delete (fun tm' => tm_callback tm' = cb) (timers w) i tm Hi). }
  assert (∀ tm', tm' ∈ delete i (timers w) →
            scheduled (log w ++ [Fired (tm_callback tm) (tm_due tm) t])
              (tm_callback tm') (tm_due tm')) as Hrest.
  { intros tm' Hin. apply scheduled_mono, Hw. by eapply list_elem_of_delete_inv. }
  assert (∀ cb due ran,
            Fired cb due ran ∈ log w ++ [Fired (tm_callback tm) (tm_due tm) t] →
            is_alert_callback cb = true →
            due ≤ ran ∧ ran ≤ t
            ∧ scheduled (log w ++ [Fired (tm_callback tm) (tm_due tm) t]) cb due) as Hlog.
  { intros cb due ran [Hin|Hin]%elem_of_app Hcb.
    - destruct (dis_log _ Hw cb due ran Hin Hcb) as (? & ? & ?).
      split; [done|]. split; [lia|by apply scheduled_mono].
    - apply list_elem_of_singleton in Hin as [= -> -> ->].
      split; [done|]. split; [lia|by apply scheduled_mono]. }
  pose proof (dis_count _ Hw) as Hcount.
  assert (∀ a' due ran,
            Fired (AlertRemove a') due ran ∈ log w ++ [Fired (tm_callback tm) (tm_due tm) t] →
            (∀ a, tm_callback tm ≠ AlertRemove a) → ¬ in_document w a') as Hgone.
  { intros a' due ran [Hin|Hin]%elem_of_app Hcb; [by apply (dis_removed _ Hw a' due ran)|].
    apply list_elem_of_singleton in Hin as [= Heq _ _]. by destruct (Hcb a'). }
  assert ((∀ a due ran,
             Fired (AlertRemove a) due ran ∉ log w ++ [Fired (tm_callback tm) (tm_due tm) t]) →
          doc w = doc w0) as Hkept.
  { intros Hnone. apply (dis_kept _ Hw). intros a' due ran Hin.
    apply (Hnone a' due ran). apply elem_of_app. by left. }
  assert (∀ a' due ran,
            Fired (AlertFade a') due ran ∈ log w ++ [Fired (tm_callback tm) (tm_due tm) t] →
            tm_callback tm ≠ AlertFade a' →
            opacity_of w a' = (fun _ => "0") <$> opacity_of w0 a') as Hfaded.
  { intros a' due ran [Hin|Hin]%elem_of_app Hcb; [by apply (dis_opacity _ Hw a' due ran)|].
    apply list_elem_of_singleton in Hin as [= Heq _ _]. congruence. }
  assert (∀ a',
            (∀ due ran,
               Fired (AlertFade a') due ran ∉ log w ++ [Fired (tm_callback tm) (tm_due tm) t]) →
            opacity_of w a' = opacity_of w0 a') as Hunfaded.
  { intros a' Hnone. apply (dis_unfaded _ Hw). intros due ran Hin.
    apply (Hnone due ran). apply elem_of_app. by left. }
  pose proof (dis_dom _ Hw) as Hdom.
  destruct (tm_callback tm) as [a|a|b txt] eqn:Hcb;
    unfold mbind, js_bind, record, write, run_callback, modify, setTimeout, remove; simpl;
    split; simpl.
  - (* the fade callback: opacity 0, and the remove timer is set *) lia.
  - intros tm' [Hin|Hin]%elem_of_app; [by apply Hrest|].
    apply list_elem_of_singleton in Hin as ->. simpl in *. exists t.
    split; [|lia]. apply elem_of_app. right. rewrite Hsched. by left.
  - exact Hlog.
  - intros a'. rewrite <- (Hcount a'), !Hpend. unfold pending, fired. simpl.
    rewrite !count_snoc. simpl. repeat case_decide; simplify_eq; lia.
  - intros a' due ran Hin. by apply (Hgone a' due ran).
  - exact Hkept.
  - intros a' due ran Hin. unfold opacity_of at 1. simpl.
    destruct (decide (a = a')) as [->|Hne].
    + rewrite lookup_alter_eq. unfold opacity_of.
      destruct (Hdom a') as [H1 H2].
      destruct (heap w !! a') as [e|], (heap w0 !! a') as [e0|]; simpl; try done.
      * by destruct H1.
      * by destruct H2.
    + rewrite lookup_alter_ne by done. apply (Hfaded a' due ran Hin). congruence.
  - intros a' Hnone. unfold opacity_of at 1. simpl.
    destruct (decide (a = a')) as [->|Hne].
    + exfalso. apply (Hnone (tm_due tm) t). apply elem_of_app. right. by left.
    + rewrite lookup_alter_ne by done. by apply Hunfaded.
  - intros n. rewrite <- Hdom. destruct (decide (a = n)) as [->|Hne].
    + by rewrite lookup_alter_eq, fmap_is_Some.
    + by rewrite lookup_alter_ne.
  - (* the remove callback: the node leaves the document *) lia.
  - exact Hrest.
  - exact Hlog.
  - intros a'. rewrite <- (Hcount a'), !Hpend. unfold pending, fired. simpl.
    rewrite !count_snoc. simpl. repeat case_decide; simplify_eq; lia.
  - intros a' due ran Hin. unfold in_document, nodes. simpl.
    intros [Hne Hdoc]%prune_forest_ids. apply elem_of_app in Hin as [Hin|Hin].
    + by apply (dis_removed _ Hw a' due ran Hin).
    + apply list_elem_of_singleton in Hin. congruence.
  - intros Hnone. exfalso. apply (Hnone a (tm_due tm) t). apply elem_of_app. right. by left.
  - intros a' due ran Hin. by apply (Hfaded a' due ran).
  - exact Hunfaded.
  - exact Hdom.
  - (* the restore callback: text and disabled only *) lia.
  - exact Hrest.
  - exact Hlog.
  - intros a'. rewrite <- (Hcount a'), !Hpend. unfold pending, fired. simpl.
    rewrite !count_snoc. simpl. repeat case_decide; simplify_eq; lia.
  - intros a' due ran Hin. by apply (Hgone a' due ran).
  - exact Hkept.
  - intros a' due ran Hin. rewrite <- (Hfaded a' due ran Hin) by done.
    rewrite <- (opacity_of_alter w b (set_textContent txt) a') by done.
    by rewrite <- (opacity_of_alter (with_heap _ w) b (set_disabled false) a').
  - intros a' Hnone. rewrite <- (Hunfaded a' Hnone).
    rewrite <- (opacity_of_alter w b (set_textContent txt) a') by done.
    by rewrite <- (opacity_of_alter (with_heap _ w) b (set_disabled false) a').
  - intros n. rewrite <- Hdom. destruct (decide (b = n)) as [->|Hne].
    + by rewrite !lookup_alter_eq, !fmap_is_Some.
    + by rewrite !lookup_alter_ne.
Qed.

Lemma dismissing_handle w ev t w' :
  dismissing w → handle css ev t w = Some w' → dismissing w'.
Proof.
  intros Hw. unfold handle. destruct (t <? now w) eqn:Hlt; [done|].
  assert (now w ≤ t) as Ht by lia.
  destruct ev as [id|anchor|form| | |formId|button].
  - destruct (take_timer id w) as [[tm w1]|] eqn:Htake; [|done].
    destruct (t <? tm_due tm) eqn:Hdue; [done|]. intros [= <-].
    apply take_timer_spec in Htake as (i & Hi & ->).
    apply dismissing_fire; [done..|lia].
  - destruct (event_path w anchor) as [path|]; [|done]. intros [= <-].
    eapply dismissing_benign; [done..|]. apply benign_dispatch, benign_on_click.
  - destruct (event_path w form) as [path|]; [|done]. intros [= <-].
    eapply dismissing_benign; [done..|]. apply benign_dispatch, benign_on_submit.
  - intros [= <-]. eapply dismissing_benign; [done..|exact (benign_showRegister (at_time t w))].
  - intros [= <-]. eapply dismissing_benign; [done..|exact (benign_showLogin (at_time t w))].
  - intros [= <-]. eapply dismissing_benign; [done..|exact (benign_validateForm formId (at_time t w))].
  - intros [= <-]. eapply dismissing_benign; [done..|exact (benign_showLoading button (at_time t w))].
Qed.

Lemma dismissing_run schedule : ∀ w w', dismissing w → run css schedule w = Some w' → dismissing w'.
Proof.
  induction schedule as [|[t ev] rest IH]; intros w w' Hw; simpl.
  - by intros [= <-].
  - destruct (handle css ev t w) as [w1|] eqn:Hh; [|done].
    apply IH. by eapply dismissing_handle.
Qed.

End AlertDismiss.

(** C6 as stated has the alert out of the document by 5300ms.  A timer
    never runs early but may run late: here the fade callback runs when
    due and another task, a click, is running at 5301ms, and the alert is
    still in the document; and when the remove timer runs 1ms late, the
    removal is at 5301ms. *)
Lemma alert_still_in_document_after_5300ms :
  (fun w => (now w, bool_decide (6%nat ∈ (nodes w).*1), log w))
    <$> run hash_engine [(5000, TimerFires 0); (5301, Click 5)] loaded_page
  = Some (5301, true, [Fired (AlertFade 6) 5000 5000; PreventDefault])
  ∧ (fun w => (now w, bool_decide (6%nat ∈ (nodes w).*1), log w))
      <$> run hash_engine [(5000, TimerFires 0); (5301, TimerFires 1)] loaded_page
    = Some (5301, false, [Fired (AlertFade 6) 5000 5000; Fired (AlertRemove 6) 5300 5301]).
Proof. split; vm_compute; reflexivity. Qed.

(** C6 (amended): for every element of class alert in the document when
    the DOMContentLoaded listener runs, in every run of the page from then
    on: before 5300ms have passed no remove callback has run and, on a
    page where showLoading has not been called, the document is as it was,
    the alert in it; before 5000ms have passed, and as long as the fade
    callback of the alert has not run, the opacity of the alert is as it
    was; the fade callback, due at 5000ms, runs no earlier and sets the
    opacity to 0; the remove callback is due 300ms after the fade callback
    ran and runs no earlier, hence no earlier than 5300ms after the
    listener ran (at 5300ms exactly when both run when due, later when one
    runs late), and the alert is then in the document no more; of the
    alert's fade timer, its remove timer and its removal there is always
    exactly one: it is removed at most once, and once when no timer of its
    is pending. *)
Theorem alerts_dismissed_after_delays css w0 schedule w a :
  before_load w0 → well_formed w0 → a ∈ alerts w0 →
  run css schedule (on_DOMContentLoaded w0).2 = Some w →
  (now w < now w0 + 5300 →
     (∀ b due ran, Fired (AlertRemove b) due ran ∉ log w)
     ∧ (text_untouched w → doc w = doc w0 ∧ in_document w a))
  ∧ (now w < now w0 + 5000 ∨ (∀ due ran, Fired (AlertFade a) due ran ∉ log w) →
       opacity_of w a = opacity_of w0 a)
  ∧ (∀ due ran, Fired (AlertFade a) due ran ∈ log w →
       due = now w0 + 5000 ∧ due ≤ ran ∧ ran ≤ now w ∧ opacity_of w a = Some "0")
  ∧ (∀ due ran, Fired (AlertRemove a) due ran ∈ log w →
       (∃ faded, Fired (AlertFade a) (now w0 + 5000) faded ∈ log w
                 ∧ now w0 + 5000 ≤ faded ∧ due = faded + 300 ∧ due ≤ ran ∧ ran ≤ now w)
       ∧ ¬ in_document w a)
  ∧ (pending (AlertFade a) w + pending (AlertRemove a) w + fired (AlertRemove a) w = 1)%nat.
Proof.
  intros Hb Hwf Ha Hrun.
  pose proof (dismissing_run css w0 _ _ _ (dismissing_loaded w0 Hb) Hrun) as Hinv.
  pose proof Ha as [Hdoc (e & He & _)]%elem_of_alerts.
  split; [|split; [|split; [|split]]].
  - intros Hearly.
    assert (∀ b due ran, Fired (AlertRemove b) due ran ∉ log w) as Hnone.
    { intros b due ran Hin.
      destruct (dis_log _ _ Hinv _ _ _ Hin eq_refl) as (? & ? & faded & _ & ? & ?). lia. }
    split; [done|]. intros _.
    assert (doc w = doc w0) as Hd by by apply (dis_kept _ _ Hinv).
    split; [done|]. unfold in_document, nodes. by rewrite Hd.
  - intros Hnot. apply (dis_unfaded _ _ Hinv). intros due ran Hin.
    destruct Hnot as [Hearly|Hnone]; [|by apply (Hnone due ran)].
    destruct (dis_log _ _ Hinv _ _ _ Hin eq_refl) as (? & ? & Hs). simpl in Hs. lia.
  - intros due ran Hin.
    destruct (dis_log _ _ Hinv _ _ _ Hin eq_refl) as (? & ? & Hs). simpl in Hs.
    split; [done|]. split; [done|]. split; [done|].
    rewrite (dis_opacity _ _ Hinv a due ran Hin). unfold opacity_of. by rewrite He.
  - intros due ran Hin.
    destruct (dis_log _ _ Hinv _ _ _ Hin eq_refl) as (? & ? & faded & ? & ? & ?).
    split; [by exists faded|]. by apply (dis_removed _ _ Hinv a due ran).
  - rewrite (dis_count _ _ Hinv a). apply count_NoDup; [by apply alerts_NoDup|done].
Qed.

Lemma alerts_dismissed_after_delays_witness :
  (doc loaded_page = doc (main login_page).2 ∧ in_document loaded_page 6
   ∧ opacity_of loaded_page 6 = opacity_of (main login_page).2 6)
  ∧ log dismissed_page = [Fired (AlertFade 6) 5000 5000; Fired (AlertRemove 6) 5300 5300]
  ∧ opacity_of dismissed_page 6 = Some "0"
  ∧ ¬ in_document dismissed_page 6
  ∧ (pending (AlertFade 6) dismissed_page + pending (AlertRemove 6) dismissed_page
     + fired (AlertRemove 6) dismissed_page = 1)%nat.
Proof.
  assert (before_load (main login_page).2) as Hb.
  { split; [intros tm Hin|intros cb due ran Hin]; by apply elem_of_nil in Hin. }
  assert (well_formed (main login_page).2) as Hwf.
  { unfold well_formed. apply (bool_decide_unpack _). vm_compute. reflexivity. }
  assert (6%nat ∈ alerts (main login_page).2) as Ha.
  { apply (bool_decide_unpack _). vm_compute. reflexivity. }
  assert (run hash_engine [(5000, TimerFires 0); (5300, TimerFires 1)] loaded_page
          = Some dismissed_page) as Hrun.
  { unfold dismissed_page. destruct (run _ _ _) eqn:E; [reflexivity|].
    vm_compute in E. discriminate E. }
  split.
  - destruct (alerts_dismissed_after_delays hash_engine (main login_page).2 [] loaded_page 6
                Hb Hwf Ha eq_refl) as (Hearly & Hopacity & _).
    destruct Hearly as [_ Hkept]; [done|].
    destruct Hkept as [Hd Hin].
    { split.
      - intros tm Htm. apply list_elem_of_singleton in Htm as ->. reflexivity.
      - intros cb due ran Hin. by apply elem_of_nil in Hin. }
    split; [exact Hd|]. split; [exact Hin|]. apply Hopacity. by left.
  - destruct (alerts_dismissed_after_delays hash_engine (main login_page).2 _ _ 6
                Hb Hwf Ha Hrun) as (_ & _ & Hfaded & Hremoved & Hcount).
    assert (log dismissed_page
            = [Fired (AlertFade 6) 5000 5000; Fired (AlertRemove 6) 5300 5300]) as Hlog
      by (vm_compute; reflexivity).
    split; [exact Hlog|]. split; [|split; [|exact Hcount]].
    + apply (Hfaded 5000 5000). rewrite Hlog. by left.
    + apply (Hremoved 5300 5300). rewrite Hlog. right. by left.
Defined.

End ScriptTheory.

Module SqlExtra.
Import Sql SqlTheory.

(** ** The tables of the schema in a reachable state *)

Lemma fresh_schema now name def :
  CreateTableIfNotExists name def ∈ schema_script → t_def <$> fresh now !! name = Some def.
Proof.
  unfold schema_script. rewrite !elem_of_cons, elem_of_nil. intros H.
  repeat destruct H as [H|H]; try done; injection H as -> ->; vm_compute; reflexivity.
Qed.

Lemma schema_table db name def :
  reachable db → CreateTableIfNotExists name def ∈ schema_script →
  ∃ t, db !! name = Some t ∧ t_def t = def.
Proof. intros Hr Hin. apply reachable_table; [done|]. intros now. by apply fresh_schema. Qed.

Lemma schema_columns_NoDup name def :
  CreateTableIfNotExists name def ∈ schema_script → NoDup (map col_name (td_columns def)).
Proof.
  unfold schema_script. rewrite !elem_of_cons, elem_of_nil. intros H.
  repeat destruct H as [H|H]; try done; injection H as -> ->;
    apply (bool_decide_unpack _); vm_compute; reflexivity.
Qed.

Lemma col_index_from_lookup columns :
  ∀ k i c, NoDup (map col_name columns) → columns !! i = Some c →
    col_index_from k (col_name c) columns = Some (k + i)%nat.
Proof.
  induction columns as [|c' cs IH]; intros k i c Hnd Hi; [done|].
  simpl in Hnd. apply NoDup_cons in Hnd as [Hc' Hnd]. destruct i as [|i]; simpl in *.
  - injection Hi as ->. rewrite decide_True by done. f_equal. lia.
  - case_decide as Heq.
    + exfalso. apply Hc'. rewrite Heq. apply list_elem_of_fmap. exists c.
      split; [done|]. by eapply list_elem_of_lookup_2.
    + rewrite (IH (S k) i c Hnd Hi). f_equal. lia.
Qed.

Lemma col_index_lookup columns i c :
  NoDup (map col_name columns) → columns !! i = Some c →
  col_index (col_name c) columns = Some i.
Proof. intros Hnd Hi. unfold col_index. by rewrite (col_index_from_lookup _ 0 i c). Qed.

Lemma schema_column db name def i c :
  reachable db → CreateTableIfNotExists name def ∈ schema_script →
  td_columns def !! i = Some c →
  ∃ t, db !! name = Some t ∧ t_def t = def
       ∧ col_index (col_name c) (td_columns def) = Some i
       ∧ col db name (col_name c) = column_at i (t_rows t).
Proof.
  intros Hr Hin Hc. destruct (schema_table _ _ _ Hr Hin) as (t & Ht & Hd).
  pose proof (col_index_lookup _ _ _ (schema_columns_NoDup _ _ Hin) Hc) as Hi.
  exists t. repeat split; try done. unfold col, column_values. by rewrite Ht, Hd, Hi.
Qed.

(** A property of tables that empty tables have and [insert_row] keeps
    holds of every table of every reachable state. *)
Lemma exec_tables (P : table → Prop) now s db db' :
  (∀ def, P {| t_def := def; t_rows := []; t_auto := 1 |}) →
  (∀ now db tname cols t vals t', P t → insert_row now db tname cols t vals = Ok t' → P t') →
  (∀ name t, db !! name = Some t → P t) → exec now s db = Ok db' →
  ∀ name t, db' !! name = Some t → P t.
Proof.
  intros Hnew Hins Hok Hex. destruct s as [name def|name cols rows]; simpl in Hex.
  - destruct (db !! name) eqn:Hn; [by injection Hex as <-|].
    unfold create_table in Hex. repeat case_match; try done. injection Hex as <-.
    intros name' t. destruct (decide (name = name')) as [<-|Hne].
    + rewrite lookup_insert_eq. intros [= <-]. apply Hnew.
    + rewrite lookup_insert_ne by done. apply Hok.
  - destruct (db !! name) as [t|] eqn:Hn; [|done].
    destruct (fold_result _ t rows) as [t'|] eqn:Hf; simpl in Hex; [|done].
    injection Hex as <-. intros name' t0. destruct (decide (name = name')) as [<-|Hne].
    + rewrite lookup_insert_eq. intros [= <-].
      revert Hf. apply (fold_result_inv P); [|by eapply Hok].
      intros a b a' Ha _ Hi. by eapply Hins.
    + rewrite lookup_insert_ne by done. apply Hok.
Qed.

Lemma run_from_tables (P : table → Prop) now script :
  (∀ def, P {| t_def := def; t_rows := []; t_auto := 1 |}) →
  (∀ now db tname cols t vals t', P t → insert_row now db tname cols t vals = Ok t' → P t') →
  ∀ i db, (∀ name t, db !! name = Some t → P t) →
    ∀ name t, (run_from now i script db).1 !! name = Some t → P t.
Proof.
  intros Hnew Hins. induction script as [|s rest IH]; intros i db Hok; simpl; [done|].
  destruct (exec now s db) eqn:He; [|done]. apply IH. by eapply exec_tables.
Qed.

Lemma reachable_tables (P : table → Prop) :
  (∀ def, P {| t_def := def; t_rows := []; t_auto := 1 |}) →
  (∀ now db tname cols t vals t', P t → insert_row now db tname cols t vals = Ok t' → P t') →
  ∀ db, reachable db → ∀ name t, db !! name = Some t → P t.
Proof.
  intros Hnew Hins db [now Hr].
  assert (∀ name t, fresh now !! name = Some t → P t) as H0.
  { apply run_from_tables; [done..|]. intros name t. by rewrite lookup_empty. }
  induction Hr as [|db1 db2 db3 (now' & s & Hs) _ IH]; [done|].
  apply IH. by eapply exec_tables.
Qed.

(** ** Every stored value fits the type of its column *)

(** What a column of type [ty] can hold: exactly the values [store]
    leaves as they are. *)
Definition fits (ty : sqltype) (v : value) : Prop := store ty v = Some v.

Definition typed (t : table) : Prop :=
  ∀ i c r, td_columns (t_def t) !! i = Some c → r ∈ t_rows t → fits (col_type c) (cell i r).

Definition db_typed (db : gmap string table) : Prop :=
  ∀ name t, db !! name = Some t → typed t.

Lemma rescale_same m s : rescale m s s = m.
Proof.
  unfold rescale. rewrite Nat.leb_refl, Nat.sub_diag. unfold pow10. simpl. lia.
Qed.

Lemma store_fits ty v w : store ty v = Some w → fits ty w.
Proof.
  unfold fits. intros Hs.
  destruct v; destruct ty; cbn zeta beta iota delta [store] in Hs;
    repeat case_match; simplify_eq; try done;
    cbn zeta beta iota delta [store]; rewrite ?rescale_same;
    repeat case_match; simplify_eq; done.
Qed.

Lemma build_cell_fits now tname auto g c w :
  build_cell now tname auto g c = Ok w → fits (col_type c) w.
Proof.
  unfold build_cell.
  destruct (match g with Some _ => _ | None => _ end) as [v|e]; simpl; [|done].
  destruct (is_not_null c && _); [done|].
  destruct (store _ v) eqn:Hs; [|done]. intros [= <-]. by eapply store_fits.
Qed.

Lemma insert_row_typed now db tname cols t vals t' :
  typed t → insert_row now db tname cols t vals = Ok t' → typed t'.
Proof.
  intros Hok (r & Hb & _ & _ & Hd & Hr)%insert_row_ok i c r' Hc Hin.
  rewrite Hd in Hc. rewrite Hr in Hin. apply elem_of_app in Hin as [Hin|Hin].
  - by apply Hok.
  - apply list_elem_of_singleton in Hin as ->.
    eapply build_cell_fits. by eapply build_row_cells.
Qed.

Lemma reachable_typed db : reachable db → db_typed db.
Proof.
  intros Hr. refine (reachable_tables typed _ (@insert_row_typed) db Hr).
  intros def i c r _ Hin. by apply elem_of_nil in Hin.
Qed.

Lemma fits_INT v : fits INT v → v = VNull ∨ ∃ z, v = VInt z ∧ -2147483648 <= z <= 2147483647.
Proof.
  unfold fits. destruct v; simpl; try done; [by left|]. case_match eqn:Hz; [|done].
  intros _. right. eexists. split; [done|]. lia.
Qed.

Lemma fits_VARCHAR n v :
  fits (VARCHAR n) v → v = VNull ∨ ∃ s, v = VStr s ∧ (String.length s <= n)%nat.
Proof.
  unfold fits. destruct v; simpl; try done; [by left|]. case_match eqn:Hz; [|done].
  intros _. right. eexists. split; [done|]. by apply Nat.leb_le.
Qed.

Lemma fits_ENUM labels v : fits (ENUM labels) v → v = VNull ∨ ∃ s, v = VStr s ∧ s ∈ labels.
Proof.
  unfold fits. destruct v; simpl; try done; [by left|]. case_bool_decide; [|done].
  intros _. right. by eexists.
Qed.

Lemma fits_DECIMAL p s v :
  fits (DECIMAL p s) v → v = VNull ∨ ∃ m, v = VDec m s ∧ Z.abs m < pow10 p.
Proof.
  unfold fits. destruct v; cbn zeta beta iota delta [store]; try done; [by left| |].
  - case_match; [|done]. intros [=].
  - case_match eqn:Hz; [|done]. intros [= H1 H2]. right. exists mantissa.
    rewrite H2, rescale_same in *. split; [done|]. lia.
Qed.



(** ** Primary keys and generated keys *)

Definition primary_key (def : table_def) : list column :=
  filter (fun c => has_attr PrimaryKey c = true) (td_columns def).

Lemma schema_primary_key name def :
  CreateTableIfNotExists name def ∈ schema_script →
  ∃ pk attrs rest, td_columns def = pk :: rest ∧ primary_key def = [pk]
    ∧ pk = Col attrs INT [PrimaryKey; AutoIncrement].
Proof.
  unfold schema_script. rewrite !elem_of_cons, elem_of_nil. intros H.
  repeat destruct H as [H|H]; try done; injection H as -> ->;
    eexists _, _, _; repeat split; reflexivity.
Qed.

(** The key counter of a table is at least 1 and above every key the
    table holds in its AUTO_INCREMENT column. *)
Definition auto_ok (t : table) : Prop :=
  1 <= t_auto t
  ∧ ∀ i c r z, list_find (fun c => is_auto c = true) (td_columns (t_def t)) = Some (i, c) →
      r ∈ t_rows t → cell i r = VInt z → z < t_auto t.

Lemma insert_row_next now db tname cols t vals t' :
  insert_row now db tname cols t vals = Ok t' →
  ∃ r, build_row now tname (t_auto t) cols vals (td_columns (t_def t)) = Ok r
       ∧ t_def t' = t_def t ∧ t_rows t' = t_rows t ++ [r]
       ∧ t_auto t' = next_auto (t_auto t) (td_columns (t_def t)) r.
Proof.
  unfold insert_row. repeat case_match; try done.
  destruct (build_row _ _ _ _ _ _) as [r|] eqn:Hr; simpl; [|done].
  destruct (check_unique _ _ _ _ _) as [[]|] eqn:Hu; simpl; [|done].
  destruct (check_fks _ _ _ _ _) as [[]|] eqn:Hf; simpl; [|done].
  intros [= <-]. by exists r.
Qed.

Lemma insert_row_auto_ok now db tname cols t vals t' :
  auto_ok t → insert_row now db tname cols t vals = Ok t' → auto_ok t'.
Proof.
  intros [H1 Hok] (r & _ & Hd & Hr & Ha)%insert_row_next.
  assert (t_auto t <= t_auto t') as Hle.
  { rewrite Ha. unfold next_auto. repeat case_match; lia. }
  split; [lia|]. intros i c r' z Hf Hin Hz. rewrite Hd in Hf. rewrite Hr in Hin.
  apply elem_of_app in Hin as [Hin|Hin].
  - specialize (Hok i c r' z Hf Hin Hz). lia.
  - apply list_elem_of_singleton in Hin as ->.
    rewrite Ha. unfold next_auto. rewrite Hf, Hz. lia.
Qed.

Lemma reachable_auto_ok db name t : reachable db → db !! name = Some t → auto_ok t.
Proof.
  intros Hr. revert name t. refine (reachable_tables auto_ok _ (@insert_row_auto_ok) db Hr).
  intros def. split; [simpl; lia|]. intros i c r z _ Hin. by apply elem_of_nil in Hin.
Qed.

(** X2: each of the nine tables has exactly one PRIMARY KEY column, its
    first, an INT AUTO_INCREMENT.  In every reachable state that column
    holds one integer per row, no NULL, no value twice, and every key is
    below the table's key counter. *)
Theorem primary_keys_identify_rows db name def :
  reachable db → CreateTableIfNotExists name def ∈ schema_script →
  ∃ pk, primary_key def = [pk] ∧ col_type pk = INT ∧ is_auto pk = true
    ∧ length (col db name (col_name pk)) = row_count db name
    ∧ NoDup (col db name (col_name pk))
    ∧ (∀ v, v ∈ col db name (col_name pk) →
         ∃ z, v = VInt z ∧ ∀ t, db !! name = Some t → z < t_auto t).
Proof.
  intros Hr Hin. destruct (schema_primary_key _ _ Hin) as (pk & n & rest & Hcols & Hpk & ->).
  assert (td_columns def !! 0%nat = Some (Col n INT [PrimaryKey; AutoIncrement])) as Hc
    by by rewrite Hcols.
  destruct (schema_column _ _ _ _ _ Hr Hin Hc) as (t & Ht & Hd & _ & Hcol).
  exists (Col n INT [PrimaryKey; AutoIncrement]). rewrite Hcol.
  destruct (reachable_db_ok _ Hr _ _ Ht) as [Hok _].
  rewrite <- Hd in Hc. destruct (Hok _ _ Hc) as [Hkey Hnn].
  specialize (Hkey eq_refl). specialize (Hnn eq_refl).
  split; [done|]. split; [done|]. split; [done|]. split; [|split].
  - unfold row_count, rows_of, column_at. by rewrite Ht, length_map.
  - by rewrite <- (filter_not_null (column_at 0 (t_rows t))).
  - intros v Hv. pose proof Hv as (r & -> & Hrow)%list_elem_of_fmap.
    pose proof (reachable_typed _ Hr _ _ Ht _ _ _ Hc Hrow) as [Hz|(z & Hz & _)]%fits_INT.
    { rewrite <- Hz in Hnn. done. }
    exists z. split; [done|]. intros t' Ht'. rewrite Ht in Ht'. injection Ht' as <-.
    destruct (reachable_auto_ok _ _ _ Hr Ht) as [_ Hauto].
    apply (Hauto 0%nat (Col n INT [PrimaryKey; AutoIncrement]) r); [|done..].
    by rewrite Hd, Hcols.
Qed.

Lemma primary_keys_identify_rows_witness :
  ∃ pk, primary_key course_def = [pk] ∧ col_type pk = INT ∧ is_auto pk = true
    ∧ length (col (seeded 0) "course" (col_name pk)) = row_count (seeded 0) "course"
    ∧ NoDup (col (seeded 0) "course" (col_name pk))
    ∧ (∀ v, v ∈ col (seeded 0) "course" (col_name pk) →
         ∃ z, v = VInt z ∧ ∀ t, seeded 0 !! "course" = Some t → z < t_auto t).
Proof.
  apply (primary_keys_identify_rows (seeded 0) "course" course_def (seeded_reachable 0)).
  unfold schema_script. rewrite !elem_of_cons. do 3 right. by left.
Defined.

Lemma given_not_listed c cols : ∀ vals, c ∉ cols → given c cols vals = None.
Proof.
  induction cols as [|c' cols IH]; intros vals Hc; [done|].
  apply not_elem_of_cons in Hc as [Hne Hc]. destruct vals as [|v vals]; [done|].
  simpl. rewrite decide_False by done. by apply IH.
Qed.

Lemma insert_rows_generated now db name cols n rest rows :
  n ∉ cols →
  ∀ t t', td_columns (t_def t) = Col n INT [PrimaryKey; AutoIncrement] :: rest →
    fold_result (insert_row now db name cols) t rows = Ok t' →
    column_at 0 (t_rows t')
      = column_at 0 (t_rows t) ++ (VInt <$> seqZ (t_auto t) (Z.of_nat (length rows)))
    ∧ t_auto t' = t_auto t + Z.of_nat (length rows).
Proof.
  intros Hn. induction rows as [|vals rows IH]; intros t t' Hcols; simpl.
  - intros [= <-]. rewrite app_nil_r. split; [done|lia].
  - destruct (insert_row now db name cols t vals) as [t1|] eqn:Hi; simpl; [|done].
    intros Hf. apply insert_row_next in Hi as (r & Hb & Hd & Hr & Ha).
    pose proof (build_row_cells _ _ _ _ _ _ _ Hb 0%nat _ ltac:(by rewrite Hcols)) as Hcell.
    simpl in Hcell. rewrite (given_not_listed _ _ _ Hn) in Hcell.
    unfold build_cell in Hcell. simpl in Hcell.
    destruct ((-2147483648 <=? t_auto t) && (t_auto t <=? 2147483647)); [|done].
    injection Hcell as Hcell.
    assert (t_auto t1 = t_auto t + 1) as Ha1.
    { rewrite Ha, Hcols. unfold next_auto. simpl. rewrite <- Hcell. lia. }
    destruct (IH t1 t' ltac:(by rewrite Hd) Hf) as [Hcol Hauto].
    rewrite Hcol, Hr, column_at_snoc, <- Hcell, Ha1, <- app_assoc. split; [|lia].
    f_equal. rewrite Nat2Z.inj_succ. rewrite (seqZ_cons (t_auto t)) by lia. simpl.
    repeat f_equal; lia.
Qed.

(** The key counter of a table: the key its next generated row gets. *)
Definition key_counter (db : gmap string table) (name : string) : option Z :=
  t_auto <$> db !! name.

Lemma exec_apply now s db : is_ok (exec now s db) = true → exec now s db = Ok (apply now s db).
Proof. unfold apply, run_script. simpl. by destruct (exec now s db). Qed.

(** X3: the rows of an accepted INSERT that does not list the primary key
    get consecutive generated keys, in row order, starting at the table's
    key counter, which is at least 1 and above every key the table held;
    the counter moves past them. *)
Theorem generated_keys_consecutive db db' now name def cols rows pk a :
  reachable db → CreateTableIfNotExists name def ∈ schema_script →
  primary_key def = [pk] → col_name pk ∉ cols → key_counter db name = Some a →
  exec now (InsertInto name cols rows) db = Ok db' →
  col db' name (col_name pk)
    = col db name (col_name pk) ++ (VInt <$> seqZ a (Z.of_nat (length rows)))
  ∧ 1 <= a
  ∧ (∀ z, VInt z ∈ col db name (col_name pk) → z < a)
  ∧ key_counter db' name = Some (a + Z.of_nat (length rows)).
Proof.
  intros Hr Hin Hpk Hn Ha Hex.
  destruct (schema_primary_key _ _ Hin) as (pk' & n & rest & Hcols & Hpk' & ->).
  rewrite Hpk in Hpk'. injection Hpk' as ->.
  assert (td_columns def !! 0%nat = Some (Col n INT [PrimaryKey; AutoIncrement])) as Hc
    by by rewrite Hcols.
  destruct (schema_column _ _ _ _ _ Hr Hin Hc) as (t & Ht & Hd & Hi & Hcol).
  unfold key_counter in *. rewrite Ht in Ha. injection Ha as <-. rewrite Hcol.
  simpl in Hex. rewrite Ht in Hex.
  destruct (fold_result _ t rows) as [t'|] eqn:Hf; simpl in Hex; [|done].
  injection Hex as <-.
  destruct (insert_rows_grow _ _ _ _ _ _ _ Hf) as [Hd' _].
  destruct (insert_rows_generated _ _ _ _ _ _ _ Hn t t' ltac:(by rewrite Hd) Hf)
    as [Hnew Hauto].
  destruct (reachable_auto_ok _ _ _ Hr Ht) as [H1 Hold].
  split; [|split; [done|split]].
  - unfold col, column_values. rewrite lookup_insert_eq, Hd', Hd, Hi. exact Hnew.
  - intros z (r & Hz & Hrow)%list_elem_of_fmap.
    apply (Hold 0%nat (Col n INT [PrimaryKey; AutoIncrement]) r); [|done..].
    by rewrite Hd, Hcols.
  - by rewrite lookup_insert_eq, <- Hauto.
Qed.

Lemma generated_keys_consecutive_witness :
  col (apply 1 insert_exams (seeded 0)) "exam" "exam_id"
  = col (seeded 0) "exam" "exam_id" ++ (VInt <$> seqZ 8 7).
Proof.
  refine (proj1 (generated_keys_consecutive (seeded 0) _ 1 "exam" exam_def
                   ["exam_type"; "exam_fee"] _ (Col "exam_id" INT [PrimaryKey; AutoIncrement]) 8
                   (seeded_reachable 0) _ eq_refl _ _ (exec_apply 1 insert_exams _ _))).
  - unfold schema_script. rewrite !elem_of_cons. do 5 right. by left.
  - apply (bool_decide_unpack _). vm_compute. reflexivity.
  - vm_compute. reflexivity.
  - vm_compute. reflexivity.
Defined.

(** ** NOT NULL columns *)

Lemma schema_not_null_no_default name def c now :
  CreateTableIfNotExists name def ∈ schema_script → c ∈ td_columns def →
  is_not_null c = true → is_auto c = false → default_of now (col_attrs c) = None.
Proof.
  intros Hin Hc Hnn Hauto.
  assert (forallb (fun c => implb (is_not_null c && negb (is_auto c))
                              (bool_decide (default_of now (col_attrs c) = None)))
            (td_columns def) = true) as Hall.
  { revert Hin. unfold schema_script. rewrite !elem_of_cons, elem_of_nil. intros H.
    repeat destruct H as [H|H]; try done; injection H as -> ->; vm_compute; reflexivity. }
  rewrite forallb_forall in Hall. apply list_elem_of_In in Hc. specialize (Hall c Hc).
  rewrite Hnn, Hauto in Hall. simpl in Hall. by apply bool_decide_eq_true in Hall.
Qed.

(** X4: in every reachable state a NOT NULL column of the schema holds
    no NULL; none of them has a DEFAULT, so an INSERT one of whose rows
    gives such a column NULL, or gives it no value (the primary keys
    apart, which are generated), is rejected and leaves the database as
    it was. *)
Theorem not_null_columns_required db name def c :
  reachable db → CreateTableIfNotExists name def ∈ schema_script →
  c ∈ td_columns def → is_not_null c = true →
  (VNull ∉ col db name (col_name c))
  ∧ (is_auto c = false → ∀ now cols rows r,
       r ∈ rows →
       given (col_name c) cols r = Some VNull ∨ given (col_name c) cols r = None →
       is_ok (exec now (InsertInto name cols rows) db) = false
       ∧ apply now (InsertInto name cols rows) db = db).
Proof.
  intros Hr Hin Hmem Hnn. pose proof Hmem as (i & Hc)%list_elem_of_lookup_1.
  destruct (schema_column _ _ _ _ _ Hr Hin Hc) as (t & Ht & Hd & _ & Hcol). split.
  - rewrite Hcol. destruct (reachable_db_ok _ Hr _ _ Ht) as [Hok _].
    rewrite <- Hd in Hc. by apply (Hok _ _ Hc).
  - intros Hauto now cols rows r Hrow Hgiven.
    apply (insert_rejected _ _ _ _ _ t r (fun t1 => t_def t1 = def)); [done..| |].
    + intros t1 vals t2 Hd1 (r' & _ & _ & _ & Hd2 & _)%insert_row_ok. congruence.
    + intros t1 t2 Hd1 (r' & Hb & _)%insert_row_ok. rewrite Hd1 in Hb.
      pose proof (build_row_cells _ _ _ _ _ _ _ Hb i c Hc) as Hcell.
      unfold build_cell in Hcell. rewrite Hauto, Hnn in Hcell.
      destruct Hgiven as [Hg|Hg]; rewrite Hg in Hcell; simpl in Hcell; [done|].
      by rewrite (schema_not_null_no_default _ _ _ now Hin Hmem Hnn Hauto) in Hcell.
Qed.

Lemma not_null_columns_required_witness :
  (VNull ∉ col (seeded 0) "registration" "password")
  ∧ is_ok (exec 1 (InsertInto "registration" ["username"; "email_id"; "mobile_no"]
                     [[VStr "u"; VStr "u@skylink.edu"; VStr "1"]]) (seeded 0)) = false.
Proof.
  destruct (not_null_columns_required (seeded 0) "registration" registration_def
              (Col "password" (VARCHAR 255) [NotNull]) (seeded_reachable 0)) as [Hnn Hrej].
  - unfold schema_script. rewrite !elem_of_cons. by left.
  - by apply (list_elem_of_lookup_2 _ 2%nat).
  - reflexivity.
  - split; [exact Hnn|].
    refine (proj1 (Hrej eq_refl 1 _ _ [VStr "u"; VStr "u@skylink.edu"; VStr "1"] _ _)).
    + by apply list_elem_of_singleton.
    + by right.
Defined.

(** ** Course codes *)

Lemma fresh_course now : t_def <$> fresh now !! "course" = Some course_def.
Proof. vm_compute. reflexivity. Qed.

(** X5: in every reachable state the values of course.course_code are
    pairwise distinct, and an INSERT that would put a code into the column
    twice is rejected and leaves the database as it was. *)
Theorem course_codes_unique db :
  reachable db →
  distinct_column db "course" "course_code" ∧ rejects_duplicates db "course" "course_code".
Proof.
  intros Hr.
  by apply (unique_column db "course" course_def 2
              (Col "course_code" (VARCHAR 20) [Unique; NotNull]) 20 Hr fresh_course).
Qed.

Lemma course_codes_unique_witness :
  distinct_column (seeded 0) "course" "course_code"
  ∧ is_ok (exec 1 (InsertInto "course" ["course_name"; "course_code"; "duration_years"]
                     [[VStr "Business Analytics"; VStr "MBA"; VInt 2]]) (seeded 0)) = false.
Proof.
  destruct (course_codes_unique (seeded 0) (seeded_reachable 0)) as [Hd Hrej].
  split; [exact Hd|].
  assert (duplicating (seeded 0) "course" "course_code"
            ["course_name"; "course_code"; "duration_years"]
            [[VStr "Business Analytics"; VStr "MBA"; VInt 2]]) as Hdup.
  { left. eexists _, (VStr "MBA"). split; [by apply list_elem_of_singleton|].
    split; [reflexivity|]. apply (bool_decide_unpack _). vm_compute. reflexivity. }
  exact (proj1 (Hrej 1 _ _ Hdup)).
Defined.

(** ** Foreign keys *)

Lemma schema_foreign_key name def fk :
  CreateTableIfNotExists name def ∈ schema_script → fk ∈ td_fkeys def →
  ∃ i attrs, td_columns def !! i = Some (Col (fk_column fk) INT attrs)
    ∧ is_auto (Col (fk_column fk) INT attrs) = false.
Proof.
  unfold schema_script. rewrite !elem_of_cons, elem_of_nil. intros H.
  repeat destruct H as [H|H]; try done; injection H as -> ->;
    cbn [td_fkeys registration_def admission_def student_def course_def activity_def
           exam_def result_def fee_def social_activity_def];
    rewrite ?elem_of_cons, elem_of_nil; intros Hfk;
    repeat destruct Hfk as [Hfk|Hfk]; try done; subst fk;
    first [ by exists 1%nat, [] | by exists 2%nat, [] ].
Qed.

Lemma build_cell_int now tname auto c v w :
  is_auto c = false → col_type c = INT →
  build_cell now tname auto (Some v) c = Ok w → v ≠ VNull → w = v.
Proof.
  unfold build_cell. intros -> ->. simpl. destruct (is_not_null c && _); [done|].
  destruct v; simpl; repeat case_match; intros ? ?; by simplify_eq.
Qed.

(** X6: for each of the seven foreign keys of the schema, in every
    reachable state every value of the referencing column other than NULL
    is held by the referenced column, and an INSERT one of whose rows
    gives the referencing column an integer that the referenced column
    does not hold is rejected and leaves the database as it was. *)
Theorem foreign_keys_enforced db name def fk :
  reachable db → CreateTableIfNotExists name def ∈ schema_script → fk ∈ td_fkeys def →
  (∀ v, v ∈ col db name (fk_column fk) →
        v = VNull ∨ v ∈ col db (fk_table fk) (fk_ref fk))
  ∧ rejects_dangling db name (fk_column fk) (fk_table fk) (fk_ref fk).
Proof.
  intros Hr Hin Hfk. destruct (schema_foreign_key _ _ _ Hin Hfk) as (i & attrs & Hc & Hauto).
  destruct (schema_column _ _ _ _ _ Hr Hin Hc) as (t & Ht & Hd & Hi & Hcol).
  simpl in Hi, Hcol. split.
  - rewrite Hcol. unfold column_at. intros v (r & -> & Hrow)%list_elem_of_fmap.
    destruct (reachable_db_ok _ Hr _ _ Ht) as [_ Hok].
    apply (Hok fk i r); by rewrite ?Hd.
  - intros now cols rows r z Hrow Hgiven Hv.
    apply (insert_rejected _ _ _ _ _ t r (fun t1 => t_def t1 = def)); [done..| |].
    + intros t1 vals t2 Hd1 (r' & _ & _ & _ & Hd2 & _)%insert_row_ok. congruence.
    + intros t1 t2 Hd1 (r' & Hb & _ & Hf & _)%insert_row_ok. rewrite Hd1 in Hb, Hf.
      pose proof (build_row_cells _ _ _ _ _ _ _ Hb i _ Hc) as Hcell.
      simpl in Hcell. rewrite Hgiven in Hcell.
      apply build_cell_int in Hcell; [|done..].
      pose proof (check_fks_ok _ _ _ _ _ Hf fk Hfk) as Hck.
      destruct (check_fk_ok _ _ _ _ fk i Hck Hi) as [H1|H1]; rewrite Hcell in H1; done.
Qed.

Lemma foreign_keys_enforced_witness :
  (VInt 2 = VNull ∨ VInt 2 ∈ col (seeded 0) "registration" "id")
  ∧ is_ok (exec 1 (InsertInto "result" ["exam_id"; "course_name"; "subject"; "obtain_marks";
                                         "total_marks"; "result_status"]
                     [[VInt 8; VStr "Data Science"; VStr "Statistics"; VInt 70; VInt 100;
                       VStr "Pass"]]) (seeded 0)) = false.
Proof.
  split.
  - refine (proj1 (foreign_keys_enforced (seeded 0) "admission" admission_def
                     (ForeignKey "registration_id" "registration" "id")
                     (seeded_reachable 0) _ _) (VInt 2) _).
    + unfold schema_script. rewrite !elem_of_cons. right. by left.
    + by apply list_elem_of_singleton.
    + apply (bool_decide_unpack _). vm_compute. reflexivity.
  - refine (proj1 (proj2 (foreign_keys_enforced (seeded 0) "result" result_def
                     (ForeignKey "exam_id" "exam" "exam_id")
                     (seeded_reachable 0) _ _) 1 _ _
                     [VInt 8; VStr "Data Science"; VStr "Statistics"; VInt 70; VInt 100;
                       VStr "Pass"] 8 _ _ _)).
    + unfold schema_script. rewrite !elem_of_cons. do 6 right. by left.
    + apply (list_elem_of_lookup_2 _ 1%nat). reflexivity.
    + by apply list_elem_of_singleton.
    + reflexivity.
    + apply (bool_decide_unpack _). vm_compute. reflexivity.
Defined.

(** ** Columns an INSERT leaves out *)

(** What a column other than the generated key holds when an INSERT does
    not list it: its DEFAULT ([now] for CURRENT_TIMESTAMP), else NULL. *)
Definition omitted (now : Z) (c : column) : value :=
  default VNull (default_of now (col_attrs c)).

Definition default_fits (now : Z) (c : column) : bool :=
  match default_of now (col_attrs c), col_type c with
  | None, _ => true
  | Some (VTime _), TIMESTAMP => true
  | Some (VStr s), ENUM labels => bool_decide (s ∈ labels)
  | Some _, _ => false
  end.

Lemma schema_defaults_fit name def c now :
  CreateTableIfNotExists name def ∈ schema_script → c ∈ td_columns def →
  store (col_type c) (omitted now c) = Some (omitted now c).
Proof.
  intros Hin Hc.
  assert (forallb (default_fits now) (td_columns def) = true) as Hall.
  { revert Hin. unfold schema_script. rewrite !elem_of_cons, elem_of_nil. intros H.
    repeat destruct H as [H|H]; try done; injection H as -> ->; vm_compute; reflexivity. }
  rewrite forallb_forall in Hall. apply list_elem_of_In in Hc. specialize (Hall c Hc).
  unfold default_fits, omitted in *.
  destruct (default_of now (col_attrs c)) as [[]|]; destruct (col_type c); try done.
  simpl. by rewrite Hall.
Qed.

Lemma build_cell_omitted now tname auto c w :
  is_auto c = false → store (col_type c) (omitted now c) = Some (omitted now c) →
  build_cell now tname auto None c = Ok w → w = omitted now c.
Proof.
  unfold build_cell, omitted. intros -> Hs.
  destruct (default_of now (col_attrs c)) as [d|]; simpl in *.
  - destruct (is_not_null c && _); [done|]. rewrite Hs. by intros [= <-].
  - destruct (is_not_null c); simpl; [done|]. by intros [= <-].
Qed.

Lemma insert_rows_omitted now db name cols def i c rows :
  td_columns def !! i = Some c → is_auto c = false → col_name c ∉ cols →
  store (col_type c) (omitted now c) = Some (omitted now c) →
  ∀ t t', t_def t = def → fold_result (insert_row now db name cols) t rows = Ok t' →
    column_at i (t_rows t') = column_at i (t_rows t) ++ replicate (length rows) (omitted now c).
Proof.
  intros Hc Hauto Hn Hs. induction rows as [|vals rows IH]; intros t t' Hd; simpl.
  - intros [= <-]. by rewrite app_nil_r.
  - destruct (insert_row now db name cols t vals) as [t1|] eqn:Hi; simpl; [|done].
    intros Hf. apply insert_row_ok in Hi as (r & Hb & _ & _ & Hd1 & Hr).
    rewrite Hd in Hb. pose proof (build_row_cells _ _ _ _ _ _ _ Hb i c Hc) as Hcell.
    rewrite (given_not_listed _ _ _ Hn) in Hcell.
    apply build_cell_omitted in Hcell; [|done..].
    rewrite (IH t1 t' ltac:(congruence) Hf), Hr, column_at_snoc, Hcell, <- app_assoc.
    done.
Qed.

(** X7: when an INSERT into a table of the schema is accepted, every
    column it does not list, the generated key apart, holds in each new row
    its DEFAULT (the time of the statement for created_at, 'Pending' for
    admission.status and fee.payment_status), and NULL when it has none. *)
Theorem omitted_columns_take_defaults db db' now name def cols rows c :
  reachable db → CreateTableIfNotExists name def ∈ schema_script →
  c ∈ td_columns def → is_auto c = false → col_name c ∉ cols →
  exec now (InsertInto name cols rows) db = Ok db' →
  col db' name (col_name c)
    = col db name (col_name c) ++ replicate (length rows) (omitted now c)
  ∧ (c = created_at → omitted now c = VTime now)
  ∧ (col_name c ∈ ["status"; "payment_status"] → omitted now c = VStr "Pending").
Proof.
  intros Hr Hin Hmem Hauto Hn Hex. pose proof Hmem as (i & Hc)%list_elem_of_lookup_1.
  destruct (schema_column _ _ _ _ _ Hr Hin Hc) as (t & Ht & Hd & Hi & Hcol).
  split; [|split].
  - rewrite Hcol. simpl in Hex. rewrite Ht in Hex.
    destruct (fold_result _ t rows) as [t'|] eqn:Hf; simpl in Hex; [|done].
    injection Hex as <-. destruct (insert_rows_grow _ _ _ _ _ _ _ Hf) as [Hd' _].
    unfold col, column_values. rewrite lookup_insert_eq, Hd', Hd, Hi.
    apply (insert_rows_omitted now db name cols def i c rows); try done.
    by eapply schema_defaults_fit.
  - by intros ->.
  - assert (forallb (fun c => implb (bool_decide (col_name c ∈ ["status"; "payment_status"]))
                                (bool_decide (omitted now c = VStr "Pending")))
              (td_columns def) = true) as Hall.
    { revert Hin. unfold schema_script. rewrite !elem_of_cons, elem_of_nil. intros H.
      repeat destruct H as [H|H]; try done; injection H as -> ->; vm_compute; reflexivity. }
    rewrite forallb_forall in Hall. apply list_elem_of_In in Hmem.
    specialize (Hall c Hmem). intros Hname.
    rewrite (bool_decide_eq_true_2 _ Hname) in Hall. by apply bool_decide_eq_true in Hall.
Qed.

Definition insert_unpaid_fee : stmt :=
  InsertInto "fee" ["admission_id"; "student_name"; "course_name"; "amount"; "payment_method"]
    [ [VInt 1; VStr "John Doe"; VStr "Bachelor of Business Administration"; VDec 150000 2;
       VStr "Cash"] ].

Lemma omitted_columns_take_defaults_witness :
  col (apply 1 insert_unpaid_fee (seeded 0)) "fee" "payment_status"
  = col (seeded 0) "fee" "payment_status" ++ [VStr "Pending"].
Proof.
  refine (proj1 (omitted_columns_take_defaults (seeded 0) _ 1 "fee" fee_def _ _
                   (Col "payment_status" (ENUM ["Pending"; "Paid"; "Failed"])
                      [Default (VStr "Pending")])
                   (seeded_reachable 0) _ _ eq_refl _ (exec_apply 1 insert_unpaid_fee _ _))).
  - unfold schema_script. rewrite !elem_of_cons. do 7 right. by left.
  - by apply (list_elem_of_lookup_2 _ 7%nat).
  - apply (bool_decide_unpack _). vm_compute. reflexivity.
  - vm_compute. reflexivity.
Defined.

(** ** A column without a constraint *)

Definition insert_student_activity (name course : string) (z : Z) : stmt :=
  InsertInto "student" ["student_name"; "course_name"; "activity_id"]
    [ [VStr name; VStr course; VInt z] ].

(** X8: student.activity_id is a plain INT column: no FOREIGN KEY names
    it.  In every reachable state whose student key counter is still an
    INT, a student row with any 32-bit activity_id is accepted and stored
    as given, whether or not an activity row has that key. *)
Theorem student_activity_unchecked db now a name course z :
  reachable db → key_counter db "student" = Some a → a <= 2147483647 →
  (String.length name <= 100)%nat → (String.length course <= 100)%nat →
  -2147483648 <= z <= 2147483647 →
  fk_column <$> td_fkeys student_def = ["admission_id"]
  ∧ ∃ db', exec now (insert_student_activity name course z) db = Ok db'
      ∧ col db' "student" "activity_id" = col db "student" "activity_id" ++ [VInt z]
      ∧ col db' "activity" "activity_id" = col db "activity" "activity_id".
Proof.
  intros Hr Ha Hmax Hn Hc Hz. split; [done|].
  destruct (reachable_table _ _ _ Hr fresh_student) as (t & Ht & Hd).
  unfold key_counter in Ha. rewrite Ht in Ha. injection Ha as <-.
  destruct (reachable_auto_ok _ _ _ Hr Ht) as [H1 Hold].
  pose (r := [VInt (t_auto t); VNull; VStr name; VStr course; VInt z; VTime now]).
  assert (build_row now "student" (t_auto t) ["student_name"; "course_name"; "activity_id"]
            [VStr name; VStr course; VInt z] (td_columns student_def) = Ok r) as Hb.
  { simpl. unfold build_cell. simpl.
    replace ((-2147483648 <=? t_auto t) && (t_auto t <=? 2147483647)) with true by lia.
    replace ((-2147483648 <=? z) && (z <=? 2147483647)) with true by lia.
    apply Nat.leb_le in Hn, Hc. by rewrite Hn, Hc. }
  assert (VInt (t_auto t) ∉ column_at 0 (t_rows t)) as Hfresh.
  { intros (r' & Hz' & Hrow)%list_elem_of_fmap.
    assert (t_auto t < t_auto t); [|lia].
    apply (Hold 0%nat (Col "student_id" INT [PrimaryKey; AutoIncrement]) r'); [|done..].
    by rewrite Hd. }
  assert (insert_row now db "student" ["student_name"; "course_name"; "activity_id"] t
            [VStr name; VStr course; VInt z]
          = Ok {| t_def := student_def; t_rows := t_rows t ++ [r];
                  t_auto := Z.max (t_auto t) (t_auto t + 1) |}) as Hi.
  { unfold insert_row. rewrite Hd.
    change (negb (length ["student_name"; "course_name"; "activity_id"]
                  =? length [VStr name; VStr course; VInt z])%nat) with false.
    cbv beta iota zeta. rewrite bool_decide_eq_true_2 by (by apply (bool_decide_unpack _)).
    change (list_find _ ["student_name"; "course_name"; "activity_id"])
      with (@None (nat * string)).
    cbv beta iota zeta. rewrite Hb. simpl.
    rewrite (bool_decide_eq_false_2 _ Hfresh). simpl. done. }
  eexists. unfold insert_student_activity. cbn [exec]. rewrite Ht.
  cbn [fold_result]. rewrite Hi. simpl. split; [done|].
  unfold col, column_values. rewrite lookup_insert_eq, lookup_insert_ne, Ht, Hd by done.
  simpl. by rewrite column_at_snoc.
Qed.

Lemma student_activity_unchecked_witness :
  col (seeded 0) "activity" "activity_id" = []
  ∧ fk_column <$> td_fkeys student_def = ["admission_id"]
  ∧ ∃ db', exec 1 (insert_student_activity "Jane Roe" "Data Science" 99) (seeded 0) = Ok db'
      ∧ col db' "student" "activity_id" = col (seeded 0) "student" "activity_id" ++ [VInt 99]
      ∧ col db' "activity" "activity_id" = col (seeded 0) "activity" "activity_id".
Proof.
  split; [vm_compute; reflexivity|].
  apply (student_activity_unchecked (seeded 0) 1 2 "Jane Roe" "Data Science" 99
           (seeded_reachable 0)).
  - vm_compute. reflexivity.
  - lia.
  - simpl. lia.
  - simpl. lia.
  - lia.
Defined.

End SqlExtra.

Module ScriptExtra.
Import Script ScriptTheory.

(** ** What the script only reads

    Of an element object the script writes [style], [textContent] and
    [disabled]; the tag, id, classes, value and the content attributes
    other than [style] and [disabled] (see [attributes]) it only reads. *)

Definition core (e : element)
    : string * option string * list string * list (string * string) * jsstring :=
  (localName e, el_id e, classList e, attributes e, value e).

(** [w'] has the element objects of [w] with what the script only reads
    as it was, the listeners of [w], and no element that [w] has not, the
    elements it has in the order they had. *)
Definition frame (w w' : world) : Prop :=
  (∀ n, core <$> heap w' !! n = core <$> heap w !! n)
  ∧ listeners w' = listeners w
  ∧ (nodes w').*1 `sublist_of` (nodes w).*1.

Definition frame_m {A} (m : js_m A) : Prop := ∀ w, frame w (m w).2.

Lemma frame_refl w : frame w w.
Proof. by repeat split. Qed.

Lemma frame_trans w1 w2 w3 : frame w1 w2 → frame w2 w3 → frame w1 w3.
Proof.
  intros (Hc & Hl & Hn) (Hc' & Hl' & Hn'). split; [|split].
  - intros n. by rewrite Hc', Hc.
  - congruence.
  - by etrans.
Qed.

Lemma frame_bind {A B} (m : js_m A) (k : A → js_m B) :
  frame_m m → (∀ a, frame_m (k a)) → frame_m (m ≫= k).
Proof.
  intros Hm Hk w. specialize (Hm w). unfold mbind, js_bind.
  destruct (m w) as [[a|e] w1]; simpl in *; [|done].
  eapply frame_trans; [done|apply Hk].
Qed.

Lemma frame_ret {A} (a : A) : frame_m (mret a).
Proof. intros w. apply frame_refl. Qed.

Lemma frame_throw {A} e : frame_m (@throw A e).
Proof. intros w. apply frame_refl. Qed.

Lemma frame_read {A} (f : world → A) : frame_m (read f).
Proof. intros w. apply frame_refl. Qed.

Lemma frame_deref o : frame_m (deref o).
Proof. destruct o; [apply frame_ret|apply frame_throw]. Qed.

Lemma frame_modify n f : (∀ e, core (f e) = core e) → frame_m (modify n f).
Proof.
  intros Hf w. split; [|by split]. intros m. simpl.
  destruct (decide (n = m)) as [->|Hne].
  - rewrite lookup_alter_eq. destruct (heap w !! m); simpl; [|done]. by rewrite Hf.
  - by rewrite lookup_alter_ne.
Qed.

Lemma frame_record e : frame_m (record e).
Proof. intros w. by repeat split. Qed.

Lemma frame_setTimeout cb delay : frame_m (setTimeout cb delay).
Proof. intros w. by repeat split. Qed.

Lemma frame_querySelector_dynamic css s : frame_m (querySelector_dynamic css s).
Proof. intros w. apply frame_refl. Qed.

Definition prune_sub (n : nat) (t : tree) : Prop :=
  ∀ first, (walk first (prune n t)).*1 `sublist_of` (walk first t).*1.

Lemma prune_forest_sublist_aux n ks :
  Forall (prune_sub n) ks →
  ∀ first, (walk_forest first (prune_forest n ks)).*1 `sublist_of` (walk_forest first ks).*1.
Proof.
  induction 1 as [|k ks Hk _ IH]; intros first; simpl; [done|].
  case_decide as Hn.
  - rewrite fmap_app. apply sublist_inserts_l.
    rewrite (walk_forest_ids first false). apply IH.
  - simpl. rewrite !fmap_app. apply sublist_app; [apply Hk|apply IH].
Qed.

Lemma prune_tree_sublist n t : prune_sub n t.
Proof.
  induction t as [n' ks IH] using tree_ind. intros first.
  rewrite prune_node, !walk_node. simpl. apply sublist_skip.
  by apply prune_forest_sublist_aux.
Qed.

Lemma prune_forest_sublist n ks first :
  (walk_forest first (prune_forest n ks)).*1 `sublist_of` (walk_forest first ks).*1.
Proof. apply prune_forest_sublist_aux, Forall_forall. intros t _. apply prune_tree_sublist. Qed.

Lemma frame_remove n : frame_m (remove n).
Proof. intros w. split; [done|]. split; [done|]. apply prune_forest_sublist. Qed.

Lemma frame_forEach {A} (f : A → js_m ()) l : (∀ a, frame_m (f a)) → frame_m (forEach f l).
Proof.
  intros Hf. induction l as [|a l IH]; simpl; [apply frame_ret|].
  apply frame_bind; [apply Hf|by intros _].
Qed.

Ltac frame_step :=
  first
    [ apply frame_bind; [|intros ?]
    | apply frame_read | apply frame_deref | apply frame_modify; intros ?; reflexivity
    | apply frame_ret | apply frame_throw | apply frame_querySelector_dynamic
    | apply frame_record | apply frame_setTimeout | apply frame_remove ].

Lemma frame_showRegister : frame_m showRegister.
Proof. unfold showRegister, querySelector, querySelectorAll, getElementById. repeat frame_step. Qed.

Lemma frame_showLogin : frame_m showLogin.
Proof. unfold showLogin, querySelector, querySelectorAll, getElementById. repeat frame_step. Qed.

Lemma frame_showLoading button : frame_m (showLoading button).
Proof. unfold showLoading. repeat frame_step. Qed.

Lemma frame_on_submit form : frame_m (on_submit form).
Proof.
  unfold on_submit, querySelector_in, querySelectorAll_in. repeat frame_step.
  case_match; [apply frame_showLoading|apply frame_ret].
Qed.

Lemma frame_on_click css this : frame_m (on_click css this).
Proof. unfold on_click. repeat frame_step. case_match; repeat frame_step. Qed.

Lemma frame_validate_inputs inputs : ∀ isValid, frame_m (validate_inputs isValid inputs).
Proof.
  induction inputs as [|i rest IH]; intros isValid; simpl; [apply frame_ret|].
  apply frame_bind; [|done]. unfold validate_input. repeat frame_step.
  case_match; repeat frame_step.
Qed.

Lemma frame_validateForm formId : frame_m (validateForm formId).
Proof.
  unfold validateForm, getElementById, querySelectorAll_in. repeat frame_step.
  apply frame_validate_inputs.
Qed.

Lemma frame_run_callback cb : frame_m (run_callback cb).
Proof. destruct cb; simpl; repeat frame_step. Qed.

Lemma frame_on_DOMContentLoaded : frame_m on_DOMContentLoaded.
Proof.
  unfold on_DOMContentLoaded, querySelectorAll. repeat frame_step.
  apply frame_forEach. intros alert. apply frame_setTimeout.
Qed.

Lemma frame_dispatch (f : nat → js_m ()) ns :
  (∀ n, frame_m (f n)) → ∀ w, frame w (dispatch f ns w).
Proof.
  intros Hf. induction ns as [|n ns IH]; intros w; [apply frame_refl|].
  eapply frame_trans; [apply (Hf n w)|apply IH].
Qed.

Lemma frame_handle css ev t w w' : handle css ev t w = Some w' → frame w w'.
Proof.
  unfold handle. destruct (t <? now w); [done|].
  assert (frame w (at_time t w)) as Hat by by repeat split.
  destruct ev as [id|anchor|form| | |formId|button].
  - unfold take_timer. destruct (list_find _ _) as [[i tm]|]; [|done].
    destruct (t <? tm_due tm); [done|]. intros [= <-].
    match goal with |- frame _ (?m ?w1).2 =>
      apply (frame_trans _ w1); [by repeat split|]; generalize w1 end.
    apply frame_bind; [apply frame_record|intros _; apply frame_run_callback].
  - destruct (event_path w anchor) as [path|]; [|done]. intros [= <-].
    eapply frame_trans; [exact Hat|]. apply frame_dispatch, frame_on_click.
  - destruct (event_path w form) as [path|]; [|done]. intros [= <-].
    eapply frame_trans; [exact Hat|]. apply frame_dispatch, frame_on_submit.
  - intros [= <-]. exact (frame_trans _ _ _ Hat (frame_showRegister (at_time t w))).
  - intros [= <-]. exact (frame_trans _ _ _ Hat (frame_showLogin (at_time t w))).
  - intros [= <-]. exact (frame_trans _ _ _ Hat (frame_validateForm formId (at_time t w))).
  - intros [= <-]. exact (frame_trans _ _ _ Hat (frame_showLoading button (at_time t w))).
Qed.

Lemma frame_run css schedule : ∀ w w', run css schedule w = Some w' → frame w w'.
Proof.
  induction schedule as [|[t ev] rest IH]; intros w w'; simpl.
  - intros [= <-]. apply frame_refl.
  - destruct (handle css ev t w) as [w1|] eqn:Hh; [|done]. intros Hrun.
    eapply frame_trans; [by eapply frame_handle|by apply IH].
Qed.

(** X9: whatever happens on the page once the script is loaded (timers
    running, clicks and submits bubbling to the script's listeners, calls
    of its global functions, in any order and number), no element object
    has its tag, id, classes, value or a content attribute other than
    style and disabled changed, no element object appears or disappears,
    the listeners stay those the script registered at load, and no
    element comes into the document or changes place in it: elements can
    only leave the document. *)
Theorem script_keeps_page_structure css schedule w w' :
  run css schedule (on_DOMContentLoaded w).2 = Some w' →
  (∀ n, core <$> heap w' !! n = core <$> heap w !! n)
  ∧ (∀ n, is_Some (heap w' !! n) ↔ is_Some (heap w !! n))
  ∧ listeners w' = listeners w
  ∧ (nodes w').*1 `sublist_of` (nodes w).*1
  ∧ (∀ n, in_document w' n → in_document w n).
Proof.
  intros Hrun.
  assert (frame w w') as (Hc & Hl & Hn).
  { eapply frame_trans; [apply frame_on_DOMContentLoaded|by eapply frame_run]. }
  split; [done|]. split; [|split; [done|split; [done|]]].
  - intros n. by rewrite <- (fmap_is_Some core (heap w' !! n)), Hc, fmap_is_Some.
  - intros n Hin. by eapply elem_of_sublist.
Qed.

Lemma script_keeps_page_structure_witness :
  listeners dismissed_page = listeners (main login_page).2
  ∧ (nodes dismissed_page).*1 `sublist_of` (nodes (main login_page).2).*1.
Proof.
  assert (run hash_engine [(5000, TimerFires 0); (5300, TimerFires 1)]
            (on_DOMContentLoaded (main login_page).2).2 = Some dismissed_page) as Hrun.
  { unfold dismissed_page. fold loaded_page. destruct (run _ _ _) eqn:E; [reflexivity|].
    vm_compute in E. discriminate E. }
  destruct (script_keeps_page_structure hash_engine _ (main login_page).2 _ Hrun)
    as (_ & _ & Hl & Hn & _).
  by split.
Defined.

(** ** Lookups see only what the script does not write *)

Lemma select_core h h' (p : element → bool → bool) ns :
  (∀ e e' first, core e = core e' → p e first = p e' first) →
  (∀ n, core <$> h' !! n = core <$> h !! n) →
  select h' p ns = select h p ns.
Proof.
  intros Hp Hh. unfold select. induction ns as [|[n first] ns IH]; [done|].
  cbn [omap list_omap]. rewrite IH. specialize (Hh n).
  destruct (h' !! n) as [e'|], (h !! n) as [e|]; simpl in Hh; try done.
  by rewrite (Hp e' e first ltac:(congruence)).
Qed.

Lemma matches_core sel e e' first : core e = core e' → matches e first sel = matches e' first sel.
Proof.
  unfold core. intros [= Hn Hi Hc Ha Hv]. unfold matches. apply forallb_ext_all.
  intros s. destruct s; simpl; by rewrite ?Hn, ?Hc, ?Ha.
Qed.

Lemma has_id_core i e e' (first : bool) :
  core e = core e' → bool_decide (el_id e = Some i) = bool_decide (el_id e' = Some i).
Proof. unfold core. intros [= Hn Hi Hc Ha Hv]. by rewrite Hi. Qed.

(** The result of each lookup of the script on a page. *)
Definition lookup_card (w : world) : option nat :=
  head (select (heap w) (fun e first => matches e first auth_card_first_child) (nodes w)).

Definition lookup_id (i : string) (w : world) : option nat :=
  if decide (i = "") then None
  else head (select (heap w) (fun e _ => bool_decide (el_id e = Some i)) (nodes w)).

Lemma lookup_card_core w h :
  (∀ n, core <$> h !! n = core <$> heap w !! n) → lookup_card (with_heap h w) = lookup_card w.
Proof.
  intros Hh. unfold lookup_card. cbn [heap with_heap]. f_equal.
  apply (select_core _ _ (fun e first => matches e first auth_card_first_child)); [|done].
  intros e e' first. apply matches_core.
Qed.

Lemma lookup_id_core i w h :
  (∀ n, core <$> h !! n = core <$> heap w !! n) → lookup_id i (with_heap h w) = lookup_id i w.
Proof.
  intros Hh. unfold lookup_id. cbn [heap with_heap]. case_decide; [done|]. f_equal.
  apply (select_core _ _ (fun e _ => bool_decide (el_id e = Some i))); [|done].
  intros e e' first. by apply has_id_core.
Qed.

Lemma core_alter (h : gmap nat element) (n : nat) f :
  (∀ e, core (f e) = core e) → ∀ m, core <$> alter f n h !! m = core <$> h !! m.
Proof.
  intros Hf m. destruct (decide (n = m)) as [->|Hne].
  - rewrite lookup_alter_eq. destruct (h !! m); simpl; [|done]. by rewrite Hf.
  - by rewrite lookup_alter_ne.
Qed.

(** ** showRegister and showLogin *)

(** The common body of [showRegister] and [showLogin]: the display of the
    first card, then of the register form. *)
Definition toggle (card_display form_display : string) : js_m () :=
  card ← querySelector auth_card_first_child;
  card ← deref card;
  _ ← modify card (set_display card_display);
  form ← getElementById "register-form";
  form ← deref form;
  modify form (set_display form_display).

(** The page a toggle leaves, by what its two lookups find. *)
Definition toggled (card_display form_display : string) (w : world) : result exn () * world :=
  match lookup_card w with
  | None => (Err TypeError, w)
  | Some card =>
      let h := alter (set_display card_display) card (heap w) in
      match lookup_id "register-form" w with
      | None => (Err TypeError, with_heap h w)
      | Some form => (Ok (), with_heap (alter (set_display form_display) form h) w)
      end
  end.

Lemma toggle_spec s1 s2 w : toggle s1 s2 w = toggled s1 s2 w.
Proof.
  unfold toggle, toggled.
  assert (querySelector auth_card_first_child w = (Ok (lookup_card w), w)) as Hq by done.
  rewrite (bind_ok _ _ _ _ _ Hq). destruct (lookup_card w) as [card|]; [|done].
  rewrite (bind_ok _ _ _ card w eq_refl). erewrite bind_ok by reflexivity.
  set (w1 := with_heap _ w).
  assert (getElementById "register-form" w1 = (Ok (lookup_id "register-form" w), w1)) as Hg.
  { unfold w1. rewrite <- (lookup_id_core "register-form" w
                            (alter (set_display s1) card (heap w))); [done|].
    by apply core_alter. }
  rewrite (bind_ok _ _ _ _ _ Hg). by destruct (lookup_id "register-form" w).
Qed.

Lemma toggle_last_wins s1 s2 s3 s4 w : toggle s3 s4 (toggle s1 s2 w).2 = toggle s3 s4 w.
Proof.
  rewrite (toggle_spec s1 s2 w). unfold toggled.
  destruct (lookup_card w) as [card|] eqn:Hcard; [|done].
  assert (∀ h, (∀ n, core <$> h !! n = core <$> heap w !! n) →
            toggle s3 s4 (with_heap h w)
            = match lookup_id "register-form" w with
              | None => (Err TypeError, with_heap (alter (set_display s3) card h) w)
              | Some form =>
                  (Ok (), with_heap (alter (set_display s4) form (alter (set_display s3) card h))
                            w)
              end) as Hrun.
  { intros h Hh. rewrite toggle_spec. unfold toggled.
    by rewrite (lookup_card_core w h Hh), (lookup_id_core _ w h Hh), Hcard. }
  rewrite (toggle_spec s3 s4 w). unfold toggled. rewrite Hcard.
  destruct (lookup_id "register-form" w) as [form|] eqn:Hform; cbn [snd].
  - rewrite Hrun.
    + f_equal. f_equal. apply map_eq. intros i.
      destruct (decide (form = i)) as [->|Hf], (decide (card = i)) as [->|Hc];
        repeat (rewrite lookup_alter_eq || rewrite lookup_alter_ne by done);
        by destruct (heap w !! i).
    + intros n. by rewrite !core_alter.
  - rewrite Hrun.
    + f_equal. f_equal. apply map_eq. intros i.
      destruct (decide (card = i)) as [->|Hc];
        repeat (rewrite lookup_alter_eq || rewrite lookup_alter_ne by done);
        by destruct (heap w !! i).
    + intros n. by rewrite !core_alter.
Qed.

(** X10: what showRegister and showLogin do, by what their lookups find.
    With no first-child element of class auth-card they throw and leave
    the page as it was.  With such a card but no element of id
    register-form they throw after the card's display is set: showRegister
    leaves the login card hidden and nothing shown in its place.  With
    both, showRegister hides the card and shows the form, showLogin the
    reverse.  Nothing else on the page changes. *)
Theorem toggle_effect w :
  showRegister w
  = match lookup_card w, lookup_id "register-form" w with
    | None, _ => (Err TypeError, w)
    | Some card, None => (Err TypeError, with_heap (alter (set_display "none") card (heap w)) w)
    | Some card, Some form =>
        (Ok (), with_heap (alter (set_display "block") form
                             (alter (set_display "none") card (heap w))) w)
    end
  ∧ showLogin w
    = match lookup_card w, lookup_id "register-form" w with
      | None, _ => (Err TypeError, w)
      | Some card, None =>
          (Err TypeError, with_heap (alter (set_display "block") card (heap w)) w)
      | Some card, Some form =>
          (Ok (), with_heap (alter (set_display "none") form
                               (alter (set_display "block") card (heap w))) w)
      end
  ∧ querySelector auth_card_first_child w = (Ok (lookup_card w), w)
  ∧ getElementById "register-form" w = (Ok (lookup_id "register-form" w), w).
Proof.
  split; [|split; [|by split]].
  - change showRegister with (toggle "none" "block"). rewrite toggle_spec. unfold toggled.
    by destruct (lookup_card w), (lookup_id "register-form" w).
  - change showLogin with (toggle "block" "none"). rewrite toggle_spec. unfold toggled.
    by destruct (lookup_card w), (lookup_id "register-form" w).
Qed.

(** X11: of two calls of showRegister and showLogin in a row, the last
    one decides: the second call returns or throws as it would have on the
    page before the first call, and leaves the page it would have left
    then.  In particular each of the two is idempotent.  (The page
    before the first call is not brought back: showLogin after
    showRegister leaves the displays block and none, whatever they were.) *)
Theorem toggle_last_call_wins w :
  showLogin (showRegister w).2 = showLogin w
  ∧ showRegister (showLogin w).2 = showRegister w
  ∧ showRegister (showRegister w).2 = showRegister w
  ∧ showLogin (showLogin w).2 = showLogin w.
Proof. repeat split; apply toggle_last_wins. Qed.

(** ** validateForm again *)

Lemma getElementById_lookup i w : getElementById i w = (Ok (lookup_id i w), w).
Proof. done. Qed.

Lemma filled_core w h i :
  (∀ n, core <$> h !! n = core <$> heap w !! n) → filled (with_heap h w) i = filled w i.
Proof.
  intros Hh. unfold filled, element_of. cbn [heap with_heap]. specialize (Hh i).
  destruct (h !! i) as [e'|], (heap w !! i) as [e|]; simpl in *; try done.
  assert (core e' = core e) as [= _ _ _ _ ->] by congruence. done.
Qed.

(** The required inputs below [form], in document order. *)
Definition required_inputs (w : world) (form : nat) : list nat :=
  match find_forest form (doc w) with
  | Some t =>
      select (heap w) (fun e first => matches e first input_required)
        (walk_forest true (children t))
  | None => []
  end.

Lemma required_inputs_core w h form :
  (∀ n, core <$> h !! n = core <$> heap w !! n) →
  required_inputs (with_heap h w) form = required_inputs w form.
Proof.
  intros Hh. unfold required_inputs. cbn [doc heap with_heap].
  destruct (find_forest form (doc w)); [|done].
  apply (select_core _ _ (fun e first => matches e first input_required)); [|done].
  intros e e' first. apply matches_core.
Qed.

(** X12: validateForm on an id that no element of the document has, or
    on the empty string, throws a TypeError (the member access on null)
    and leaves the page as it was: no border is coloured. *)
Theorem validateForm_without_form formId w :
  no_id w formId ∨ formId = "" → validateForm formId w = (Err TypeError, w).
Proof.
  intros H. unfold validateForm.
  assert (getElementById formId w = (Ok None, w)) as Hg.
  { destruct H as [H| ->]; [by apply getElementById_none|done]. }
  by rewrite (bind_ok _ _ _ _ _ Hg).
Qed.

Lemma validateForm_without_form_witness :
  validateForm "register" login_page = (Err TypeError, login_page).
Proof.
  apply validateForm_without_form. left.
  apply (bool_decide_unpack _). vm_compute. reflexivity.
Defined.

Lemma validateForm_found formId form w :
  lookup_id formId w = Some form →
  let inputs := required_inputs w form in
  ∃ h, validateForm formId w = (Ok (forallb (filled w) inputs), with_heap h w)
       ∧ ∀ j, h !! j = (if bool_decide (j ∈ inputs) then paint w j else id) <$> heap w !! j.
Proof.
  intros Hform inputs.
  destruct (validate_inputs_spec inputs true w) as (h & Hrun & Hh). exists h.
  split; [|done]. unfold validateForm.
  rewrite (bind_ok _ _ _ _ _ (getElementById_lookup formId w)), Hform.
  rewrite (bind_ok _ _ _ form w eq_refl).
  by rewrite (bind_ok (querySelectorAll_in form input_required) _ w inputs w eq_refl).
Qed.

(** X13: validateForm is idempotent: called again on the page it left,
    with no input edited in between, it returns (or throws) the same and
    leaves the page as it is. *)
Theorem validateForm_idempotent formId w :
  validateForm formId (validateForm formId w).2 = validateForm formId w.
Proof.
  destruct (lookup_id formId w) as [form|] eqn:Hform.
  - destruct (validateForm_found _ _ _ Hform) as (h & Hrun & Hh).
    set (inputs := required_inputs w form) in *.
    assert (∀ n, core <$> h !! n = core <$> heap w !! n) as Hcore.
    { intros n. rewrite Hh. destruct (heap w !! n); simpl; [|done]. by case_bool_decide. }
    rewrite Hrun. cbn [snd].
    destruct (validateForm_found formId form (with_heap h w)) as (h' & Hrun' & Hh').
    { by rewrite lookup_id_core. }
    rewrite Hrun'. rewrite (required_inputs_core w h form Hcore) in *.
    fold inputs in Hh' |- *.
    rewrite (forallb_ext_all (filled (with_heap h w)) (filled w))
      by (intros i; by apply filled_core).
    f_equal. unfold with_heap. cbn [doc heap timers next_timer now listeners log].
    f_equal. apply map_eq. intros j. rewrite Hh'. cbn [heap with_heap]. rewrite Hh.
    unfold paint. rewrite (filled_core w h j Hcore).
    destruct (heap w !! j); simpl; [|done]. by case_bool_decide.
  - unfold validateForm. rewrite (bind_ok _ _ _ _ _ (getElementById_lookup formId w)), Hform.
    cbn [snd]. change (deref None ≫= _) with (@throw bool TypeError) at 1.
    by rewrite (bind_ok _ _ _ _ _ (getElementById_lookup formId w)), Hform.
Qed.

(** ** showLoading called again before its timer has run *)

Lemma take_timer_at w l1 tm l2 :
  timers w = l1 ++ tm :: l2 → (∀ tm', tm' ∈ l1 → tm_id tm' ≠ tm_id tm) →
  take_timer (tm_id tm) w
  = Some (tm, World (doc w) (heap w) (l1 ++ l2) (next_timer w) (now w) (listeners w) (log w)).
Proof.
  intros Ht Hfresh. unfold take_timer. rewrite Ht.
  assert (list_find (fun tm' => tm_id tm' = tm_id tm) (l1 ++ tm :: l2)
          = Some (length l1, tm)) as ->.
  { apply list_find_Some. split; [by apply list_lookup_middle|]. split; [done|].
    intros j y Hj Hlt. rewrite lookup_app_l in Hj by done.
    apply Hfresh. by eapply list_elem_of_lookup_2. }
  by rewrite delete_middle.
Qed.

Lemma alter_alter_insert (f g : element → element) (h : gmap nat element) n e :
  h !! n = Some e → alter f n (alter g n h) = <[n := f (g e)]> h.
Proof.
  intros He. apply map_eq. intros i. destruct (decide (n = i)) as [->|Hne].
  - by rewrite lookup_insert_eq, !lookup_alter_eq, He.
  - by rewrite lookup_insert_ne, !lookup_alter_ne.
Qed.

Lemma showLoading_spec button e w :
  heap w !! button = Some e →
  showLoading button w
  = (Ok (), with_timer (RestoreButton button (textContent e)) 2000
              (with_heap (<[button := set_disabled true (set_textContent "Loading..." e)]>
                            (heap w)) w)).
Proof.
  intros He. unfold showLoading, mbind, js_bind, read, modify, write, setTimeout, element_of.
  simpl. rewrite He. simpl. unfold with_timer, with_heap. simpl.
  by rewrite (alter_alter_insert _ _ _ _ e He).
Qed.

Lemma restore_spec button text e w :
  heap w !! button = Some e →
  run_callback (RestoreButton button text) w
  = (Ok (), with_heap (<[button := set_disabled false (set_textContent text e)]> (heap w)) w).
Proof.
  intros He. unfold run_callback, mbind, js_bind, modify, write. simpl.
  unfold with_heap. simpl. by rewrite (alter_alter_insert _ _ _ _ e He).
Qed.

Lemma ltb_false (a b : Z) : b ≤ a → (a <? b) = false.
Proof. intros. by apply Z.ltb_ge. Qed.

(** X14: showLoading called twice on a button before the first timer has
    run (as two submits of its form within 2000ms do) reads Loading... as
    the original text the second time.  Once both timers have run, each
    when due or later, the button is enabled and its text is Loading...,
    not what it was before the first call. *)
Theorem showLoading_twice_keeps_loading css button e w t1 t2 t3 t4 :
  heap w !! button = Some e →
  (∀ tm, tm ∈ timers w → (tm_id tm < next_timer w)%nat) →
  now w ≤ t1 → t1 ≤ t2 → t2 ≤ t3 → t3 ≤ t4 → t1 + 2000 ≤ t3 → t2 + 2000 ≤ t4 →
  ∃ w', run css [ (t1, CallShowLoading button); (t2, CallShowLoading button);
                  (t3, TimerFires (next_timer w)); (t4, TimerFires (S (next_timer w))) ] w
        = Some w'
    ∧ heap w' = <[button := set_disabled false (set_textContent "Loading..." e)]> (heap w)
    ∧ log w' = log w ++ [ Fired (RestoreButton button (textContent e)) (t1 + 2000) t3;
                          Fired (RestoreButton button "Loading...") (t2 + 2000) t4 ]
    ∧ timers w' = timers w ∧ doc w' = doc w.
Proof.
  intros He Hids H1 H2 H3 H4 Hd1 Hd2.
  set (n := next_timer w).
  set (e1 := set_disabled true (set_textContent "Loading..." e)).
  set (T1 := Timer n (t1 + 2000) (RestoreButton button (textContent e))).
  set (T2 := Timer (S n) (t2 + 2000) (RestoreButton button "Loading...")).
  set (w1 := World (doc w) (<[button := e1]> (heap w)) (timers w ++ [T1]) (S n) t1
               (listeners w) (log w)).
  set (w2 := World (doc w) (<[button := e1]> (heap w)) (timers w ++ [T1; T2]) (S (S n)) t2
               (listeners w) (log w)).
  set (w3 := World (doc w) (<[button := set_disabled false e]> (heap w)) (timers w ++ [T2])
               (S (S n)) t3 (listeners w)
               (log w ++ [Fired (RestoreButton button (textContent e)) (t1 + 2000) t3])).
  set (w4 := World (doc w)
               (<[button := set_disabled false (set_textContent "Loading..." e)]> (heap w))
               (timers w) (S (S n)) t4 (listeners w)
               (log w ++ [ Fired (RestoreButton button (textContent e)) (t1 + 2000) t3;
                           Fired (RestoreButton button "Loading...") (t2 + 2000) t4 ])).
  assert (handle css (CallShowLoading button) t1 w = Some w1) as Hs1.
  { unfold handle. rewrite ltb_false by done.
    by rewrite (showLoading_spec button e (at_time t1 w) He). }
  assert (handle css (CallShowLoading button) t2 w1 = Some w2) as Hs2.
  { unfold handle. rewrite ltb_false by done.
    rewrite (showLoading_spec button e1 (at_time t2 w1)) by apply lookup_insert_eq.
    unfold with_timer, with_heap, at_time, w1, w2.
    cbn [doc heap timers next_timer now listeners log snd].
    rewrite insert_insert_eq, <- app_assoc. by destruct e. }
  assert (handle css (TimerFires n) t3 w2 = Some w3) as Hs3.
  { unfold handle. rewrite ltb_false by done.
    change (take_timer n w2) with (take_timer (tm_id T1) w2).
    rewrite (take_timer_at w2 (timers w) T1 [T2] eq_refl).
    2:{ intros tm Htm. apply Hids in Htm. simpl. fold n in Htm. lia. }
    cbn [tm_due tm_callback T1]. rewrite ltb_false by done.
    unfold record. rewrite bind_write. erewrite restore_spec by apply lookup_insert_eq.
    unfold with_heap, logged, at_time, w2, w3.
    cbn [doc heap timers next_timer now listeners log snd].
    rewrite insert_insert_eq. by destruct e. }
  assert (handle css (TimerFires (S n)) t4 w3 = Some w4) as Hs4.
  { unfold handle. rewrite ltb_false by done.
    change (take_timer (S n) w3) with (take_timer (tm_id T2) w3).
    rewrite (take_timer_at w3 (timers w) T2 [] eq_refl).
    2:{ intros tm Htm. apply Hids in Htm. simpl. fold n in Htm. lia. }
    cbn [tm_due tm_callback T2]. rewrite ltb_false by done.
    unfold record. rewrite bind_write. erewrite restore_spec by apply lookup_insert_eq.
    unfold with_heap, logged, at_time, w3, w4.
    cbn [doc heap timers next_timer now listeners log snd].
    rewrite insert_insert_eq, app_nil_r, <- app_assoc. by destruct e. }
  exists w4. cbn [run]. by rewrite Hs1, Hs2, Hs3, Hs4.
Qed.

Lemma showLoading_twice_keeps_loading_witness :
  ∃ w', run hash_engine [ (0, CallShowLoading 4); (100, CallShowLoading 4);
                          (2000, TimerFires 0); (2100, TimerFires 1) ] login_page = Some w'
    ∧ textContent (element_of w' 4) = "Loading..."
    ∧ disabled (element_of w' 4) = false.
Proof.
  destruct (showLoading_twice_keeps_loading hash_engine 4
              (Element "button" None [] [("type", "submit")] [] "Sign in" false (Style "" "" ""))
              login_page 0 100 2000 2100 eq_refl) as (w' & Hrun & Hheap & _); try done.
  { by intros tm ?%elem_of_nil. }
  exists w'. split; [exact Hrun|]. unfold element_of. rewrite Hheap, lookup_insert_eq. by split.
Defined.

(** ** The script's listeners *)

Lemma elem_of_forms w f :
  f ∈ forms w ↔ in_document w f ∧ ∃ e, heap w !! f = Some e ∧ localName e = "form".
Proof.
  unfold forms, in_document. rewrite elem_of_select. split.
  - intros (first & e & Hin & He & Hm). simpl in Hm. apply andb_prop in Hm as [Hm _].
    apply bool_decide_eq_true in Hm. split; [|by exists e].
    apply list_elem_of_fmap. by exists (f, first).
  - intros [([f' first] & -> & Hin)%list_elem_of_fmap (e & He & Hn)].
    exists first, e. repeat split; [done..|]. simpl. by rewrite bool_decide_eq_true_2.
Qed.

Lemma bound_none (l : nat → listener) ls path :
  (∀ n, n ∈ path → l n ∉ ls) → bound l ls path = [].
Proof.
  unfold bound. induction path as [|n path IH]; intros Hnone; [done|].
  rewrite bind_cons, IH by (intros m Hm; apply Hnone; by right).
  rewrite (count_none (fun l' => l' = l n)); [done|].
  apply Forall_forall. intros l' Hin ->. apply (Hnone n); [by left|done].
Qed.

Lemma bound_once (l : nat → listener) ls (registered : list nat) path :
  (∀ n, length (filter (fun l' => l' = l n) ls) = if decide (n ∈ registered) then 1 else 0)%nat →
  bound l ls path = filter (fun n => n ∈ registered) path.
Proof.
  intros Hcount. unfold bound. induction path as [|n path IH]; [done|].
  rewrite bind_cons, IH, Hcount, filter_cons. by case_decide.
Qed.

#[local] Instance OnClick_inj : Inj (=) (=) OnClick.
Proof. by intros a b [= ->]. Qed.

#[local] Instance OnSubmit_inj : Inj (=) (=) OnSubmit.
Proof. by intros a b [= ->]. Qed.

Lemma count_registered (l : nat → listener) `{!Inj (=) (=) l} (registered : list nat) n :
  NoDup registered →
  length (filter (fun l' => l' = l n) (l <$> registered))
  = (if decide (n ∈ registered) then 1 else 0)%nat.
Proof.
  intros Hnd. rewrite (count_inj l n). case_decide as Hin.
  - by apply count_NoDup.
  - apply count_none, Forall_forall. by intros m Hm ->.
Qed.

Lemma main_listeners_click w n :
  listeners w = [] → well_formed w →
  length (filter (fun l' => l' = OnClick n)
            (OnDOMContentLoaded :: (OnClick <$> anchors w) ++ (OnSubmit <$> forms w)))
  = (if decide (n ∈ anchors w) then 1 else 0)%nat.
Proof.
  intros Hl Hwf. rewrite filter_cons_False by done.
  rewrite filter_app, length_app, (count_registered OnClick).
  - rewrite (count_none (fun l' => l' = OnClick n)); [lia|].
    apply Forall_forall. by intros l' (f & -> & _)%list_elem_of_fmap.
  - exact (sublist_NoDup _ _ Hwf (select_sublist _ _ _)).
Qed.

Lemma main_listeners_submit w n :
  listeners w = [] → well_formed w →
  length (filter (fun l' => l' = OnSubmit n)
            (OnDOMContentLoaded :: (OnClick <$> anchors w) ++ (OnSubmit <$> forms w)))
  = (if decide (n ∈ forms w) then 1 else 0)%nat.
Proof.
  intros Hl Hwf. rewrite filter_cons_False by done.
  rewrite filter_app, length_app, (count_registered OnSubmit).
  - rewrite (count_none (fun l' => l' = OnSubmit n)); [lia|].
    apply Forall_forall. by intros l' (f & -> & _)%list_elem_of_fmap.
  - exact (sublist_NoDup _ _ Hwf (select_sublist _ _ _)).
Qed.

(** X15: run on a page with no listener yet, the script's top level does
    not throw and changes nothing but the listeners: it registers the
    DOMContentLoaded listener, a click listener on exactly the anchors of
    the document whose href starts with # and a submit listener on exactly
    the form elements of the document, as the document is at that moment.
    A later click bubbles: it runs the click listener of each of these
    anchors that is the node clicked or above it, the innermost first,
    once each, with that anchor as this; a click on a node that is
    neither such an anchor nor below one runs none of the script.  The
    same holds of a submit and the forms. *)
Theorem main_registers_exactly w :
  listeners w = [] →
  main w = (Ok (), with_listeners
                     (OnDOMContentLoaded :: (OnClick <$> anchors w) ++ (OnSubmit <$> forms w)) w)
  ∧ (∀ a, OnClick a ∈ listeners (main w).2 ↔ a ∈ anchors w)
  ∧ (∀ f, OnSubmit f ∈ listeners (main w).2
          ↔ in_document w f ∧ ∃ e, heap w !! f = Some e ∧ localName e = "form")
  ∧ (∀ css t target path, now w ≤ t → event_path w target = Some path →
       ((∀ a, a ∈ path → a ∉ anchors w) →
        handle css (Click target) t (main w).2 = Some (at_time t (main w).2))
       ∧ (well_formed w →
          handle css (Click target) t (main w).2
          = Some (dispatch (on_click css) (filter (fun n => n ∈ anchors w) path)
                    (at_time t (main w).2))))
  ∧ (∀ css t form path, now w ≤ t → event_path w form = Some path →
       ((∀ f, f ∈ path → f ∉ forms w) →
        handle css (Submit form) t (main w).2 = Some (at_time t (main w).2))
       ∧ (well_formed w →
          handle css (Submit form) t (main w).2
          = Some (dispatch on_submit (filter (fun n => n ∈ forms w) path)
                    (at_time t (main w).2)))).
Proof.
  intros Hl. rewrite main_spec. cbn [snd].
  set (ls := OnDOMContentLoaded :: (OnClick <$> anchors w) ++ (OnSubmit <$> forms w)).
  assert (listeners (with_listeners ls w) = ls) as Hls.
  { unfold with_listeners. cbn [listeners]. by rewrite Hl. }
  assert (∀ a, OnClick a ∈ ls ↔ a ∈ anchors w) as Hclick.
  { intros a. unfold ls. rewrite elem_of_cons, elem_of_app. split.
    - intros [?|[(b & [= ->] & ?)%list_elem_of_fmap|(b & ? & _)%list_elem_of_fmap]]; done.
    - intros Ha. right. left. by apply list_elem_of_fmap_2. }
  assert (∀ f, OnSubmit f ∈ ls ↔ f ∈ forms w) as Hsubmit.
  { intros f. unfold ls. rewrite elem_of_cons, elem_of_app. split.
    - intros [?|[(b & ? & _)%list_elem_of_fmap|(b & [= ->] & ?)%list_elem_of_fmap]]; done.
    - intros Hf. right. right. by apply list_elem_of_fmap_2. }
  rewrite Hls. split; [done|]. split; [done|]. split; [|split].
  - intros f. by rewrite Hsubmit, elem_of_forms.
  - intros css t target path Ht Hpath. unfold handle. cbn [now with_listeners].
    rewrite ltb_false by done.
    change (event_path (with_listeners ls w) target) with (event_path w target).
    rewrite Hpath, Hls. split.
    + intros Hnone. rewrite bound_none; [done|]. intros a Ha. rewrite Hclick. by apply Hnone.
    + intros Hwf. rewrite (bound_once OnClick ls (anchors w)); [done|].
      intros n. by apply main_listeners_click.
  - intros css t form path Ht Hpath. unfold handle. cbn [now with_listeners].
    rewrite ltb_false by done.
    change (event_path (with_listeners ls w) form) with (event_path w form).
    rewrite Hpath, Hls. split.
    + intros Hnone. rewrite bound_none; [done|]. intros f Hf. rewrite Hsubmit. by apply Hnone.
    + intros Hwf. rewrite (bound_once OnSubmit ls (forms w)); [done|].
      intros n. by apply main_listeners_submit.
Qed.

Lemma main_registers_exactly_witness :
  listeners (main login_page).2 = [OnDOMContentLoaded; OnClick 5; OnSubmit 1]
  ∧ handle hash_engine (Click 6) 10 (main login_page).2 = Some (at_time 10 (main login_page).2)
  ∧ handle hash_engine (Submit 1) 10 (main login_page).2
    = Some (dispatch on_submit [1%nat] (at_time 10 (main login_page).2)).
Proof.
  destruct (main_registers_exactly login_page eq_refl) as (Hrun & _ & _ & Hclick & Hsubmit).
  split; [by rewrite Hrun|]. split.
  - apply (proj1 (Hclick hash_engine 10 6%nat [6; 0]%nat ltac:(done) eq_refl)).
    intros a Ha. apply (bool_decide_unpack _).
    apply elem_of_cons in Ha as [->|Ha]; [vm_compute; reflexivity|].
    apply list_elem_of_singleton in Ha as ->. vm_compute. reflexivity.
  - apply (proj2 (Hsubmit hash_engine 10 1%nat [1; 0]%nat ltac:(done) eq_refl)).
    apply (bool_decide_unpack _). vm_compute. reflexivity.
Defined.

(** ** An alert whose timers run when due *)

Lemma forEach_setTimeout_fade_ids l :
  ∀ w, forEach (fun alert => setTimeout (AlertFade alert) 5000) l w
       = (Ok (), World (doc w) (heap w)
                   (timers w ++ imap (fun i a => Timer (next_timer w + i) (now w + 5000)
                                                   (AlertFade a)) l)
                   (next_timer w + length l) (now w) (listeners w) (log w)).
Proof.
  induction l as [|a l IH]; intros w.
  - simpl. rewrite app_nil_r, Nat.add_0_r. by destruct w.
  - cbn [forEach]. rewrite bind_setTimeout, IH. unfold with_timer.
    cbn [doc heap timers next_timer now listeners log length].
    rewrite imap_cons, <- app_assoc, Nat.add_0_r.
    replace (S (next_timer w) + length l)%nat with (next_timer w + S (length l))%nat by lia.
    assert (imap (fun i a => Timer (S (next_timer w) + i) (now w + 5000) (AlertFade a)) l
            = imap ((fun i a => Timer (next_timer w + i) (now w + 5000) (AlertFade a)) ∘ S) l)
      as ->; [|done].
    apply imap_ext. intros i x _. simpl. f_equal. lia.
Qed.



(** X17: the DOMContentLoaded listener sets one fade timer for each
    element of class alert in the document, in document order, with
    consecutive timer ids, all due 5000ms later, and changes nothing else;
    on a page without alerts it changes nothing at all. *)
Theorem on_DOMContentLoaded_sets_one_timer_per_alert w :
  on_DOMContentLoaded w
  = (Ok (), World (doc w) (heap w)
              (timers w ++ imap (fun i a => Timer (next_timer w + i) (now w + 5000)
                                              (AlertFade a)) (alerts w))
              (next_timer w + length (alerts w)) (now w) (listeners w) (log w))
  ∧ (∀ a, a ∈ alerts w ↔ in_document w a ∧ ∃ e, heap w !! a = Some e ∧ "alert" ∈ classList e)
  ∧ (alerts w = [] → on_DOMContentLoaded w = (Ok (), w)).
Proof.
  assert (on_DOMContentLoaded w
          = (Ok (), World (doc w) (heap w)
                      (timers w ++ imap (fun i a => Timer (next_timer w + i) (now w + 5000)
                                                      (AlertFade a)) (alerts w))
                      (next_timer w + length (alerts w)) (now w) (listeners w) (log w))) as Hrun.
  { unfold on_DOMContentLoaded. rewrite bind_querySelectorAll. fold (alerts w).
    by rewrite forEach_setTimeout_fade_ids. }
  split; [done|]. split; [apply elem_of_alerts|].
  intros Hnone. rewrite Hrun, Hnone. simpl. rewrite app_nil_r, Nat.add_0_r. by destruct w.
Qed.



(** ** Values of white space only *)

Lemma not_blank s : trim s ≠ [] ↔ ∃ c, c ∈ s ∧ is_white_space c = false.
Proof.
  rewrite trim_empty. induction s as [|c s IH]; simpl.
  - split; [done|]. by intros (c & ?%elem_of_nil & _).
  - destruct (is_white_space c) eqn:Hc; simpl.
    + rewrite IH. split; intros (c' & Hin & Hc'); exists c'.
      * split; [by right|done].
      * apply elem_of_cons in Hin as [->|Hin]; [congruence|done].
    + split; [|done]. intros _. exists c. split; [by left|done].
Qed.

(** X19: when formId names an element, validateForm returns true exactly
    when every required input below it holds a character that
    String.prototype.trim does not strip; an input whose value is made of
    blanks, tabs, line breaks and other white space only is marked
    #dc3545 like an empty one. *)
Theorem validateForm_blank_is_empty formId form w :
  lookup_id formId w = Some form →
  ∃ isValid,
    (validateForm formId w).1 = Ok isValid
    ∧ (isValid = true ↔
       ∀ i, i ∈ required_inputs w form →
         ∃ c, c ∈ value (element_of w i) ∧ is_white_space c = false)
    ∧ (∀ i, i ∈ required_inputs w form →
         (∀ c, c ∈ value (element_of w i) → is_white_space c = true) →
         borderColor (el_style (element_of (validateForm formId w).2 i)) = "#dc3545")
    ∧ (∀ i, i ∈ required_inputs w form ↔ required_input w form i).
Proof.
  intros Hform. destruct (validateForm_found _ _ _ Hform) as (h & Hrun & Hh).
  exists (forallb (filled w) (required_inputs w form)). rewrite Hrun. cbn [fst snd].
  split; [done|]. split; [|split].
  - rewrite forallb_filled. by setoid_rewrite not_blank.
  - intros i Hi Hblank.
    assert (is_Some (heap w !! i)) as [e He].
    { unfold required_inputs in Hi.
      destruct (find_forest form (doc w)); [|by apply elem_of_nil in Hi].
      apply elem_of_select in Hi as (_ & e & _ & He & _). by exists e. }
    unfold element_of in *. cbn [heap with_heap].
    rewrite Hh, (bool_decide_eq_true_2 _ Hi), He. rewrite He in Hblank. simpl in *.
    unfold paint, filled, element_of. rewrite He. simpl.
    destruct (trim (value e)) eqn:Ht; [done|]. exfalso.
    assert (trim (value e) ≠ []) as (c & Hc & Hw)%not_blank by by rewrite Ht.
    apply Hblank in Hc. congruence.
  - intros i. destruct (querySelectorAll_in_required w form) as (inputs & Hq & Hin).
    assert (inputs = required_inputs w form) as <-; [|done].
    unfold querySelectorAll_in, read in Hq. by injection Hq as <-.
Qed.

Lemma validateForm_blank_is_empty_witness :
  (validateForm "login" login_page).1 = Ok false
  ∧ borderColor (el_style (element_of (validateForm "login" login_page).2 2)) = "#dc3545".
Proof.
  destruct (validateForm_blank_is_empty "login" 1 login_page eq_refl)
    as (isValid & Hrun & _ & Hred & _).
  split; [reflexivity|]. apply Hred.
  - apply (bool_decide_unpack _). vm_compute. reflexivity.
  - intros c Hc. change (c ∈ js "  ") in Hc.
    apply elem_of_cons in Hc as [->|Hc]; [reflexivity|].
    apply elem_of_cons in Hc as [->|Hc]; [reflexivity|]. by apply elem_of_nil in Hc.
Defined.

End ScriptExtra.
